(** * geMIDI: the step sequencer and transport engine of [App.tsx], and the
    response validation of [services/geminiService.ts].

    The development is a shallow embedding.  JavaScript numbers that the
    program only ever uses as integers (MIDI note numbers, velocities,
    channels, bar counts, step counters, history indices) are [Z]; numbers
    that carry fractions (beat times, durations, automation values, depth and
    offset) are doubles, each modelled by the rational [Q] it denotes.  The
    arithmetic the modelled code performs on them is written out below: the
    controller transform, which multiplies by an arbitrary depth, with every
    operation rounded to the nearest double, and the products and quotients
    by powers of two, [Math.floor], [Math.round], [%] and
    [Math.max]/[Math.min], which are exact on doubles, exactly (as is the
    velocity scaling of the MIDI export, of which only the range is
    stated).  React state
    setters are modelled as updates of an explicit application state; where
    the program reads, in the same handler, something that only the queued
    updater writes, the model gives what the handler sees.  The timestamp
    handed to [MIDIOutput.send] is not part of the emitted message. *)

From Stdlib Require Import ZArith QArith Qround Qabs Qpower Lia Lqa List Sorted.
From stdpp Require Import gmap strings list pretty.
Import ListNotations.

Local Open Scope Z_scope.

(** ** JavaScript numeric primitives *)

(** [a % b] on integers: the remainder takes the sign of the dividend. *)
Definition js_rem (a b : Z) : Z := Z.rem a b.

(** [Math.floor] on a rational. *)
Definition Math_floor (x : Q) : Z := Qfloor x.

(** [Math.round]: nearest integer, halves go up. *)
Definition Math_round (x : Q) : Z := Qfloor (x + (1 # 2))%Q.

(** [Math.max(lo, Math.min(hi, x))]. *)
Definition clamp (lo hi x : Z) : Z := Z.max lo (Z.min hi x).

(** [arr[i]] for a JavaScript number [i] holding an integer: [undefined]
    outside the array. *)
Definition js_index {A} (l : list A) (i : Z) : option A :=
  if i <? 0 then None else l !! Z.to_nat i.

(** ** Arithmetic on fractions

    A JavaScript number is an IEEE 754 double.  A finite double is modelled
    by the rational it denotes, and [+], [-] and [*] give the double nearest
    to the exact result, a tie going to the neighbour whose significand is
    even.  [toDouble] is that rounding: a double has 53 significant bits and
    is a multiple of [2^-1074].  It is the rounding of the program wherever
    the exact result is below [2^1024] in magnitude; what the program
    computes as [Infinity] or [NaN] is outside the model.

    The controller transform of [processMidiStep] multiplies by an arbitrary
    depth and is written with the operations below. *)

(** The integer nearest to [y], the even one of the two when [y] lies
    halfway. *)
Definition roundTiesToEven (y : Q) : Z :=
  let f := Qfloor y in
  match (y - inject_Z f ?= 1 # 2)%Q with
  | Lt => f
  | Gt => f + 1
  | Eq => if Z.even f then f else f + 1
  end.

(** [floor(log2 x)] for a positive [x]. *)
Definition binade (x : Q) : Z :=
  let e0 := Z.log2 (Qnum x) - Z.log2 (Zpos (Qden x)) in
  if Qle_bool (Qpower 2 e0) x then e0 else e0 - 1.

(** The exponent of the spacing of the doubles around [x]. *)
Definition ulpExponent (x : Q) : Z := Z.max (binade (Qabs x) - 52) (-1074).

Definition toDouble (x : Q) : Q :=
  if Qeq_bool x 0 then 0%Q
  else let c := ulpExponent x in
       (inject_Z (roundTiesToEven (x / Qpower 2 c)) * Qpower 2 c)%Q.

(** [x + y], [x - y] and [x * y] on numbers. *)
Definition Number_add (x y : Q) : Q := toDouble (x + y).
Definition Number_subtract (x y : Q) : Q := toDouble (x - y).
Definition Number_multiply (x y : Q) : Q := toDouble (x * y).

(** ** Constants ([constants.ts]) *)

Definition DEFAULT_BARS : Z := 4.
Definition MAX_PATTERN_HISTORY : nat := 10.
Definition PPQN : Z := 24.

(** ** Data model ([types.ts]) *)

Record MidiNote := mkMidiNote {
  note : Z;
  velocity : Z;
  time : Q;
  duration : Q
}.

Inductive TrackType := DRUM | SYNTH.

Record PatternHistoryEntry := mkEntry {
  pattern : option (list MidiNote);
  bars : Z;
  prompt : string
}.

Record CcAutomationEvent := mkCcEvent {
  cc_time : Q;
  cc_value : Q
}.

Record CcAutomationData := mkCcData {
  cc : Z;
  events : list CcAutomationEvent;
  cc_prompt : string;
  cc_bars : Z;
  depth : option Q;
  offset : option Q
}.

Record Track := mkTrack {
  t_id : string;
  t_name : string;
  t_type : TrackType;
  channel : Z;
  isLoading : bool;
  error : option string;
  isMuted : bool;
  isProgressionChaining : bool;
  octaveShift : option Z;
  patternHistory : list PatternHistoryEntry;
  currentPatternIndex : Z;
  ccAutomationData : option (list (option CcAutomationData))
}.

(** [interface ActiveMidiNote] of [App.tsx]. *)
Record ActiveMidiNote := mkActive {
  a_note : Z;
  absoluteOffStep : Z;
  a_channel : Z
}.

(** The value type of [liveEditingPatternRef]. *)
Record LiveEdit := mkLive {
  le_pattern : list MidiNote;
  le_bars : Z
}.

(** A three byte channel message handed to [MIDIOutput.send]. *)
Record MidiMessage := mkMsg {
  status : Z;
  data1 : Z;
  data2 : Z
}.

(** ** Insertion ordered maps

    [activePlayingNotesRef] is a JavaScript [Map] that is iterated with
    [forEach], so the order of its keys decides the order of the messages
    sent.  It is an association list with unique keys: [set] keeps the
    position of a key that is present and appends a new one. *)

Section OrderedMap.
Context {V : Type}.

Fixpoint omap_get (k : string) (m : list (string * V)) : option V :=
  match m with
  | [] => None
  | (k', v) :: m' => if String.eqb k k' then Some v else omap_get k m'
  end.

Fixpoint omap_set (k : string) (v : V) (m : list (string * V)) : list (string * V) :=
  match m with
  | [] => [(k, v)]
  | (k', v') :: m' =>
      if String.eqb k k' then (k, v) :: m' else (k', v') :: omap_set k v m'
  end.

Fixpoint omap_delete (k : string) (m : list (string * V)) : list (string * V) :=
  match m with
  | [] => []
  | (k', v') :: m' =>
      if String.eqb k k' then m' else (k', v') :: omap_delete k m'
  end.
End OrderedMap.

(** ** Application state

    The [useState] cells and [useRef] boxes of [App] that the sequencer reads
    or writes.  [hasOutput] stands for [selectedOutputRef.current] being
    non-null and [hasInput] for [selectedInputId] being truthy. *)

Record AppState := mkState {
  tracks : list Track;
  isPlaying : bool;
  isPreviewMode : bool;
  isExternalClock : bool;
  hasInput : bool;
  hasOutput : bool;
  fullscreenTrackId : option string;
  liveEditingPattern : gmap string (option LiveEdit);
  absoluteStep : Z;
  clockTickCounter : Z;
  activePlayingNotes : list (string * list ActiveMidiNote);
  pendingPatternHistorySwitch : option (gmap string Z)
}.

(** ** Pattern resolution ([processMidiStep], the per-track branch) *)

(** [liveEditData && fullscreenTrackId === track.id]: the override that is
    in force for a track is the entry of the live-edit table of the track that
    is open in the editor. *)
Definition liveEditOverride (st : AppState) (track : Track) : option LiveEdit :=
  match liveEditingPattern st !! t_id track with
  | Some (Some d) =>
      match fullscreenTrackId st with
      | Some f => if String.eqb f (t_id track) then Some d else None
      | None => None
      end
  | _ => None
  end.

(** [p.bars > 0 ? p.bars : DEFAULT_BARS]. *)
Definition barsOrDefault (b : Z) : Z := if 0 <? b then b else DEFAULT_BARS.

(** [historyWithBars.reduce((sum, p) => sum + p.bars * 16, 0)]. *)
Definition totalProgressionSteps (h : list PatternHistoryEntry) : Z :=
  fold_left (fun sum p => sum + barsOrDefault (bars p) * 16) h 0.

(** The [for (const entry of historyWithBars)] loop: [g] is
    [currentGlobalStepInProgression], [cum] is [cumulativeSteps].  The result
    is the pair ([patternForStep], [trackLocalStep]), which keeps its initial
    value ([null], [0]) when the loop ends without a [break]. *)
Fixpoint walkProgression (g cum : Z) (h : list PatternHistoryEntry)
  : option (list MidiNote) * Z :=
  match h with
  | [] => (None, 0)
  | entry :: rest =>
      let patternSteps := barsOrDefault (bars entry) * 16 in
      if (cum <=? g) && (g <? cum + patternSteps)
      then (pattern entry, g - cum)
      else walkProgression g (cum + patternSteps) rest
  end.

Definition resolveChained (h : list PatternHistoryEntry) (currentAbsoluteStep : Z)
  : option (list MidiNote) * Z :=
  let total := totalProgressionSteps h in
  if 0 <? total
  then walkProgression (js_rem currentAbsoluteStep total) 0 h
  else (None, 0).

Definition resolveCurrent (track : Track) (currentAbsoluteStep : Z)
  : option (list MidiNote) * Z :=
  match js_index (patternHistory track) (currentPatternIndex track) with
  | Some historyEntry =>
      let trackTotalSteps := barsOrDefault (bars historyEntry) * 16 in
      (pattern historyEntry,
       if 0 <? trackTotalSteps then js_rem currentAbsoluteStep trackTotalSteps else 0)
  | None => (None, 0)
  end.

(** The whole [if / else if / else] of [processMidiStep]. *)
Definition resolvePattern (st : AppState) (track : Track) (currentAbsoluteStep : Z)
  : option (list MidiNote) * Z :=
  match liveEditOverride st track with
  | Some liveEditData =>
      let trackTotalSteps := le_bars liveEditData * 16 in
      (Some (le_pattern liveEditData),
       if 0 <? trackTotalSteps then js_rem currentAbsoluteStep trackTotalSteps else 0)
  | None =>
      if isProgressionChaining track
      then resolveChained (patternHistory track) currentAbsoluteStep
      else resolveCurrent track currentAbsoluteStep
  end.

(** ** Emitting one step ([processMidiStep]) *)

Definition noteOff (a : ActiveMidiNote) : MidiMessage :=
  mkMsg (0x80 + (a_channel a - 1)) (a_note a) 0.

Definition expiresAt (currentAbsoluteStep : Z) (a : ActiveMidiNote) : bool :=
  absoluteOffStep a =? currentAbsoluteStep.

(** First loop: [activePlayingNotesRef.current.forEach], sending a note-off
    for every sounding note that ends on this step and deleting it from its
    set. *)
Definition releaseExpired (currentAbsoluteStep : Z)
    (active : list (string * list ActiveMidiNote))
  : list MidiMessage * list (string * list ActiveMidiNote) :=
  (flat_map (fun kv => map noteOff (filter (fun a => expiresAt currentAbsoluteStep a = true) (snd kv))) active,
   map (fun kv => (fst kv, filter (fun a => expiresAt currentAbsoluteStep a = false) (snd kv))) active).

(** The pitch that is sent: the octave shift of a synth track is added to a
    local copy of [note.note], which is then clamped. *)
Definition finalNoteOf (track : Track) (n : MidiNote) : Z :=
  let finalNote :=
    match t_type track, octaveShift track with
    | SYNTH, Some s => note n + s * 12
    | _, _ => note n
    end in
  Z.max 0 (Z.min 127 finalNote).

Definition startsAt (trackLocalStep : Z) (n : MidiNote) : bool :=
  Math_floor (time n * 4) =? trackLocalStep.

Definition noteOn (track : Track) (n : MidiNote) : MidiMessage :=
  mkMsg (0x90 + (channel track - 1)) (finalNoteOf track n) (velocity n).

Definition soundingOf (track : Track) (currentAbsoluteStep : Z) (n : MidiNote)
  : ActiveMidiNote :=
  mkActive (finalNoteOf track n)
           (currentAbsoluteStep + Math_floor (duration n * 4))
           (channel track).

(** The value sent for one automation event of a lane:
    [value = midpoint + (value - midpoint) * depth; value += offset;
     value = Math.max(0, Math.min(127, Math.round(value)))]. *)
Definition ccTransform (ccData : CcAutomationData) (value : Q) : Z :=
  let depth := default 1%Q (depth ccData) in
  let offset := default 0%Q (offset ccData) in
  let midpoint := 63.5%Q in
  let value := Number_add midpoint (Number_multiply (Number_subtract value midpoint) depth) in
  let value := Number_add value offset in
  Z.max 0 (Z.min 127 (Math_round value)).

Definition laneMessages (track : Track) (currentAbsoluteStep : Z)
    (lane : option CcAutomationData) : list MidiMessage :=
  match lane with
  | Some ccData =>
      let automationTotalSteps := cc_bars ccData * 16 in
      let currentAutomationLocalStep :=
        if 0 <? automationTotalSteps
        then js_rem currentAbsoluteStep automationTotalSteps else 0 in
      map (fun event => mkMsg (0xB0 + (channel track - 1)) (cc ccData)
                              (ccTransform ccData (cc_value event)))
          (filter (fun event => Math_floor (cc_time event * 4) = currentAutomationLocalStep)
                  (events ccData))
  | None => []
  end.

Definition automationMessages (track : Track) (currentAbsoluteStep : Z)
  : list MidiMessage :=
  match t_type track, ccAutomationData track with
  | SYNTH, Some lanes => flat_map (laneMessages track currentAbsoluteStep) lanes
  | _, _ => []
  end.

(** Body of [tracksRef.current.forEach(track => ...)] for one track. *)
Definition processTrack (st : AppState) (currentAbsoluteStep : Z) (track : Track)
    (active : list (string * list ActiveMidiNote))
  : list MidiMessage * list (string * list ActiveMidiNote) :=
  if isMuted track then ([], active)
  else
    match resolvePattern st track currentAbsoluteStep with
    | (None, _) => ([], active)
    | (Some patternForStep, trackLocalStep) =>
        let trackActiveNotes := default [] (omap_get (t_id track) active) in
        let starting :=
          filter (fun n => startsAt trackLocalStep n = true) patternForStep in
        (map (noteOn track) starting ++ automationMessages track currentAbsoluteStep,
         omap_set (t_id track)
                  (trackActiveNotes ++ map (soundingOf track currentAbsoluteStep) starting)
                  active)
    end.

Fixpoint processTracks (st : AppState) (currentAbsoluteStep : Z) (ts : list Track)
    (active : list (string * list ActiveMidiNote))
  : list MidiMessage * list (string * list ActiveMidiNote) :=
  match ts with
  | [] => ([], active)
  | track :: rest =>
      let '(out1, active1) := processTrack st currentAbsoluteStep track active in
      let '(out2, active2) := processTracks st currentAbsoluteStep rest active1 in
      (out1 ++ out2, active2)
  end.

Definition set_activePlayingNotes (st : AppState) (a : list (string * list ActiveMidiNote)) : AppState :=
  mkState (tracks st) (isPlaying st) (isPreviewMode st) (isExternalClock st)
          (hasInput st) (hasOutput st) (fullscreenTrackId st) (liveEditingPattern st)
          (absoluteStep st) (clockTickCounter st) a (pendingPatternHistorySwitch st).

Definition set_tracks (st : AppState) (ts : list Track) : AppState :=
  mkState ts (isPlaying st) (isPreviewMode st) (isExternalClock st)
          (hasInput st) (hasOutput st) (fullscreenTrackId st) (liveEditingPattern st)
          (absoluteStep st) (clockTickCounter st) (activePlayingNotes st)
          (pendingPatternHistorySwitch st).

Definition set_isPlaying (st : AppState) (b : bool) : AppState :=
  mkState (tracks st) b (isPreviewMode st) (isExternalClock st)
          (hasInput st) (hasOutput st) (fullscreenTrackId st) (liveEditingPattern st)
          (absoluteStep st) (clockTickCounter st) (activePlayingNotes st)
          (pendingPatternHistorySwitch st).

Definition set_isExternalClock (st : AppState) (b : bool) : AppState :=
  mkState (tracks st) (isPlaying st) (isPreviewMode st) b
          (hasInput st) (hasOutput st) (fullscreenTrackId st) (liveEditingPattern st)
          (absoluteStep st) (clockTickCounter st) (activePlayingNotes st)
          (pendingPatternHistorySwitch st).

Definition set_absoluteStep (st : AppState) (n : Z) : AppState :=
  mkState (tracks st) (isPlaying st) (isPreviewMode st) (isExternalClock st)
          (hasInput st) (hasOutput st) (fullscreenTrackId st) (liveEditingPattern st)
          n (clockTickCounter st) (activePlayingNotes st)
          (pendingPatternHistorySwitch st).

Definition set_clockTickCounter (st : AppState) (n : Z) : AppState :=
  mkState (tracks st) (isPlaying st) (isPreviewMode st) (isExternalClock st)
          (hasInput st) (hasOutput st) (fullscreenTrackId st) (liveEditingPattern st)
          (absoluteStep st) n (activePlayingNotes st)
          (pendingPatternHistorySwitch st).

Definition set_pending (st : AppState) (p : option (gmap string Z)) : AppState :=
  mkState (tracks st) (isPlaying st) (isPreviewMode st) (isExternalClock st)
          (hasInput st) (hasOutput st) (fullscreenTrackId st) (liveEditingPattern st)
          (absoluteStep st) (clockTickCounter st) (activePlayingNotes st) p.

(** [processMidiStep]: the returned list is the sequence of [send] calls in
    the order they are made. *)
Definition processMidiStep (st : AppState) (currentAbsoluteStep : Z)
  : AppState * list MidiMessage :=
  if isPreviewMode st || negb (hasOutput st) then (st, [])
  else
    let '(offs, active1) := releaseExpired currentAbsoluteStep (activePlayingNotes st) in
    let '(ons, active2) := processTracks st currentAbsoluteStep (tracks st) active1 in
    (set_activePlayingNotes st active2, offs ++ ons).

(** ** Flushing ([sendAllNotesOff]) *)

(** [tracksRef.current.find(t => t.id === trackId)] being found. *)
Definition trackExists (ts : list Track) (trackId : string) : bool :=
  existsb (fun t => String.eqb (t_id t) trackId) ts.

(** [for (let i = 0; i < 16; i++) send([0xB0 + i, 123, 0])]. *)
Definition allNotesOffOnEveryChannel : list MidiMessage :=
  map (fun i => mkMsg (0xB0 + Z.of_nat i) 123 0) (seq 0 16).

Definition sendAllNotesOff (st : AppState) : AppState * list MidiMessage :=
  if hasOutput st && negb (isPreviewMode st)
  then
    (set_activePlayingNotes st [],
     flat_map (fun kv => if trackExists (tracks st) (fst kv)
                         then map noteOff (snd kv) else [])
              (activePlayingNotes st)
     ++ allNotesOffOnEveryChannel)
  else (st, []).

(** ** Loop boundary and deferred switches *)

(** [tracks.some(t => t.isProgressionChaining)]. *)
Definition anyTrackChaining (ts : list Track) : bool :=
  existsb isProgressionChaining ts.

(** The callback of [tracksRef.current.map] inside the internal scheduler:
    the number of steps a track contributes to the shared loop. *)
Definition trackLoopSteps (st : AppState) (t : Track) : Z :=
  if isProgressionChaining t then 0
  else
    match liveEditOverride st t with
    | Some livePatternData => le_bars livePatternData * 16
    | None =>
        match js_index (patternHistory t) (currentPatternIndex t) with
        | Some currentEntry =>
            match pattern currentEntry with
            | Some _ => barsOrDefault (bars currentEntry) * 16
            | None => 0
            end
        | None => 0
        end
    end.

(** The same callback as written in the external clock branch of
    [handleMidiMessage]: it has no test of [isProgressionChaining]. *)
Definition trackLoopStepsExternal (st : AppState) (t : Track) : Z :=
  match liveEditOverride st t with
  | Some livePatternData => le_bars livePatternData * 16
  | None =>
      match js_index (patternHistory t) (currentPatternIndex t) with
      | Some currentEntry =>
          match pattern currentEntry with
          | Some _ => barsOrDefault (bars currentEntry) * 16
          | None => 0
          end
      | None => 0
      end
  end.

(** [Math.max(16, ...xs)]. *)
Definition Math_max16 (xs : list Z) : Z := fold_left Z.max xs 16.

Definition loopEndStepForNormalMode (st : AppState) : Z :=
  Math_max16 (map (trackLoopSteps st) (tracks st)).

Definition loopEndStep (st : AppState) : Z :=
  Math_max16 (map (trackLoopStepsExternal st) (tracks st)).

(** The test that guards the application of pending switches, without its
    last conjunct on the pending map. *)
Definition atLoopBoundary (loopEnd step : Z) : bool :=
  let currentLocalStepForLogic := if 0 <? loopEnd then js_rem step loopEnd else step in
  (0 <? loopEnd) && (currentLocalStepForLogic =? loopEnd - 1).

(** [pendingPatternHistorySwitchRef.current?.size > 0]. *)
Definition pendingNonEmpty (p : option (gmap string Z)) : bool :=
  match p with
  | Some m => negb (bool_decide (m = ∅))
  | None => false
  end.

(** A pending entry that passes
    [newIndexForTrack >= 0 && newIndexForTrack < t.patternHistory.length]. *)
Definition switchTarget (switchesToProcess : gmap string Z) (t : Track) : option Z :=
  match switchesToProcess !! t_id t with
  | Some newIndexForTrack =>
      if (0 <=? newIndexForTrack)
         && (newIndexForTrack <? Z.of_nat (length (patternHistory t)))
      then Some newIndexForTrack else None
  | None => None
  end.

Definition withCurrentPatternIndex (t : Track) (i : Z) : Track :=
  mkTrack (t_id t) (t_name t) (t_type t) (channel t) (isLoading t) None
          (isMuted t) (isProgressionChaining t) (octaveShift t)
          (patternHistory t) i (ccAutomationData t).

(** The updater passed to [setTracks] when switches are applied. *)
Definition applySwitch (switchesToProcess : gmap string Z) (t : Track) : Track :=
  match switchTarget switchesToProcess t with
  | Some newIndexForTrack => withCurrentPatternIndex t newIndexForTrack
  | None => t
  end.

Definition dropSwitchedNotes (switchesToProcess : gmap string Z) (ts : list Track)
    (active : list (string * list ActiveMidiNote))
  : list (string * list ActiveMidiNote) :=
  fold_left (fun a t => match switchTarget switchesToProcess t with
                        | Some _ => omap_delete (t_id t) a
                        | None => a
                        end) ts active.

(** The block run when the boundary test succeeds.  The pending map is
    replaced by a fresh empty map and [setTracks] is handed an updater that
    switches every track with a valid pending index and, in MIDI mode, adds
    its channel to [channelsToReset] and deletes its entry from the table of
    sounding notes.  React runs that updater when it processes the queued
    update, after the block has returned ([setDisplayStep] has queued an
    update just before, so the updater is not run eagerly either).  The
    block iterates [channelsToReset] right after the call of [setTracks],
    when the set is still as [new Set<number>()] made it: the loop that would
    send controller 123 has nothing to run over.  What the updater does to
    the track list and to the table is part of the state returned here. *)
Definition applyPendingSwitches (st : AppState) : AppState * list MidiMessage :=
  match pendingPatternHistorySwitch st with
  | Some switchesToProcess =>
      let midi := negb (isPreviewMode st) && hasOutput st in
      let st1 := set_pending st (Some ∅) in
      let channelsToReset : list Z := [] in
      let st2 := set_tracks st1 (map (applySwitch switchesToProcess) (tracks st)) in
      if midi
      then (set_activePlayingNotes st2
              (dropSwitchedNotes switchesToProcess (tracks st) (activePlayingNotes st)),
            map (fun ch => mkMsg (0xB0 + (ch - 1)) 123 0) channelsToReset)
      else (st2, [])
  | None => (st, [])
  end.

(** ** The internal clock ([scheduler])

    One run of the body of [scheduler] at a moment when a step is due
    ([now - lastStepTimeRef.current >= stepDurationMs]). *)
Definition schedulerStep (st : AppState) : AppState * list MidiMessage :=
  if negb (isPlaying st) || isExternalClock st || isPreviewMode st then (st, [])
  else
    let nextAbsoluteStepToProcess := absoluteStep st in
    let '(st1, out1) := processMidiStep st nextAbsoluteStepToProcess in
    let st2 := set_absoluteStep st1 (nextAbsoluteStepToProcess + 1) in
    if negb (anyTrackChaining (tracks st2))
       && atLoopBoundary (loopEndStepForNormalMode st2) nextAbsoluteStepToProcess
       && pendingNonEmpty (pendingPatternHistorySwitch st2)
    then let '(st3, out2) := applyPendingSwitches st2 in (st3, out1 ++ out2)
    else (st2, out1).

(** ** The step callback of the audio backend ([visualizerSyncLoopRef])

    The callback that the audio library runs every sixteenth note while the
    audio backend plays.  What it reads from the library's transport is a
    parameter here: [currentAbsoluteSixteenth] is
    [Math.floor(Transport.seconds * (Transport.bpm.value / 60) * 4)], absent
    when that is not a finite number; [transportLoop] is [Transport.loop];
    [transportLoopEndSixteenths] is the loop length in sixteenth notes and
    [progress] is [Transport.progress], the position in the loop as a
    fraction of its length. *)
Definition previewTick (st : AppState) (currentAbsoluteSixteenth : option Z)
    (transportLoop : bool) (transportLoopEndSixteenths progress : Q) : AppState :=
  let st1 := match currentAbsoluteSixteenth with
             | Some s => set_absoluteStep st s
             | None => st
             end in
  if negb (anyTrackChaining (tracks st1)) && transportLoop
  then
    if negb (Qle_bool transportLoopEndSixteenths 0)
       && (Math_floor (Number_multiply progress transportLoopEndSixteenths) =? 0)
       && pendingNonEmpty (pendingPatternHistorySwitch st1)
    then
      match pendingPatternHistorySwitch st1 with
      | Some switchesToProcess =>
          set_tracks (set_pending st1 (Some ∅))
                     (map (applySwitch switchesToProcess) (tracks st1))
      | None => st1
      end
    else st1
  else st1.

(** ** Pattern switch requests ([handleSwitchPatternHistory]) *)

Definition pendingSet (p : option (gmap string Z)) (trackId : string) (i : Z)
  : option (gmap string Z) :=
  Some (<[trackId := i]> (default ∅ p)).

Definition pendingDelete (p : option (gmap string Z)) (trackId : string)
  : option (gmap string Z) :=
  match p with
  | Some m => let m' := delete trackId m in
              if bool_decide (m' = ∅) then None else Some m'
  | None => None
  end.

Definition switchNow (trackId : string) (newIndex : Z) (t : Track) : Track :=
  if String.eqb (t_id t) trackId && (0 <=? newIndex)
     && (newIndex <? Z.of_nat (length (patternHistory t)))
  then withCurrentPatternIndex t newIndex else t.

Definition handleSwitchPatternHistory (st : AppState) (trackId : string) (newIndex : Z)
  : AppState :=
  if isPlaying st && negb (anyTrackChaining (tracks st))
  then set_pending st (pendingSet (pendingPatternHistorySwitch st) trackId newIndex)
  else set_pending (set_tracks st (map (switchNow trackId newIndex) (tracks st)))
                   (pendingDelete (pendingPatternHistorySwitch st) trackId).

(** ** The external clock ([handleMidiMessage])

    [command] is the first byte of the incoming message.  The estimate of the
    tempo from the arrival times of the pulses is not modelled: it writes
    only [bpm] and [midiClockTickTimesRef], which the code below never
    reads. *)

Definition clockPulse (st : AppState) : AppState * list MidiMessage :=
  let st1 := set_isExternalClock st true in
  let st2 := set_clockTickCounter st1 (clockTickCounter st1 + 1) in
  if js_rem (clockTickCounter st2) (PPQN / 4) =? 0
  then
    if isPlaying st2
    then
      let currentAbsoluteStepForLogic := absoluteStep st2 in
      let '(st3, out1) := processMidiStep st2 currentAbsoluteStepForLogic in
      let st4 := set_absoluteStep st3 (currentAbsoluteStepForLogic + 1) in
      if negb (anyTrackChaining (tracks st4))
         && atLoopBoundary (loopEndStep st4) currentAbsoluteStepForLogic
         && pendingNonEmpty (pendingPatternHistorySwitch st4)
      then let '(st5, out2) := applyPendingSwitches st4 in (st5, out1 ++ out2)
      else (st4, out1)
    else (st2, [])
  else (st2, []).

Definition clockStart (st : AppState) : AppState * list MidiMessage :=
  let st1 := set_isExternalClock st true in
  let st2 := set_absoluteStep st1 0 in
  let st3 := set_clockTickCounter st2 0 in
  let '(st4, out1) := sendAllNotesOff st3 in
  let st5 := set_isPlaying st4 true in
  let '(st6, out2) := processMidiStep st5 0 in
  (set_absoluteStep st6 1, out1 ++ out2).

Definition clockContinue (st : AppState) : AppState * list MidiMessage :=
  (set_isPlaying (set_isExternalClock st true) true, []).

Definition clockStop (st : AppState) : AppState * list MidiMessage :=
  let st1 := set_isPlaying (set_isExternalClock st false) false in
  let '(st2, out) := sendAllNotesOff st1 in
  (set_pending (set_clockTickCounter st2 0) None, out).

Definition handleMidiMessage (st : AppState) (command : Z)
  : AppState * list MidiMessage :=
  if isPreviewMode st
  then ((if (command =? 0xFC) && isPlaying st then set_isPlaying st false else st), [])
  else if (command =? 0xF8) && hasInput st then clockPulse st
  else if command =? 0xFA then clockStart st
  else if command =? 0xFB then clockContinue st
  else if command =? 0xFC then clockStop st
  else (st, []).

(** Feeding a sequence of incoming bytes, collecting what is sent. *)
Fixpoint handleMidiMessages (st : AppState) (commands : list Z)
  : AppState * list MidiMessage :=
  match commands with
  | [] => (st, [])
  | c :: rest =>
      let '(st1, out1) := handleMidiMessage st c in
      let '(st2, out2) := handleMidiMessages st1 rest in
      (st2, out1 ++ out2)
  end.

(** ** Validation of generated patterns ([services/geminiService.ts]) *)

(** A JavaScript number as [JSON.parse] can produce it: a literal such as
    [1e999] parses to an infinity. *)
Inductive JsNumber :=
| Finite (q : Q)
| PosInfinity
| NegInfinity
| NaN.

#[local] Set Warnings "-register-all".

(** A parsed JSON value; an object is the list of its own properties. *)
Inductive Json :=
| JNull
| JBool (b : bool)
| JNumber (n : JsNumber)
| JString (s : string)
| JArray (items : list Json)
| JObject (fields : list (string * Json)).

(** What a [try] block can end with. *)
Inductive Outcome (A : Type) :=
| Returned (a : A)
| Thrown (message : string).
Arguments Returned {A} a.
Arguments Thrown {A} message.

(** [p && typeof p === 'object']: objects and arrays pass, [null] and the
    primitives do not. *)
Definition isObjectLike (p : Json) : bool :=
  match p with
  | JArray _ | JObject _ => true
  | _ => false
  end.

(** [p.key]: [None] is [undefined]. *)
Definition getProp (p : Json) (key : string) : option Json :=
  match p with
  | JObject fields => omap_get key fields
  | _ => None
  end.

(** [typeof x === 'number' && isFinite(x)], giving the number. *)
Definition finiteNumber (x : option Json) : option Q :=
  match x with
  | Some (JNumber (Finite q)) => Some q
  | _ => None
  end.

Definition Qleb (a b : Q) : bool := Qle_bool a b.
Definition Qltb (a b : Q) : bool := negb (Qle_bool b a).

(** The predicate handed to [parsed.filter] in [parseGeminiResponse]. *)
Definition isValidNote (p : Json) : bool :=
  isObjectLike p
  && match finiteNumber (getProp p "note") with
     | Some n => Qleb 0 n && Qleb n 127 | None => false end
  && match finiteNumber (getProp p "velocity") with
     | Some v => Qleb 0 v && Qleb v 127 | None => false end
  && match finiteNumber (getProp p "time") with
     | Some t => Qleb 0 t | None => false end
  && match finiteNumber (getProp p "duration") with
     | Some d => Qltb 0 d | None => false end.

Definition fieldOr0 (p : Json) (key : string) : Q :=
  default 0%Q (finiteNumber (getProp p key)).

(** [Math.round(t * 4) / 4]. *)
Definition quantizeTime (t : Q) : Q := (inject_Z (Math_round (t * 4)) / 4)%Q.

(** The function handed to [.map] in [parseGeminiResponse]; it is only
    applied to elements that passed [isValidNote]. *)
Definition toMidiNote (p : Json) : MidiNote :=
  mkMidiNote (Math_round (fieldOr0 p "note"))
             (Math_round (fieldOr0 p "velocity"))
             (quantizeTime (fieldOr0 p "time"))
             (fieldOr0 p "duration").

Definition isValidCcEvent (p : Json) : bool :=
  isObjectLike p
  && match finiteNumber (getProp p "time") with
     | Some t => Qleb 0 t | None => false end
  && match finiteNumber (getProp p "value") with
     | Some v => Qleb 0 v && Qleb v 127 | None => false end.

Definition toCcEvent (p : Json) : CcAutomationEvent :=
  mkCcEvent (quantizeTime (fieldOr0 p "time"))
            (inject_Z (Math_round (fieldOr0 p "value"))).

(** [error.message.includes(needle)]. *)
Fixpoint includes (needle s : string) : bool :=
  String.prefix needle s
  || match s with
     | EmptyString => false
     | String _ rest => includes needle rest
     end.

Section Service.
(** [cleanJsonString] works by regular expressions on the text and
    [JSON.parse] is the platform's parser; the validation is stated for any
    behaviour of the two.  [JSON_parse] returns the parsed value or the
    message of the [SyntaxError] it throws. *)
Variable cleanJsonString : string -> string.
Variable JSON_parse : string -> Outcome Json.

Definition parseGeminiResponse (responseText : string) : Outcome (list MidiNote) :=
  let jsonStr := cleanJsonString responseText in
  let tried :=
    match JSON_parse jsonStr with
    | Returned (JArray parsed) =>
        Returned (map toMidiNote (filter (fun p => isValidNote p = true) parsed))
    | Returned _ => Thrown "Parsed JSON is not an array of MIDI notes."
    | Thrown m => Thrown m
    end in
  match tried with
  | Returned notes => Returned notes
  | Thrown m =>
      Thrown ("Failed to parse AI response. Expected JSON array of MIDI notes. " ++ m)
  end.

Definition parseCcAutomationResponse (responseText : string)
  : Outcome (list CcAutomationEvent) :=
  let jsonStr := cleanJsonString responseText in
  let tried :=
    match JSON_parse jsonStr with
    | Returned (JArray parsed) =>
        Returned (map toCcEvent (filter (fun p => isValidCcEvent p = true) parsed))
    | Returned _ => Thrown "Parsed JSON is not an array of CC automation events."
    | Thrown m => Thrown m
    end in
  match tried with
  | Returned evs => Returned evs
  | Thrown m =>
      Thrown ("Failed to parse AI response for CC automation. Expected JSON array of CC events. " ++ m)
  end.

(** [generateMidiPattern] from the point where the request has been sent:
    [response] is the text of the model's answer, or the message of the
    error with which the request failed. *)
Definition generateMidiPattern (response : Outcome string) : Outcome (list MidiNote) :=
  let tried :=
    match response with
    | Returned text => parseGeminiResponse text
    | Thrown m => Thrown m
    end in
  match tried with
  | Returned notes => Returned notes
  | Thrown m =>
      if includes "API key not valid" m
      then Thrown "Invalid Gemini API Key. Please check your configuration."
      else Thrown ("AI pattern generation failed. " ++ m)
  end.
End Service.

(** ** Storing a generated pattern ([handleGeneratePattern]) *)

Definition withLoading (t : Track) : Track :=
  mkTrack (t_id t) (t_name t) (t_type t) (channel t) true None
          (isMuted t) (isProgressionChaining t) (octaveShift t)
          (patternHistory t) (currentPatternIndex t) (ccAutomationData t).

Definition withError (errorMessage : string) (t : Track) : Track :=
  mkTrack (t_id t) (t_name t) (t_type t) (channel t) false (Some errorMessage)
          (isMuted t) (isProgressionChaining t) (octaveShift t)
          (patternHistory t) (currentPatternIndex t) (ccAutomationData t).

Definition withNewPattern (newHistoryEntry : PatternHistoryEntry)
    (isChainedGeneration currentlyPlaying : bool) (t : Track) : Track :=
  let wasHistoryEmpty := bool_decide (patternHistory t = []) in
  let finalPatternHistory :=
    take MAX_PATTERN_HISTORY (newHistoryEntry :: patternHistory t) in
  let newCurrentPatternIndex :=
    if negb isChainedGeneration && currentlyPlaying && negb wasHistoryEmpty
    then currentPatternIndex t + 1 else 0 in
  mkTrack (t_id t) (t_name t) (t_type t) (channel t) false None
          (isMuted t) (isProgressionChaining t) (octaveShift t)
          finalPatternHistory newCurrentPatternIndex (ccAutomationData t).

Definition onTrack (trackId : string) (f : Track -> Track) (ts : list Track) : list Track :=
  map (fun t => if String.eqb (t_id t) trackId then f t else t) ts.

(** [handleGeneratePattern], with the awaited call replaced by its outcome
    [generated].  The second component is the message of the error that the
    handler rethrows, if any. *)
Definition handleGeneratePattern (st : AppState) (trackId userPrompt : string)
    (barsToGenerate : Z) (isChainedGeneration : bool)
    (generated : Outcome (list MidiNote)) : AppState * option string :=
  let st1 := set_tracks st (onTrack trackId withLoading (tracks st)) in
  let tried :=
    if trackExists (tracks st1) trackId then generated
    else Thrown "Cannot read properties of undefined (reading 'type')" in
  match tried with
  | Returned generatedNotes =>
      let newHistoryEntry := mkEntry (Some generatedNotes) barsToGenerate userPrompt in
      let currentlyPlaying := isPlaying st in
      let st2 := set_tracks st1
        (onTrack trackId (withNewPattern newHistoryEntry isChainedGeneration currentlyPlaying)
                 (tracks st1)) in
      let st3 :=
        if negb isChainedGeneration && currentlyPlaying
           && negb (anyTrackChaining (tracks st))
        then set_pending st2 (pendingSet (pendingPatternHistorySwitch st2) trackId 0)
        else st2 in
      (st3, None)
  | Thrown errorMessage =>
      (set_tracks st1 (onTrack trackId (withError errorMessage) (tracks st1)),
       Some errorMessage)
  end.

(** ** Vocabulary of the statements *)

(** Length in steps of one history entry inside a progression. *)
Definition entrySteps (e : PatternHistoryEntry) : Z := barsOrDefault (bars e) * 16.

(** Steps of a progression that lie before its [i]-th entry. *)
Definition stepsBefore (i : nat) (h : list PatternHistoryEntry) : Z :=
  totalProgressionSteps (take i h).

(** The transform of an automation value as the specification words it:
    [clamp(0,127, round(63.5 + (value-63.5)*depth + offset))]. *)
Definition ccFormula (value depth offset : Q) : Z :=
  clamp 0 127 (Math_round (63.5 + (value - 63.5) * depth + offset)%Q).

(** The sum of the formula before it is rounded and clamped, evaluated
    exactly and evaluated in double precision, every operation rounded. *)
Definition ccSum (value depth offset : Q) : Q :=
  (63.5 + (value - 63.5) * depth + offset)%Q.

Definition ccSumDouble (value depth offset : Q) : Q :=
  Number_add (Number_add 63.5 (Number_multiply (Number_subtract value 63.5) depth))
             offset.

(** The formula in double precision. *)
Definition ccFormulaDouble (value depth offset : Q) : Z :=
  clamp 0 127 (Math_round (ccSumDouble value depth offset)).

(** The distance within which the double-precision sum stays from the exact
    one on the domain of the transform: [2^-43]. *)
Definition ccRoundingError : Q := 1 # 8796093022208.

(** The step of a lane's automation that falls on an absolute step. *)
Definition automationLocalStep (ccData : CcAutomationData) (currentAbsoluteStep : Z) : Z :=
  if 0 <? cc_bars ccData * 16
  then js_rem currentAbsoluteStep (cc_bars ccData * 16) else 0.

(** What the second loop of [processMidiStep] can send for one track: the
    note-on of a note of the resolved pattern that starts on this step, or a
    controller message of one of its lanes. *)
Definition triggeredBy (st : AppState) (step : Z) (track : Track) (m : MidiMessage) : Prop :=
  isMuted track = false
  /\ ((exists p l n, resolvePattern st track step = (Some p, l)
                     /\ In n p /\ Math_floor (time n * 4) = l
                     /\ m = noteOn track n)
      \/ In m (automationMessages track step)).


(** A track with its mute flag set to [b]. *)
Definition withMuted (b : bool) (t : Track) : Track :=
  mkTrack (t_id t) (t_name t) (t_type t) (channel t) (isLoading t) (error t)
          b (isProgressionChaining t) (octaveShift t)
          (patternHistory t) (currentPatternIndex t) (ccAutomationData t).

(** [n] consecutive due steps of the internal scheduler. *)
Definition runScheduler (n : nat) (st : AppState) : AppState :=
  Nat.iter n (fun s => fst (schedulerStep s)) st.

(** Steps of the internal scheduler that are processed before the step at
    which the shared loop wraps around. *)
Definition stepsToBoundary (st : AppState) : nat :=
  let L := loopEndStepForNormalMode st in
  Z.to_nat (L - 1 - absoluteStep st mod L).

(** The condition under which an incoming clock pulse emits a step: the
    pulse count after it is a multiple of six and the transport is playing. *)
Definition pulseEmitsStep (st : AppState) : bool :=
  (js_rem (clockTickCounter st + 1) (PPQN / 4) =? 0) && isPlaying st.

(** The state in which [clockPulse] emits its step. *)
Definition pulseCounted (st : AppState) : AppState :=
  set_clockTickCounter (set_isExternalClock st true) (clockTickCounter st + 1).

(** What [sendAllNotesOff] sends in MIDI mode: a note-off for every sounding
    note of a track that still exists, then controller 123 on the sixteen
    channels. *)
Definition flushMessages (st : AppState) : list MidiMessage :=
  flat_map (fun kv => if trackExists (tracks st) (fst kv)
                      then map noteOff (snd kv) else [])
           (activePlayingNotes st)
  ++ allNotesOffOnEveryChannel.

(** The state from which a start message emits step 0: external clock,
    playing, counters at zero, nothing sounding. *)
Definition restarted (st : AppState) : AppState :=
  mkState (tracks st) true (isPreviewMode st) true (hasInput st) (hasOutput st)
          (fullscreenTrackId st) (liveEditingPattern st) 0 0 []
          (pendingPatternHistorySwitch st).

(** An element of a response that passes validation, in the words of the
    specification: an object whose four fields are finite numbers, with pitch
    and velocity in [0,127], a time that is not negative and a duration that
    is positive. *)
Definition validNoteSpec (p : Json) : Prop :=
  exists fields n v t d,
    p = JObject fields
    /\ omap_get "note" fields = Some (JNumber (Finite n))
    /\ omap_get "velocity" fields = Some (JNumber (Finite v))
    /\ omap_get "time" fields = Some (JNumber (Finite t))
    /\ omap_get "duration" fields = Some (JNumber (Finite d))
    /\ (0 <= n /\ n <= 127)%Q /\ (0 <= v /\ v <= 127)%Q
    /\ (0 <= t)%Q /\ (0 < d)%Q.

(** ** A sample session

    Two tracks as [App] creates them, filled with short patterns, and a few
    variations of the session; the statements below are run on them. *)

Definition patternA : list MidiNote :=
  [mkMidiNote 36 100 0 (1 # 4); mkMidiNote 36 100 1 (1 # 4)].

Definition patternB : list MidiNote :=
  [mkMidiNote 38 110 0 (1 # 2)].

Definition leadPattern : list MidiNote :=
  [mkMidiNote 120 90 0 1; mkMidiNote 60 80 (1 # 2) (1 # 4)].

Definition sweepLane : CcAutomationData :=
  mkCcData 74 [mkCcEvent 0 127; mkCcEvent (1 # 4) 0] "sweep" 1 (Some (1 # 2)) None.

Definition drumTrack : Track :=
  mkTrack "drum-track-0" "Drums" DRUM 10 false None false false None
          [mkEntry (Some patternA) 1 "A"; mkEntry (Some patternB) 1 "B"] 0 None.

Definition synthTrack : Track :=
  mkTrack "synth-track-1" "Synth 1" SYNTH 1 false None false false (Some 1)
          [mkEntry (Some leadPattern) 2 "lead"] 0
          (Some [Some sweepLane; None; None]).

Definition chainTrack : Track :=
  mkTrack "drum-track-0" "Drums" DRUM 10 false None false true None
          [mkEntry (Some patternA) 1 "A"; mkEntry (Some patternB) 2 "B";
           mkEntry None 1 "C"] 0 None.

Definition emptyTrack : Track :=
  mkTrack "synth-track-2" "Synth 2" SYNTH 2 false None false false (Some 0)
          [] 0 None.

(** Playing on the internal clock to a MIDI output. *)
Definition session : AppState :=
  mkState [drumTrack; synthTrack] true false false true true None ∅ 0 0 [] None.

(** The same with the synth track open in the editor. *)
Definition editingSession : AppState :=
  mkState [drumTrack; synthTrack] true false false true true
          (Some "synth-track-1")
          {[ "synth-track-1" := Some (mkLive patternB 1) ]} 0 0 [] None.

Definition chainSession : AppState :=
  mkState [chainTrack; synthTrack] true false false true true None ∅ 0 0 [] None.

(** The session at step 4, with the two notes triggered at step 0 still
    sounding and both due to end now. *)
Definition soundingSession : AppState :=
  mkState [drumTrack; synthTrack] true false false true true None ∅ 4 0
          [("drum-track-0", [mkActive 36 4 10]); ("synth-track-1", [mkActive 127 4 1])]
          None.





(** One drum track playing pattern A, at step 8 of its one-bar loop. *)
Definition scenarioSession : AppState :=
  mkState [drumTrack] true false false true true None ∅ 8 0 [] None.

(** Slaved to an external clock but not playing, five pulses after the last
    step position. *)
Definition idleExternalSession : AppState :=
  mkState [drumTrack; synthTrack] false false true true true None ∅ 3 5 [] None.

(** Slaved to an external clock and playing, with two notes sounding. *)
Definition externalSession : AppState :=
  mkState [drumTrack; synthTrack] true false true true true None ∅ 4 5
          [("drum-track-0", [mkActive 36 9 10]); ("synth-track-1", [mkActive 127 9 1])]
          None.

(** A parsed response with three valid notes and one whose pitch is 200. *)
Definition jsonNote (n v t d : Q) : Json :=
  JObject [("note", JNumber (Finite n)); ("velocity", JNumber (Finite v));
           ("time", JNumber (Finite t)); ("duration", JNumber (Finite d))].

Definition sampleParsed : list Json :=
  [jsonNote 60 100 0 (1 # 2);
   jsonNote 200 50 (1 # 2) (1 # 4);
   jsonNote 62.4 90.5 0.3 0.2;
   jsonNote 64 80 1 1].

(** A stand-in for the platform's parser that knows two texts. *)
Definition sampleParse (text : string) : Outcome Json :=
  if String.eqb text "notes" then Returned (JArray sampleParsed)
  else if String.eqb text "object" then Returned (JObject [])
  else Thrown "Unexpected token".

Definition sampleClean (text : string) : string := text.

(** The sample session with the drum track waiting for its pattern. *)
Definition loadingSession : AppState :=
  mkState [withLoading drumTrack; synthTrack] true false false true true
          None ∅ 0 0 [] None.

(** * Further handlers of [App]

    The handlers below are the ones that write the state the sequencer
    reads: the mute flag, the pattern history and its pointer, the live-edit
    table, the editor focus and the automation parameters. *)

Definition set_liveEditingPattern (st : AppState) (m : gmap string (option LiveEdit))
  : AppState :=
  mkState (tracks st) (isPlaying st) (isPreviewMode st) (isExternalClock st)
          (hasInput st) (hasOutput st) (fullscreenTrackId st) m
          (absoluteStep st) (clockTickCounter st) (activePlayingNotes st)
          (pendingPatternHistorySwitch st).

Definition set_fullscreenTrackId (st : AppState) (f : option string) : AppState :=
  mkState (tracks st) (isPlaying st) (isPreviewMode st) (isExternalClock st)
          (hasInput st) (hasOutput st) f (liveEditingPattern st)
          (absoluteStep st) (clockTickCounter st) (activePlayingNotes st)
          (pendingPatternHistorySwitch st).

(** [tracksRef.current.find(t => t.id === trackId)]. *)
Definition findTrack (ts : list Track) (trackId : string) : option Track :=
  List.find (fun t => String.eqb (t_id t) trackId) ts.

(** [{ ...t, error: message }]. *)
Definition withErrorOnly (message : string) (t : Track) : Track :=
  mkTrack (t_id t) (t_name t) (t_type t) (channel t) (isLoading t) (Some message)
          (isMuted t) (isProgressionChaining t) (octaveShift t)
          (patternHistory t) (currentPatternIndex t) (ccAutomationData t).

(** ** Muting ([handleToggleTrackMute]) *)

(** What the updater does in MIDI mode for a track that becomes muted: with
    the track found and an output selected, a note-off for each of its
    sounding notes, its set cleared, then controller 123 on its channel. *)
Definition flushTrackOnMute (st : AppState) (trackId : string)
    (active : list (string * list ActiveMidiNote))
  : list MidiMessage * list (string * list ActiveMidiNote) :=
  match findTrack (tracks st) trackId with
  | Some trackToMute =>
      if hasOutput st
      then
        let '(offs, active1) :=
          match omap_get trackId active with
          | Some activeNotesOnTrack =>
              (map noteOff activeNotesOnTrack, omap_set trackId [] active)
          | None => ([], active)
          end in
        (offs ++ [mkMsg (0xB0 + (channel trackToMute - 1)) 123 0], active1)
      else ([], active)
  | None => ([], active)
  end.

(** The updater [prevTracks.map(t => ...)], with the sends it makes on the
    way. *)
Fixpoint toggleMuteTracks (st : AppState) (trackId : string) (ts : list Track)
    (active : list (string * list ActiveMidiNote))
  : list Track * (list MidiMessage * list (string * list ActiveMidiNote)) :=
  match ts with
  | [] => ([], ([], active))
  | t :: rest =>
      if String.eqb (t_id t) trackId
      then
        let newMutedState := negb (isMuted t) in
        let '(out1, active1) :=
          if isPreviewMode st then ([], active)
          else if newMutedState then flushTrackOnMute st trackId active
          else ([], active) in
        let '(rest', (out2, active2)) := toggleMuteTracks st trackId rest active1 in
        (withMuted newMutedState t :: rest', (out1 ++ out2, active2))
      else
        let '(rest', (out2, active2)) := toggleMuteTracks st trackId rest active in
        (t :: rest', (out2, active2))
  end.

Definition handleToggleTrackMute (st : AppState) (trackId : string)
  : AppState * list MidiMessage :=
  let '(ts, (out, active)) :=
    toggleMuteTracks st trackId (tracks st) (activePlayingNotes st) in
  (set_activePlayingNotes (set_tracks st ts) active, out).

(** ** Saving and modifying patterns *)

(** [{ ...t, patternHistory: [newHistoryEntry, ...t.patternHistory].slice(0,
    MAX_PATTERN_HISTORY), currentPatternIndex: ..., isLoading: false,
    error: null }], where the pointer moves one place down when [advance]
    holds and goes to the new entry otherwise. *)
Definition withSavedPattern (newHistoryEntry : PatternHistoryEntry) (advance : bool)
    (t : Track) : Track :=
  let finalPatternHistory :=
    take MAX_PATTERN_HISTORY (newHistoryEntry :: patternHistory t) in
  let newCurrentPatternIndex := if advance then currentPatternIndex t + 1 else 0 in
  mkTrack (t_id t) (t_name t) (t_type t) (channel t) false None
          (isMuted t) (isProgressionChaining t) (octaveShift t)
          finalPatternHistory newCurrentPatternIndex (ccAutomationData t).

Definition handleSaveEditedPattern (st : AppState) (trackId : string)
    (newPattern : list MidiNote) (bars : Z) (promptToSave : string) : AppState :=
  let currentlyPlaying := isPlaying st in
  let isAnyChaining := anyTrackChaining (tracks st) in
  let st1 := set_tracks st
    (onTrack trackId
       (withSavedPattern (mkEntry (Some newPattern) bars promptToSave)
                         (currentlyPlaying && negb isAnyChaining))
       (tracks st)) in
  let st2 :=
    if currentlyPlaying && negb isAnyChaining
    then set_pending st1 (pendingSet (pendingPatternHistorySwitch st1) trackId 0)
    else st1 in
  set_liveEditingPattern st2 (delete trackId (liveEditingPattern st2)).

(** [handleModifyPattern], with the awaited call to [modifyMidiPattern]
    replaced by its outcome [modified].  Nothing is rethrown. *)
Definition handleModifyPattern (st : AppState) (trackId userPromptFromCard : string)
    (modified : Outcome (list MidiNote)) : AppState :=
  match findTrack (tracks st) trackId with
  | None => st
  | Some currentTrack =>
      let currentHistoryEntry :=
        js_index (patternHistory currentTrack) (currentPatternIndex currentTrack) in
      match currentHistoryEntry ≫= (fun e => pattern e ≫= (fun _ => Some e)) with
      | None =>
          set_tracks st (onTrack trackId (withErrorOnly "No pattern to modify.") (tracks st))
      | Some currentHistoryEntry =>
          let currentPatternBars := barsOrDefault (bars currentHistoryEntry) in
          let st1 := set_tracks st (onTrack trackId withLoading (tracks st)) in
          match modified with
          | Returned modifiedNotes =>
              let newHistoryEntry :=
                mkEntry (Some modifiedNotes) currentPatternBars userPromptFromCard in
              let currentlyPlaying := isPlaying st in
              let advance := currentlyPlaying && negb (anyTrackChaining (tracks st)) in
              let st2 := set_tracks st1
                (onTrack trackId (withSavedPattern newHistoryEntry advance) (tracks st1)) in
              if advance
              then set_pending st2 (pendingSet (pendingPatternHistorySwitch st2) trackId 0)
              else st2
          | Thrown errorMessage =>
              set_tracks st1 (onTrack trackId (withError errorMessage) (tracks st1))
          end
      end
  end.

(** [modifyMidiPattern] from the point where the request has been sent; it
    differs from [generateMidiPattern] in the text of its error. *)
Definition modifyMidiPattern (cleanJsonString : string -> string)
    (JSON_parse : string -> Outcome Json) (response : Outcome string)
  : Outcome (list MidiNote) :=
  let tried :=
    match response with
    | Returned text => parseGeminiResponse cleanJsonString JSON_parse text
    | Thrown m => Thrown m
    end in
  match tried with
  | Returned notes => Returned notes
  | Thrown m =>
      if includes "API key not valid" m
      then Thrown "Invalid Gemini API Key. Please check your configuration."
      else Thrown ("AI pattern modification failed. " ++ m)
  end.

(** [generateCcAutomation] from the point where the request has been sent. *)
Definition generateCcAutomation (cleanJsonString : string -> string)
    (JSON_parse : string -> Outcome Json) (response : Outcome string)
  : Outcome (list CcAutomationEvent) :=
  let tried :=
    match response with
    | Returned text => parseCcAutomationResponse cleanJsonString JSON_parse text
    | Thrown m => Thrown m
    end in
  match tried with
  | Returned evs => Returned evs
  | Thrown m =>
      if includes "API key not valid" m
      then Thrown "Invalid Gemini API Key. Please check your configuration."
      else Thrown ("AI CC automation generation failed. " ++ m)
  end.

(** ** Reordering the history ([handleReorderPatternHistory]) *)

(** The index at which [Array.prototype.splice] starts for an array of
    length [len]: a negative [start] counts from the end, and the result is
    kept between 0 and [len]. *)
Definition spliceStart (len : nat) (start : Z) : nat :=
  Z.to_nat (if start <? 0 then Z.max (Z.of_nat len + start) 0
            else Z.min start (Z.of_nat len)).

(** [const [removed] = arr.splice(start, 1)]: the removed element, if there
    is one at the start index, and the array that remains. *)
Definition spliceRemove {A} (arr : list A) (start : Z) : option A * list A :=
  let i := spliceStart (length arr) start in
  (arr !! i, take i arr ++ drop (S i) arr).

(** [arr.splice(start, 0, x)]. *)
Definition spliceInsert {A} (arr : list A) (start : Z) (x : A) : list A :=
  let i := spliceStart (length arr) start in
  take i arr ++ x :: drop i arr.

(** The new history of the track.  [None] stands for the case in which
    [sourceIndex] names no entry: the code then inserts [undefined] into the
    history, which is not a value of [PatternHistoryEntry]. *)
Definition reorderHistory (h : list PatternHistoryEntry)
    (sourceIndex destinationIndex : Z) : option (list PatternHistoryEntry) :=
  match spliceRemove h sourceIndex with
  | (Some removed, newHistory) => Some (spliceInsert newHistory destinationIndex removed)
  | (None, _) => None
  end.

Definition withPatternHistory (h : list PatternHistoryEntry) (t : Track) : Track :=
  mkTrack (t_id t) (t_name t) (t_type t) (channel t) (isLoading t) (error t)
          (isMuted t) (isProgressionChaining t) (octaveShift t)
          h (currentPatternIndex t) (ccAutomationData t).

(** [newTracks[prevTracks.findIndex(t => t.id === trackId)] = ...]: only the
    first track with the id is replaced. *)
Fixpoint reorderFirst (trackId : string) (sourceIndex destinationIndex : Z)
    (ts : list Track) : option (list Track) :=
  match ts with
  | [] => Some []
  | t :: rest =>
      if String.eqb (t_id t) trackId
      then h ← reorderHistory (patternHistory t) sourceIndex destinationIndex;
           Some (withPatternHistory h t :: rest)
      else rest' ← reorderFirst trackId sourceIndex destinationIndex rest;
           Some (t :: rest')
  end.

Definition handleReorderPatternHistory (st : AppState) (trackId : string)
    (sourceIndex destinationIndex : Z) : option AppState :=
  ts ← reorderFirst trackId sourceIndex destinationIndex (tracks st);
  Some (set_tracks st ts).

(** ** The editor focus ([handleSetFullscreenTrack]) *)

(** [x || DEFAULT_BARS] for a number [x]. *)
Definition barsOrDefaultIfZero (b : Z) : Z := if b =? 0 then DEFAULT_BARS else b.

(** The entry written into the live-edit table when the editor opens on a
    track: a copy of its current pattern, an empty pattern if it has none. *)
Definition liveEditFor (trackToEdit : Track) : LiveEdit :=
  match js_index (patternHistory trackToEdit) (currentPatternIndex trackToEdit) with
  | Some currentEntry =>
      mkLive (default [] (pattern currentEntry)) (barsOrDefaultIfZero (bars currentEntry))
  | None => mkLive [] DEFAULT_BARS
  end.

Definition handleSetFullscreenTrack (st : AppState) (newFullscreenTrackId : option string)
  : AppState * list MidiMessage :=
  let trackIdThatWasPreviouslyFullscreen := fullscreenTrackId st in
  let st1 := set_fullscreenTrackId st newFullscreenTrackId in
  match newFullscreenTrackId, trackIdThatWasPreviouslyFullscreen with
  | None, Some previous =>
      let '(out, active) :=
        match findTrack (tracks st) previous with
        | Some trackToReset =>
            if negb (isPreviewMode st) && hasOutput st
            then
              let '(offs, active1) :=
                match omap_get previous (activePlayingNotes st) with
                | Some activeNotesOnTrack =>
                    (map noteOff activeNotesOnTrack,
                     omap_set previous [] (activePlayingNotes st))
                | None => ([], activePlayingNotes st)
                end in
              (offs ++ [mkMsg (0xB0 + (channel trackToReset - 1)) 123 0], active1)
            else ([], activePlayingNotes st)
        | None => ([], activePlayingNotes st)
        end in
      (set_liveEditingPattern (set_activePlayingNotes st1 active)
                              (delete previous (liveEditingPattern st)),
       out)
  | None, None => (st1, [])
  | Some newId, _ =>
      match findTrack (tracks st) newId with
      | Some trackToEdit =>
          (set_liveEditingPattern st1
             (<[newId := Some (liveEditFor trackToEdit)]> (liveEditingPattern st)),
           [])
      | None => (st1, [])
      end
  end.

(** ** Transport button ([handlePlayToggle])

    [resumesPausedPreview] stands for the test
    [visualizerSyncLoopRef.current && Transport.state === 'paused'] on the
    audio backend. *)
Definition handlePlayToggle (st : AppState) (resumesPausedPreview : bool) : AppState :=
  if isPlaying st
  then set_pending (set_isPlaying st false) None
  else set_isPlaying (if resumesPausedPreview then st else set_absoluteStep st 0) true.

(** ** Track parameters *)

Definition MIN_OCTAVE_SHIFT : Z := -2.
Definition MAX_OCTAVE_SHIFT : Z := 2.

Definition withOctaveShift (s : Z) (t : Track) : Track :=
  mkTrack (t_id t) (t_name t) (t_type t) (channel t) (isLoading t) (error t)
          (isMuted t) (isProgressionChaining t) (Some s)
          (patternHistory t) (currentPatternIndex t) (ccAutomationData t).

Definition handleUpdateTrackOctaveShift (st : AppState) (trackId : string) (newShift : Z)
  : AppState :=
  set_tracks st
    (map (fun t =>
            match t_type t with
            | SYNTH =>
                if String.eqb (t_id t) trackId
                then withOctaveShift
                       (Z.max MIN_OCTAVE_SHIFT (Z.min MAX_OCTAVE_SHIFT newShift)) t
                else t
            | DRUM => t
            end)
         (tracks st)).

Definition withProgressionChaining (b : bool) (t : Track) : Track :=
  mkTrack (t_id t) (t_name t) (t_type t) (channel t) (isLoading t) (error t)
          (isMuted t) b (octaveShift t)
          (patternHistory t) (currentPatternIndex t) (ccAutomationData t).

Definition handleToggleTrackProgression (st : AppState) (trackId : string) : AppState :=
  set_tracks st
    (onTrack trackId (fun t => withProgressionChaining (negb (isProgressionChaining t)) t)
             (tracks st)).

(** [Math.max] and [Math.min] on fractions. *)
Definition Math_maxQ (a b : Q) : Q := if Qle_bool a b then b else a.
Definition Math_minQ (a b : Q) : Q := if Qle_bool a b then a else b.

Definition withCcAutomationData (lanes : list (option CcAutomationData)) (t : Track)
  : Track :=
  mkTrack (t_id t) (t_name t) (t_type t) (channel t) (isLoading t) (error t)
          (isMuted t) (isProgressionChaining t) (octaveShift t)
          (patternHistory t) (currentPatternIndex t) (Some lanes).

(** [updatedLaneData] of [handleUpdateCcAutomationParams]: a given depth is
    clamped to [0,1], a given offset is rounded and clamped to [-127,127]. *)
Definition updatedLane (depthParam offsetParam : option Q) (lane : CcAutomationData)
  : CcAutomationData :=
  mkCcData (cc lane) (events lane) (cc_prompt lane) (cc_bars lane)
           (match depthParam with
            | Some d => Some (Math_maxQ 0 (Math_minQ 1 d))
            | None => depth lane
            end)
           (match offsetParam with
            | Some o => Some (inject_Z (Z.max (-127) (Z.min 127 (Math_round o))))
            | None => offset lane
            end).

Definition handleUpdateCcAutomationParams (st : AppState) (trackId : string)
    (laneIndex : Z) (depthParam offsetParam : option Q) : AppState :=
  set_tracks st
    (map (fun t =>
            if String.eqb (t_id t) trackId
            then match ccAutomationData t with
                 | Some lanes =>
                     match js_index lanes laneIndex with
                     | Some (Some lane) =>
                         withCcAutomationData
                           (<[Z.to_nat laneIndex := Some (updatedLane depthParam offsetParam lane)]> lanes)
                           t
                     | _ => t
                     end
                 | None => t
                 end
            else t)
         (tracks st)).

(** ** Export of a pattern ([handleDownloadPattern]) *)

Definition MIDI_TICKS_PER_BEAT : Z := 128.

(** The arguments of one [MidiWriter.NoteEvent]. *)
Record ExportedNote := mkExported {
  x_pitch : Z;
  x_durationTicks : Z;
  x_startTick : Z;
  x_velocity : Z;
  x_channel : Z
}.

(** [patternToDownload]: the pattern, transposed and clamped when the track
    is a synth with a shift other than 0. *)
Definition patternToDownload (track : Track) (p : list MidiNote) : list MidiNote :=
  match t_type track, octaveShift track with
  | SYNTH, Some s =>
      if s =? 0 then p
      else map (fun n => mkMidiNote (Z.max 0 (Z.min 127 (note n + s * 12)))
                                    (velocity n) (time n) (duration n)) p
  | _, _ => p
  end.

Definition exportedNote (track : Track) (n : MidiNote) : ExportedNote :=
  let startTick := Math_round (time n * inject_Z MIDI_TICKS_PER_BEAT) in
  let durationInTicks := Math_round (duration n * inject_Z MIDI_TICKS_PER_BEAT) in
  let scaledVelocity :=
    Z.max 1 (Math_round ((inject_Z (velocity n) / 127) * 100)) in
  mkExported (note n) durationInTicks startTick scaledVelocity (channel track).

(** The note events handed to the MIDI file writer, or the track list with
    the error attached when there is nothing to export. *)
Definition handleDownloadPattern (st : AppState) (trackId : string)
  : AppState * option (list ExportedNote) :=
  let missing :=
    (set_tracks st (onTrack trackId (withErrorOnly "No pattern to download.") (tracks st)),
     None) in
  match findTrack (tracks st) trackId with
  | Some track =>
      match js_index (patternHistory track) (currentPatternIndex track) with
      | Some currentEntry =>
          match pattern currentEntry with
          | Some p => (st, Some (map (exportedNote track) (patternToDownload track p)))
          | None => missing
          end
      | None => missing
      end
  | None => missing
  end.

(** ** Adding a synth track ([addSynthTrack])

    [now] is the value of [Date.now()]. *)

(** The values the loop variables [i] and [j] run through. *)
Definition CHANNELS : list Z := [1; 2; 3; 4; 5; 6; 7; 8; 9; 10; 11; 12; 13; 14; 15; 16].

(** [for (let j = 1; j <= 16; j++) if (ok(j)) { nextChannel = j; break; }]. *)
Definition firstChannel (ok : Z -> bool) (nextChannel : Z) : Z :=
  default nextChannel (List.find ok CHANNELS).

(** The fallback of the last [if] of the loop body. *)
Definition fallbackChannel (trackCount : Z) : Z :=
  js_rem trackCount 15 + (if 9 <=? js_rem trackCount 15 then 2 else 1).

(** One pass through the body of the outer loop after its first [if] has
    failed. *)
Definition channelLoopBody (usedChannels : gset Z) (trackCount i nextChannel : Z) : Z :=
  let has c := bool_decide (c ∈ usedChannels) in
  let nextChannel :=
    if i =? 16
    then firstChannel (fun j => negb (j =? 10) && negb (has j)) nextChannel
    else nextChannel in
  let nextChannel :=
    if has nextChannel || ((nextChannel =? 10) && (15 <=? Z.of_nat (size usedChannels)))
    then firstChannel (fun j => negb (has j)) nextChannel
    else nextChannel in
  if has nextChannel then fallbackChannel trackCount else nextChannel.

(** The outer loop, [values] being the values of [i] still to come. *)
Fixpoint channelLoop (usedChannels : gset Z) (trackCount : Z) (values : list Z)
    (nextChannel : Z) : Z :=
  match values with
  | [] => nextChannel
  | i :: rest =>
      if negb (i =? 10) && negb (bool_decide (i ∈ usedChannels))
      then i
      else channelLoop usedChannels trackCount rest
             (channelLoopBody usedChannels trackCount i nextChannel)
  end.

Definition nextSynthChannel (ts : list Track) : Z :=
  channelLoop (list_to_set (map channel ts)) (Z.of_nat (length ts)) CHANNELS 1.

Definition isSynth (t : Track) : bool :=
  match t_type t with SYNTH => true | DRUM => false end.

Definition newSynthTrack (ts : list Track) (now : Z) : Track :=
  let newTrackNumber := Z.of_nat (length (filter isSynth ts)) + 1 in
  mkTrack ("synth-track-" +:+ pretty now) ("Synth " +:+ pretty newTrackNumber) SYNTH
          (nextSynthChannel ts) false None false false (Some 0) [] 0
          (Some [None; None; None]).

Definition addSynthTrack (st : AppState) (now : Z) : AppState :=
  set_tracks st (tracks st ++ [newSynthTrack (tracks st) now]).

(** Some track of the list sends on channel [c]. *)
Definition channelInUse (ts : list Track) (c : Z) : Prop :=
  exists t, In t ts /\ channel t = c.

(** ** Vocabulary of the further statements *)

(** [processMidiStep] run on [n] consecutive steps starting at [from]. *)
Fixpoint emitSteps (st : AppState) (from : Z) (n : nat) : AppState :=
  match n with
  | O => st
  | S k => emitSteps (fst (processMidiStep st from)) (from + 1) k
  end.

(** A note is sounding on a track. *)
Definition sounding (st : AppState) (trackId : string) (a : ActiveMidiNote) : Prop :=
  exists notes, In (trackId, notes) (activePlayingNotes st) /\ In a notes.

(** ** Further sample sessions *)

(** The sounding session without an output device. *)
Definition deviceLostSession : AppState :=
  mkState [drumTrack; synthTrack] true false false true false None ∅ 4 0
          [("drum-track-0", [mkActive 36 4 10]); ("synth-track-1", [mkActive 127 4 1])]
          None.

(** A sounding note left behind by a track that no longer exists. *)
Definition orphanSession : AppState :=
  mkState [drumTrack] false false false true true None ∅ 4 0
          [("drum-track-0", [mkActive 36 6 10]); ("synth-track-9", [mkActive 60 6 3])]
          None.

(** A pattern whose only note is shorter than a step. *)
Definition shortNote : MidiNote := mkMidiNote 40 100 0 (1 # 8).

Definition shortNoteTrack : Track :=
  mkTrack "drum-track-0" "Drums" DRUM 10 false None false false None
          [mkEntry (Some [shortNote]) 1 "tick"] 0 None.

Definition shortNoteSession : AppState :=
  mkState [shortNoteTrack] true false false true true None ∅ 0 0 [] None.

(** [t] is the one track with identifier [t_id t] in a track list. *)
Definition onlyTrackWithId (ts before after : list Track) (t : Track) : Prop :=
  ts = before ++ t :: after
  /\ (forall u, In u before -> String.eqb (t_id u) (t_id t) = false)
  /\ (forall u, In u after -> String.eqb (t_id u) (t_id t) = false).

(** The session with a switch of the drum track queued, one with an index
    outside its history, and one of the synth track. *)
Definition queuedSession : AppState :=
  mkState [drumTrack; synthTrack] true false false true true None ∅ 31 0
          [("drum-track-0", [mkActive 36 40 10]); ("synth-track-1", [mkActive 127 40 1])]
          (Some {[ "drum-track-0" := 1 ]}).

Definition badIndexSession : AppState :=
  mkState [drumTrack; synthTrack] true false false true true None ∅ 31 0
          [("drum-track-0", [mkActive 36 40 10])]
          (Some {[ "drum-track-0" := 7 ]}).

(** The sample session with the drum track chaining and a switch queued. *)
Definition chainQueuedSession : AppState :=
  mkState [chainTrack; synthTrack] true false false true true None ∅ 0 0 []
          (Some {[ "synth-track-1" := 0 ]}).

(** Every track holds at most [MAX_PATTERN_HISTORY] patterns. *)
Definition historiesBounded (ts : list Track) : Prop :=
  Forall (fun t => (length (patternHistory t) <= MAX_PATTERN_HISTORY)%nat) ts.

(** The entry a track currently points at. *)
Definition currentEntryOf (t : Track) : option PatternHistoryEntry :=
  js_index (patternHistory t) (currentPatternIndex t).

(** A drum track with a full history, playing its oldest entry. *)
Definition fullHistoryTrack : Track :=
  mkTrack "drum-track-0" "Drums" DRUM 10 false None false false None
          (replicate 9 (mkEntry (Some patternB) 1 "B") ++ [mkEntry (Some patternA) 1 "A"])
          9 None.

Definition fullHistorySession : AppState :=
  mkState [fullHistoryTrack] true false false true true (Some "drum-track-0")
          {[ "drum-track-0" := Some (mkLive patternA 1) ]} 0 0 [] None.


(** A note as the sequencer expects it: pitch and velocity are MIDI data
    bytes, the start lies on the grid of sixteenth notes at a step [k >= 0],
    and the duration is positive. *)
Definition wellFormedNote (n : MidiNote) : Prop :=
  0 <= note n <= 127 /\ 0 <= velocity n <= 127
  /\ (exists k, 0 <= k /\ (time n * 4 == inject_Z k)%Q /\ Math_floor (time n * 4) = k)
  /\ (0 < duration n)%Q.

(** An automation event as the sequencer expects it. *)
Definition wellFormedCcEvent (e : CcAutomationEvent) : Prop :=
  (exists v, 0 <= v <= 127 /\ cc_value e = inject_Z v)
  /\ (exists k, 0 <= k /\ (cc_time e * 4 == inject_Z k)%Q
                /\ Math_floor (cc_time e * 4) = k).

(** A parsed automation response: two valid events, one without a value and
    one whose value is out of range. *)
Definition sampleCcParsed : list Json :=
  [JObject [("time", JNumber (Finite 0)); ("value", JNumber (Finite 126.6))];
   JObject [("time", JNumber (Finite 1))];
   JObject [("time", JNumber (Finite 0.3)); ("value", JNumber (Finite 128))];
   JObject [("time", JNumber (Finite 0.9)); ("value", JNumber (Finite 0))]].

Definition sampleCcParse (text : string) : Outcome Json :=
  if String.eqb text "lane" then Returned (JArray sampleCcParsed)
  else Thrown "Unexpected end of JSON input".

(** Stopped in MIDI mode with an input selected, at step 9. *)
Definition stoppedSession : AppState :=
  mkState [drumTrack; synthTrack] false false false true true None ∅ 9 3 [] None.

(** The sample session on the audio backend. *)
Definition previewSession : AppState :=
  mkState [drumTrack; synthTrack] true true false true true None ∅ 5 0 [] None.

(** The synth track open in the editor while notes sound on both tracks. *)
Definition editingSoundingSession : AppState :=
  mkState [drumTrack; synthTrack] true false false true true
          (Some "synth-track-1")
          {[ "synth-track-1" := Some (mkLive patternB 1) ]} 4 0
          [("drum-track-0", [mkActive 36 6 10]); ("synth-track-1", [mkActive 127 8 1])]
          None.

(** ** Ranges of the lane parameters *)

(** The depth of a lane, when set, lies in [0,1]; its offset, when set, is a
    whole number in [-127,127]. *)
Definition laneInRange (lane : CcAutomationData) : Prop :=
  (forall d, depth lane = Some d -> (0 <= d <= 1)%Q)
  /\ (forall o, offset lane = Some o -> exists z, -127 <= z <= 127 /\ o = inject_Z z).

Definition lanesInRange (ts : list Track) : Prop :=
  forall t lanes lane,
    In t ts -> ccAutomationData t = Some lanes -> In (Some lane) lanes ->
    laneInRange lane.

(** The sample session driven by the external clock, one pulse before the
    last step of its loop is emitted, with a switch of the drum track queued. *)
Definition externalQueuedSession : AppState :=
  mkState [drumTrack; synthTrack] true false true true true None ∅ 31 5 []
          (Some {[ "drum-track-0" := 1 ]}).

(** ** Sessions for the revised statements *)

(** A depth that is a double but no multiple of 0.01: the double nearest to
    [27 / 63.5], written [0.4251968503937008] in the program's notation. *)
Definition offGridDepth : Q := 3829832753984359 # 9007199254740992.

Definition offGridLane : CcAutomationData :=
  mkCcData 74 [mkCcEvent 0 0] "dip" 1 (Some offGridDepth) (Some 0%Q).

Definition offGridTrack : Track :=
  mkTrack "synth-track-1" "Synth 1" SYNTH 1 false None false false (Some 0)
          [mkEntry (Some leadPattern) 2 "lead"] 0
          (Some [Some offGridLane; None; None]).

Definition offGridSession : AppState :=
  mkState [drumTrack; offGridTrack] true false false true true None ∅ 0 0 [] None.

(** The sample session on the audio backend with a switch of the drum track
    queued. *)
Definition previewQueuedSession : AppState :=
  mkState [drumTrack; synthTrack] true true false true true None ∅ 62 0 []
          (Some {[ "drum-track-0" := 1 ]}).

(** A stand-in for the parser whose only answer is one valid note that
    starts 64 beats into the pattern. *)
Definition lateParse (text : string) : Outcome Json :=
  Returned (JArray [jsonNote 60 100 64 1]).

(** * Properties *)

(** ** Arithmetic of the primitives *)

Lemma js_rem_nonneg a b : 0 <= a -> 0 < b -> js_rem a b = a mod b.
Proof. intros Ha Hb. unfold js_rem. apply Z.rem_mod_nonneg; lia. Qed.

Lemma barsOrDefault_pos b : 0 < barsOrDefault b.
Proof. unfold barsOrDefault, DEFAULT_BARS. destruct (Z.ltb_spec 0 b); lia. Qed.

Lemma barsOrDefault_id b : 0 < b -> barsOrDefault b = b.
Proof. unfold barsOrDefault. destruct (Z.ltb_spec 0 b); lia. Qed.

Lemma entrySteps_pos e : 0 < entrySteps e.
Proof. unfold entrySteps. pose proof (barsOrDefault_pos (bars e)). lia. Qed.

(** ** Progressions *)

Lemma fold_steps_shift (h : list PatternHistoryEntry) (a : Z) :
  fold_left (fun sum p => sum + barsOrDefault (bars p) * 16) h a
  = a + totalProgressionSteps h.
Proof.
  unfold totalProgressionSteps. revert a.
  induction h as [|e h IH]; intros a; simpl; [lia|].
  rewrite (IH (a + _)), (IH (0 + _)). lia.
Qed.

Lemma totalProgressionSteps_cons e (h : list PatternHistoryEntry) :
  totalProgressionSteps (e :: h) = entrySteps e + totalProgressionSteps h.
Proof.
  unfold totalProgressionSteps at 1. simpl. rewrite fold_steps_shift.
  unfold entrySteps. lia.
Qed.

Lemma totalProgressionSteps_nonneg (h : list PatternHistoryEntry) :
  0 <= totalProgressionSteps h.
Proof.
  induction h as [|e h IH]; [reflexivity|].
  rewrite totalProgressionSteps_cons. pose proof (entrySteps_pos e). lia.
Qed.

Lemma totalProgressionSteps_pos (h : list PatternHistoryEntry) :
  h <> [] -> 0 < totalProgressionSteps h.
Proof.
  destruct h as [|e h]; [congruence|]. intros _.
  rewrite totalProgressionSteps_cons.
  pose proof (entrySteps_pos e). pose proof (totalProgressionSteps_nonneg h). lia.
Qed.

Lemma stepsBefore_0 (h : list PatternHistoryEntry) : stepsBefore 0 h = 0.
Proof. unfold stepsBefore. rewrite take_0. reflexivity. Qed.

Lemma stepsBefore_S i e (h : list PatternHistoryEntry) :
  stepsBefore (S i) (e :: h) = entrySteps e + stepsBefore i h.
Proof. unfold stepsBefore. simpl. apply totalProgressionSteps_cons. Qed.

Lemma stepsBefore_nonneg i (h : list PatternHistoryEntry) : 0 <= stepsBefore i h.
Proof. apply totalProgressionSteps_nonneg. Qed.

Lemma walkProgression_head g cum e (h : list PatternHistoryEntry) :
  cum <= g < cum + entrySteps e ->
  walkProgression g cum (e :: h) = (pattern e, g - cum).
Proof.
  intros Hr. simpl. fold (entrySteps e).
  replace (cum <=? g) with true by (symmetry; apply Z.leb_le; lia).
  replace (g <? cum + entrySteps e) with true by (symmetry; apply Z.ltb_lt; lia).
  reflexivity.
Qed.

Lemma walkProgression_skip g cum e (h : list PatternHistoryEntry) :
  cum + entrySteps e <= g ->
  walkProgression g cum (e :: h) = walkProgression g (cum + entrySteps e) h.
Proof.
  intros Hr. simpl. fold (entrySteps e).
  replace (g <? cum + entrySteps e) with false by (symmetry; apply Z.ltb_ge; lia).
  rewrite andb_false_r. reflexivity.
Qed.

(** The loop stops at the entry whose range of steps holds [g]. *)
Lemma walkProgression_finds (h : list PatternHistoryEntry) :
  forall g cum, cum <= g < cum + totalProgressionSteps h ->
    exists (i : nat) entry,
      h !! i = Some entry
      /\ cum + stepsBefore i h <= g < cum + stepsBefore i h + entrySteps entry
      /\ walkProgression g cum h = (pattern entry, g - (cum + stepsBefore i h)).
Proof.
  induction h as [|e h IH]; intros g cum Hg.
  - cbn in Hg. lia.
  - rewrite totalProgressionSteps_cons in Hg. simpl.
    fold (entrySteps e).
    destruct (Z.ltb_spec g (cum + entrySteps e)) as [Hlt|Hge].
    + exists 0%nat, e. rewrite stepsBefore_0.
      replace (cum <=? g) with true by (symmetry; apply Z.leb_le; lia).
      simpl. repeat split; try lia. f_equal. lia.
    + destruct (IH g (cum + entrySteps e)) as (i & entry & Hi & Hr & Hw); [lia|].
      exists (S i), entry. rewrite stepsBefore_S.
      rewrite andb_false_r. repeat split; try lia; [exact Hi|].
      rewrite Hw. f_equal. lia.
Qed.

(** Ranges of distinct entries do not overlap. *)
Lemma stepsBefore_range_unique (h : list PatternHistoryEntry) :
  forall (i j : nat) ei ej g,
    h !! i = Some ei -> h !! j = Some ej ->
    stepsBefore i h <= g < stepsBefore i h + entrySteps ei ->
    stepsBefore j h <= g < stepsBefore j h + entrySteps ej ->
    i = j.
Proof.
  induction h as [|e h IH]; intros i j ei ej g Hi Hj Ri Rj; [discriminate|].
  destruct i as [|i], j as [|j]; [reflexivity| | |].
  - exfalso. rewrite stepsBefore_0 in Ri. rewrite stepsBefore_S in Rj.
    simpl in Hi. injection Hi as ->.
    pose proof (stepsBefore_nonneg j h). lia.
  - exfalso. rewrite stepsBefore_0 in Rj. rewrite stepsBefore_S in Ri.
    simpl in Hj. injection Hj as ->.
    pose proof (stepsBefore_nonneg i h). lia.
  - f_equal. rewrite !stepsBefore_S in *. simpl in Hi, Hj.
    apply (IH i j ei ej (g - entrySteps e)); auto; lia.
Qed.

Lemma resolveChained_spec (h : list PatternHistoryEntry) (step : Z) :
  h <> [] -> 0 <= step ->
  exists (i : nat) entry,
    h !! i = Some entry
    /\ stepsBefore i h <= step mod totalProgressionSteps h
       < stepsBefore i h + entrySteps entry
    /\ resolveChained h step
       = (pattern entry, step mod totalProgressionSteps h - stepsBefore i h).
Proof.
  intros Hne Hstep. pose proof (totalProgressionSteps_pos h Hne) as Hpos.
  unfold resolveChained.
  replace (0 <? totalProgressionSteps h) with true by (symmetry; apply Z.ltb_lt; lia).
  rewrite js_rem_nonneg by lia.
  pose proof (Z.mod_pos_bound step (totalProgressionSteps h) Hpos) as Hb.
  destruct (walkProgression_finds h (step mod totalProgressionSteps h) 0)
    as (i & entry & Hi & Hr & Hw); [lia|].
  exists i, entry. split; [exact Hi|]. split; [lia|].
  rewrite Hw. reflexivity.
Qed.

(** ** Resolution of the pattern of a track *)

(** C1.  For a track and a step, [processMidiStep] picks the pattern in this
    order: the live-edit override of the track if one is in force, read at
    step [step mod (bars*16)]; otherwise, for a track with
    [isProgressionChaining], the chained resolution; otherwise
    [patternHistory[currentPatternIndex]], read at step [step mod (bars*16)].
    A track for which no pattern is found sends nothing and leaves the table
    of sounding notes as it was. *)
Theorem resolution_priority (st : AppState) (track : Track) (step : Z) :
  0 <= step ->
  (forall d, liveEditOverride st track = Some d -> 0 < le_bars d ->
     resolvePattern st track step
     = (Some (le_pattern d), step mod (le_bars d * 16)))
  /\ (liveEditOverride st track = None -> isProgressionChaining track = true ->
      resolvePattern st track step = resolveChained (patternHistory track) step)
  /\ (forall e, liveEditOverride st track = None ->
        isProgressionChaining track = false ->
        js_index (patternHistory track) (currentPatternIndex track) = Some e ->
        0 < bars e ->
        resolvePattern st track step = (pattern e, step mod (bars e * 16)))
  /\ (forall active, fst (resolvePattern st track step) = None ->
        processTrack st step track active = ([], active)).
Proof.
  intros Hstep. repeat split.
  - intros d Hd Hb. unfold resolvePattern. rewrite Hd.
    replace (0 <? le_bars d * 16) with true by (symmetry; apply Z.ltb_lt; lia).
    rewrite js_rem_nonneg by lia. reflexivity.
  - intros Hd Hc. unfold resolvePattern. rewrite Hd, Hc. reflexivity.
  - intros e Hd Hc He Hb. unfold resolvePattern, resolveCurrent.
    rewrite Hd, Hc, He, (barsOrDefault_id _ Hb).
    replace (0 <? bars e * 16) with true by (symmetry; apply Z.ltb_lt; lia).
    rewrite js_rem_nonneg by lia. reflexivity.
  - intros active Hnone. unfold processTrack.
    destruct (isMuted track); [reflexivity|].
    destruct (resolvePattern st track step) as [[p|] l]; [discriminate|reflexivity].
Qed.

(** C2.  For a chaining track with a non-empty history that has no live-edit
    override in force, and a step [step >= 0]: with [total] the sum of the
    entries' lengths in steps and [g = step mod total], the resolution returns
    the pattern of the one entry [i] whose range
    [stepsBefore i, stepsBefore i + entrySteps) holds [g], read at local step
    [g - stepsBefore i]; an entry's length is [bars*16] whenever its [bars] is
    positive; and with at least two entries, step [b1*16 - 1] falls at the
    last step of the first entry and step [b1*16] at step 0 of the second. *)
Theorem chained_resolution (st : AppState) (track : Track) (step : Z) :
  isProgressionChaining track = true ->
  liveEditOverride st track = None ->
  patternHistory track <> [] ->
  0 <= step ->
  let h := patternHistory track in
  let total := totalProgressionSteps h in
  let g := step mod total in
  (forall e, 0 < bars e -> entrySteps e = bars e * 16)
  /\ total = foldr (fun e acc => entrySteps e + acc) 0 h
  /\ (exists (i : nat) entry,
        h !! i = Some entry
        /\ stepsBefore i h <= g < stepsBefore i h + entrySteps entry
        /\ resolvePattern st track step = (pattern entry, g - stepsBefore i h)
        /\ forall (j : nat) e', h !! j = Some e' ->
             stepsBefore j h <= g < stepsBefore j h + entrySteps e' -> j = i)
  /\ (forall e1 e2 rest, h = e1 :: e2 :: rest ->
        resolvePattern st track (entrySteps e1 - 1) = (pattern e1, entrySteps e1 - 1)
        /\ resolvePattern st track (entrySteps e1) = (pattern e2, 0)).
Proof.
  intros Hc Hd Hne Hstep h total g.
  assert (Hres : forall s, resolvePattern st track s = resolveChained h s).
  { intros s. unfold resolvePattern. rewrite Hd, Hc. reflexivity. }
  split; [intros e He; unfold entrySteps; rewrite barsOrDefault_id; auto|].
  split.
  { subst total. clearbody h. clear. induction h as [|e h IH]; [reflexivity|].
    rewrite totalProgressionSteps_cons. simpl. rewrite IH. reflexivity. }
  split.
  - destruct (resolveChained_spec h step Hne Hstep) as (i & entry & Hi & Hr & Hw).
    exists i, entry. rewrite Hres. repeat split; try exact Hi; try exact Hw;
      try (apply Hr).
    intros j e' Hj Rj. symmetry.
    exact (stepsBefore_range_unique h i j entry e' g Hi Hj Hr Rj).
  - intros e1 e2 rest Hh. rewrite !Hres. rewrite Hh.
    pose proof (entrySteps_pos e1) as H1. pose proof (entrySteps_pos e2) as H2.
    pose proof (totalProgressionSteps_nonneg rest) as H3.
    assert (Ht : totalProgressionSteps (e1 :: e2 :: rest)
                 = entrySteps e1 + (entrySteps e2 + totalProgressionSteps rest)).
    { rewrite !totalProgressionSteps_cons. reflexivity. }
    unfold resolveChained. rewrite Ht.
    replace (0 <? _) with true by (symmetry; apply Z.ltb_lt; lia).
    rewrite !js_rem_nonneg by lia. rewrite !Z.mod_small by lia.
    split.
    + rewrite walkProgression_head by lia. f_equal. lia.
    + rewrite walkProgression_skip by lia.
      rewrite walkProgression_head by lia. f_equal. lia.
Qed.

Lemma resolution_priority_witness :
  resolvePattern editingSession synthTrack 20 = (Some patternB, 4)
  /\ resolvePattern chainSession chainTrack 20
     = resolveChained (patternHistory chainTrack) 20
  /\ resolvePattern session drumTrack 20 = (Some patternA, 4)
  /\ processTrack chainSession 48 chainTrack [] = ([], []).
Proof.
  split; [|split; [|split]].
  - apply (proj1 (resolution_priority editingSession synthTrack 20 ltac:(lia))
             (mkLive patternB 1)); [vm_compute; reflexivity | simpl; lia].
  - apply (proj1 (proj2 (resolution_priority chainSession chainTrack 20 ltac:(lia))));
      vm_compute; reflexivity.
  - apply (proj1 (proj2 (proj2 (resolution_priority session drumTrack 20 ltac:(lia))))
             (mkEntry (Some patternA) 1 "A"));
      try (vm_compute; reflexivity); simpl; lia.
  - apply (proj2 (proj2 (proj2 (resolution_priority chainSession chainTrack 48 ltac:(lia))))).
    vm_compute; reflexivity.
Defined.

Lemma chained_resolution_witness :
  resolvePattern chainSession chainTrack 15 = (Some patternA, 15)
  /\ resolvePattern chainSession chainTrack 16 = (Some patternB, 0).
Proof.
  assert (Hne : patternHistory chainTrack <> []) by discriminate.
  exact (proj2 (proj2 (proj2
           (chained_resolution chainSession chainTrack 20 eq_refl
              ltac:(vm_compute; reflexivity) Hne ltac:(lia))))
           (mkEntry (Some patternA) 1 "A") (mkEntry (Some patternB) 2 "B")
           [mkEntry None 1 "C"] eq_refl).
Defined.

(** ** Controller automation *)

Lemma clamp_range x : 0 <= clamp 0 127 x <= 127.
Proof. unfold clamp. lia. Qed.

Lemma ccTransform_formula (ccData : CcAutomationData) (value : Q) :
  ccTransform ccData value
  = ccFormulaDouble value (default 1%Q (depth ccData)) (default 0%Q (offset ccData)).
Proof. reflexivity. Qed.

(** ** Order of the messages of one step *)

Lemma In_filter_iff {A} (P : A -> Prop) `{forall x, Decision (P x)} (l : list A) x :
  In x (filter P l) <-> P x /\ In x l.
Proof. rewrite <- !list_elem_of_In. apply list_elem_of_filter. Qed.

Lemma expiresAt_true step a : expiresAt step a = true <-> absoluteOffStep a = step.
Proof. unfold expiresAt. apply Z.eqb_eq. Qed.

Lemma expiresAt_false step a : expiresAt step a = false <-> absoluteOffStep a <> step.
Proof. unfold expiresAt. apply Z.eqb_neq. Qed.

Lemma releaseExpired_messages step active m :
  In m (fst (releaseExpired step active))
  <-> exists trackId notes a,
        In (trackId, notes) active /\ In a notes
        /\ absoluteOffStep a = step /\ m = noteOff a.
Proof.
  unfold releaseExpired. simpl. rewrite in_flat_map. split.
  - intros ([trackId notes] & Hkv & Hm). simpl in Hm.
    apply in_map_iff in Hm as (a & <- & Ha).
    apply In_filter_iff in Ha as [He Ha]. apply expiresAt_true in He.
    exists trackId, notes, a. auto.
  - intros (trackId & notes & a & Hkv & Ha & Hoff & ->).
    exists (trackId, notes). split; [exact Hkv|]. simpl.
    apply in_map. apply In_filter_iff. split; [|exact Ha].
    apply expiresAt_true. exact Hoff.
Qed.

Lemma releaseExpired_removed step active trackId notes a :
  In (trackId, notes) (snd (releaseExpired step active)) -> In a notes ->
  absoluteOffStep a <> step.
Proof.
  unfold releaseExpired. simpl. rewrite in_map_iff.
  intros ([k v] & Heq & _) Ha. simpl in Heq. injection Heq as _ <-.
  apply In_filter_iff in Ha as [He _]. apply expiresAt_false. exact He.
Qed.

Lemma processTrack_messages st step track active m :
  In m (fst (processTrack st step track active)) -> triggeredBy st step track m.
Proof.
  unfold processTrack, triggeredBy.
  destruct (isMuted track); [simpl; tauto|].
  destruct (resolvePattern st track step) as [[p|] l]; [|simpl; tauto].
  simpl. rewrite in_app_iff. intros [Hm|Hm]; split; auto.
  left. apply in_map_iff in Hm as (n & <- & Hn).
  apply In_filter_iff in Hn as [Hs Hn].
  exists p, l, n. repeat split; auto.
  unfold startsAt in Hs. apply Z.eqb_eq. exact Hs.
Qed.

Lemma processTracks_messages st step ts :
  forall active m, In m (fst (processTracks st step ts active)) ->
    exists track, In track ts /\ triggeredBy st step track m.
Proof.
  induction ts as [|track ts IH]; intros active m; simpl; [tauto|].
  destruct (processTrack st step track active) as [out1 active1] eqn:E1.
  destruct (processTracks st step ts active1) as [out2 active2] eqn:E2.
  simpl. rewrite in_app_iff. intros [Hm|Hm].
  - exists track. split; [auto|].
    apply (processTrack_messages st step track active). rewrite E1. exact Hm.
  - destruct (IH active1 m) as (t & Ht & Htr); [rewrite E2; exact Hm|].
    exists t. auto.
Qed.

Lemma processMidiStep_midi (st : AppState) (step : Z) :
  isPreviewMode st = false -> hasOutput st = true ->
  processMidiStep st step
  = (set_activePlayingNotes st
       (snd (processTracks st step (tracks st)
               (snd (releaseExpired step (activePlayingNotes st))))),
     fst (releaseExpired step (activePlayingNotes st))
     ++ fst (processTracks st step (tracks st)
               (snd (releaseExpired step (activePlayingNotes st))))).
Proof.
  intros Hp Ho. unfold processMidiStep. rewrite Hp, Ho. cbn [orb negb].
  destruct (releaseExpired step (activePlayingNotes st)) as [offs active1].
  cbn [fst snd].
  destruct (processTracks st step (tracks st) active1) as [ons active2].
  reflexivity.
Qed.

(** C6.  In one step of the MIDI backend the messages sent are first the
    note-offs of exactly the sounding notes whose [absoluteOffStep] is the
    current step, which are removed from the sounding table at that point,
    and only then the messages of the second loop, which runs on the table
    without those notes: each of them is the note-on of a note starting on
    this step or a controller message. *)
Theorem note_offs_before_note_ons (st : AppState) (step : Z) :
  isPreviewMode st = false -> hasOutput st = true ->
  let released := releaseExpired step (activePlayingNotes st) in
  exists ons,
    snd (processMidiStep st step) = fst released ++ ons
    /\ (forall m, In m (fst released)
          <-> exists trackId notes a,
                In (trackId, notes) (activePlayingNotes st) /\ In a notes
                /\ absoluteOffStep a = step /\ m = noteOff a)
    /\ (forall trackId notes a,
          In (trackId, notes) (snd released) -> In a notes ->
          absoluteOffStep a <> step)
    /\ processTracks st step (tracks st) (snd released)
       = (ons, activePlayingNotes (fst (processMidiStep st step)))
    /\ (forall m, In m ons ->
          exists track, In track (tracks st) /\ triggeredBy st step track m).
Proof.
  intros Hp Ho released.
  exists (fst (processTracks st step (tracks st) (snd released))).
  rewrite (processMidiStep_midi st step Hp Ho). fold released. cbn [fst snd].
  split; [reflexivity|].
  split; [intros m; apply releaseExpired_messages|].
  split; [apply releaseExpired_removed|].
  split; [destruct (processTracks st step (tracks st) (snd released)); reflexivity|].
  intros m Hm. exact (processTracks_messages st step (tracks st) (snd released) m Hm).
Qed.

Lemma note_offs_before_note_ons_witness :
  exists ons,
    snd (processMidiStep soundingSession 4)
    = [mkMsg 137 36 0; mkMsg 128 127 0] ++ ons.
Proof.
  destruct (note_offs_before_note_ons soundingSession 4 eq_refl eq_refl)
    as (ons & Hout & _).
  exists ons. exact Hout.
Defined.

(** ** Octave shift and the stored patterns *)

Lemma applySwitch_history sw t : patternHistory (applySwitch sw t) = patternHistory t.
Proof. unfold applySwitch. destruct (switchTarget sw t); reflexivity. Qed.

Lemma map_applySwitch_history sw ts :
  map patternHistory (map (applySwitch sw) ts) = map patternHistory ts.
Proof.
  rewrite map_map. apply map_ext. intros t. apply applySwitch_history.
Qed.

Lemma applyPendingSwitches_history st :
  map patternHistory (tracks (fst (applyPendingSwitches st)))
  = map patternHistory (tracks st).
Proof.
  unfold applyPendingSwitches.
  destruct (pendingPatternHistorySwitch st) as [sw|]; [|reflexivity].
  destruct (negb (isPreviewMode st) && hasOutput st); simpl;
    apply map_applySwitch_history.
Qed.

Lemma processMidiStep_tracks st step :
  tracks (fst (processMidiStep st step)) = tracks st.
Proof.
  unfold processMidiStep.
  destruct (isPreviewMode st || negb (hasOutput st)); [reflexivity|].
  destruct (releaseExpired step (activePlayingNotes st)) as [offs active1].
  destruct (processTracks st step (tracks st) active1) as [ons active2].
  reflexivity.
Qed.

Lemma processMidiStep_liveEdit st step :
  liveEditingPattern (fst (processMidiStep st step)) = liveEditingPattern st.
Proof.
  unfold processMidiStep.
  destruct (isPreviewMode st || negb (hasOutput st)); [reflexivity|].
  destruct (releaseExpired step (activePlayingNotes st)) as [offs active1].
  destruct (processTracks st step (tracks st) active1) as [ons active2].
  reflexivity.
Qed.

Lemma sendAllNotesOff_tracks st : tracks (fst (sendAllNotesOff st)) = tracks st.
Proof.
  unfold sendAllNotesOff. destruct (hasOutput st && negb (isPreviewMode st)); reflexivity.
Qed.

Lemma schedulerStep_history st :
  map patternHistory (tracks (fst (schedulerStep st))) = map patternHistory (tracks st).
Proof.
  unfold schedulerStep.
  destruct (negb (isPlaying st) || isExternalClock st || isPreviewMode st); [reflexivity|].
  destruct (processMidiStep st (absoluteStep st)) as [st1 out1] eqn:E1.
  assert (Ht : tracks st1 = tracks st).
  { pose proof (processMidiStep_tracks st (absoluteStep st)) as H. rewrite E1 in H. exact H. }
  match goal with |- context [if ?c then _ else _] => destruct c end.
  - destruct (applyPendingSwitches _) as [st3 out2] eqn:E3.
    pose proof (applyPendingSwitches_history (set_absoluteStep st1 (absoluteStep st + 1))) as H.
    rewrite E3 in H. simpl in H. simpl. rewrite H, Ht. reflexivity.
  - simpl. rewrite Ht. reflexivity.
Qed.

Lemma clockPulse_history st :
  map patternHistory (tracks (fst (clockPulse st))) = map patternHistory (tracks st).
Proof.
  unfold clockPulse.
  match goal with |- context [if js_rem ?a ?b =? 0 then _ else _] =>
    destruct (js_rem a b =? 0) end; [|reflexivity].
  match goal with |- context [if isPlaying ?s then _ else _] =>
    destruct (isPlaying s) end; [|reflexivity].
  match goal with |- context [processMidiStep ?s ?n] =>
    destruct (processMidiStep s n) as [st3 out1] eqn:E1;
    pose proof (processMidiStep_tracks s n) as Ht; rewrite E1 in Ht; simpl in Ht
  end.
  match goal with |- context [if ?c then _ else _] => destruct c end.
  - match goal with |- context [applyPendingSwitches ?s] =>
      destruct (applyPendingSwitches s) as [st5 out2] eqn:E3;
      pose proof (applyPendingSwitches_history s) as H; rewrite E3 in H
    end.
    simpl in H. simpl. rewrite H, Ht. reflexivity.
  - simpl. rewrite Ht. reflexivity.
Qed.

Lemma handleMidiMessage_history st command :
  map patternHistory (tracks (fst (handleMidiMessage st command)))
  = map patternHistory (tracks st).
Proof.
  unfold handleMidiMessage.
  destruct (isPreviewMode st).
  { destruct ((command =? 252) && isPlaying st); reflexivity. }
  destruct ((command =? 248) && hasInput st); [apply clockPulse_history|].
  destruct (command =? 250).
  { unfold clockStart.
    match goal with |- context [sendAllNotesOff ?s] =>
      destruct (sendAllNotesOff s) as [st4 out1] eqn:E1;
      pose proof (sendAllNotesOff_tracks s) as Ht1; rewrite E1 in Ht1; simpl in Ht1
    end.
    match goal with |- context [processMidiStep ?s ?n] =>
      destruct (processMidiStep s n) as [st6 out2] eqn:E2;
      pose proof (processMidiStep_tracks s n) as Ht2; rewrite E2 in Ht2; simpl in Ht2
    end.
    simpl. rewrite Ht2, Ht1. reflexivity. }
  destruct (command =? 251); [reflexivity|].
  destruct (command =? 252); [|reflexivity].
  unfold clockStop.
  match goal with |- context [sendAllNotesOff ?s] =>
    destruct (sendAllNotesOff s) as [st2 out] eqn:E1;
    pose proof (sendAllNotesOff_tracks s) as Ht1; rewrite E1 in Ht1; simpl in Ht1
  end.
  simpl. rewrite Ht1. reflexivity.
Qed.

(** ** The shared loop *)

Lemma fold_left_max_from (xs : list Z) (a : Z) :
  0 <= a -> fold_left Z.max xs a = Z.max a (foldr Z.max 0 xs).
Proof.
  revert a. induction xs as [|x xs IH]; intros a Ha; simpl; [lia|].
  rewrite IH by lia. lia.
Qed.

Lemma Math_max16_spec (xs : list Z) : Math_max16 xs = Z.max 16 (foldr Z.max 0 xs).
Proof. unfold Math_max16. apply fold_left_max_from. lia. Qed.


Lemma anyTrackChaining_false ts t :
  anyTrackChaining ts = false -> In t ts -> isProgressionChaining t = false.
Proof.
  unfold anyTrackChaining. intros Hn Hin.
  destruct (isProgressionChaining t) eqn:E; [|reflexivity].
  assert (existsb isProgressionChaining ts = true) as Habs
    by (apply existsb_exists; exists t; auto).
  congruence.
Qed.



Lemma loopEnd_ge16 st : 16 <= loopEndStepForNormalMode st.
Proof. unfold loopEndStepForNormalMode. rewrite Math_max16_spec. lia. Qed.

Lemma atLoopBoundary_iff L step :
  0 < L -> 0 <= step -> (atLoopBoundary L step = true <-> step mod L = L - 1).
Proof.
  intros HL Hs. unfold atLoopBoundary.
  replace (0 <? L) with true by (symmetry; apply Z.ltb_lt; lia).
  rewrite js_rem_nonneg by lia. simpl. apply Z.eqb_eq.
Qed.




(** ** Deferred pattern switches *)

Lemma processMidiStep_frame st step :
  exists active, fst (processMidiStep st step) = set_activePlayingNotes st active.
Proof.
  unfold processMidiStep.
  destruct (isPreviewMode st || negb (hasOutput st)).
  - exists (activePlayingNotes st). destruct st; reflexivity.
  - destruct (releaseExpired step (activePlayingNotes st)) as [offs active1].
    destruct (processTracks st step (tracks st) active1) as [ons active2].
    exists active2. reflexivity.
Qed.

(** One due step of the running internal scheduler: the step is emitted, the
    counter advances, and pending switches are applied if and only if the
    guard holds. *)
Lemma schedulerStep_running st :
  isPlaying st = true -> isExternalClock st = false -> isPreviewMode st = false ->
  exists active,
    let st2 := set_absoluteStep (set_activePlayingNotes st active) (absoluteStep st + 1) in
    fst (schedulerStep st)
    = if negb (anyTrackChaining (tracks st))
         && atLoopBoundary (loopEndStepForNormalMode st) (absoluteStep st)
         && pendingNonEmpty (pendingPatternHistorySwitch st)
      then fst (applyPendingSwitches st2) else st2.
Proof.
  intros Hp He Hv. unfold schedulerStep. rewrite Hp, He, Hv. cbn [negb orb].
  destruct (processMidiStep_frame st (absoluteStep st)) as [active Ha].
  exists active. cbv zeta.
  destruct (processMidiStep st (absoluteStep st)) as [st1 out1]. simpl in Ha. subst st1.
  change (tracks (set_absoluteStep (set_activePlayingNotes st active) (absoluteStep st + 1)))
    with (tracks st).
  change (loopEndStepForNormalMode
            (set_absoluteStep (set_activePlayingNotes st active) (absoluteStep st + 1)))
    with (loopEndStepForNormalMode st).
  change (pendingPatternHistorySwitch
            (set_absoluteStep (set_activePlayingNotes st active) (absoluteStep st + 1)))
    with (pendingPatternHistorySwitch st).
  destruct (negb (anyTrackChaining (tracks st))
            && atLoopBoundary (loopEndStepForNormalMode st) (absoluteStep st)
            && pendingNonEmpty (pendingPatternHistorySwitch st)); [|reflexivity].
  destruct (applyPendingSwitches _) as [st3 out2]. reflexivity.
Qed.

Lemma mod_before_boundary a L n :
  0 < L -> 0 <= a -> 0 <= n <= L - 1 - a mod L -> (a + n) mod L = a mod L + n.
Proof.
  intros HL Ha Hn. pose proof (Z.mod_pos_bound a L HL) as Hb.
  rewrite <- Zplus_mod_idemp_l. apply Z.mod_small. lia.
Qed.

(** Before the boundary step is processed nothing but the step counter and
    the sounding table changes. *)
Lemma runScheduler_before_boundary st :
  isPlaying st = true -> isExternalClock st = false -> isPreviewMode st = false ->
  0 <= absoluteStep st ->
  forall n, (n <= stepsToBoundary st)%nat ->
    exists active,
      runScheduler n st
      = set_absoluteStep (set_activePlayingNotes st active)
                         (absoluteStep st + Z.of_nat n).
Proof.
  intros Hp He Hv Ha. induction n as [|n IH]; intros Hn.
  - exists (activePlayingNotes st). simpl. rewrite Z.add_0_r. destruct st; reflexivity.
  - destruct IH as [active Hrun]; [lia|].
    unfold runScheduler in *. simpl. rewrite Hrun.
    set (sn := set_absoluteStep (set_activePlayingNotes st active)
                                (absoluteStep st + Z.of_nat n)).
    destruct (schedulerStep_running sn Hp He Hv) as [active' Hs].
    cbv zeta in Hs. rewrite Hs.
    assert (Hnb : atLoopBoundary (loopEndStepForNormalMode sn) (absoluteStep sn) = false).
    { change (loopEndStepForNormalMode sn) with (loopEndStepForNormalMode st).
      change (absoluteStep sn) with (absoluteStep st + Z.of_nat n).
      pose proof (loopEnd_ge16 st) as HL.
      apply not_true_is_false. intros Hb.
      apply atLoopBoundary_iff in Hb; [|lia|lia].
      unfold stepsToBoundary in Hn.
      pose proof (Z.mod_pos_bound (absoluteStep st) (loopEndStepForNormalMode st)
                    ltac:(lia)) as Hm.
      rewrite mod_before_boundary in Hb; lia. }
    rewrite Hnb, andb_false_r. simpl.
    exists active'. unfold sn. unfold set_absoluteStep, set_activePlayingNotes. simpl.
    f_equal. lia.
Qed.

Lemma applyPendingSwitches_some st m :
  pendingPatternHistorySwitch st = Some m ->
  tracks (fst (applyPendingSwitches st)) = map (applySwitch m) (tracks st)
  /\ pendingPatternHistorySwitch (fst (applyPendingSwitches st)) = Some ∅
  /\ absoluteStep (fst (applyPendingSwitches st)) = absoluteStep st.
Proof.
  intros Hm. unfold applyPendingSwitches. rewrite Hm.
  destruct (negb (isPreviewMode st) && hasOutput st); simpl; auto.
Qed.

Lemma pendingNonEmpty_insert (m : gmap string Z) trackId i :
  pendingNonEmpty (Some (<[trackId := i]> m)) = true.
Proof.
  unfold pendingNonEmpty. apply negb_true_iff, bool_decide_eq_false.
  apply insert_non_empty.
Qed.

Lemma applySwitch_target (m : gmap string Z) t i :
  m !! t_id t = Some i ->
  0 <= i < Z.of_nat (length (patternHistory t)) ->
  currentPatternIndex (applySwitch m t) = i.
Proof.
  intros Hm Hi. unfold applySwitch, switchTarget. rewrite Hm.
  replace (0 <=? i) with true by (symmetry; apply Z.leb_le; lia).
  replace (i <? Z.of_nat (length (patternHistory t))) with true
    by (symmetry; apply Z.ltb_lt; lia).
  reflexivity.
Qed.

Lemma switchNow_target trackId t i :
  t_id t = trackId ->
  0 <= i < Z.of_nat (length (patternHistory t)) ->
  currentPatternIndex (switchNow trackId i t) = i.
Proof.
  intros Hid Hi. unfold switchNow. rewrite Hid, String.eqb_refl.
  replace (0 <=? i) with true by (symmetry; apply Z.leb_le; lia).
  replace (i <? Z.of_nat (length (patternHistory t))) with true
    by (symmetry; apply Z.ltb_lt; lia).
  reflexivity.
Qed.

Lemma mod_at_wraparound a L :
  0 < L -> 0 <= a -> (a + (L - 1 - a mod L) + 1) mod L = 0.
Proof.
  intros HL Ha. pose proof (Z.div_mod a L ltac:(lia)) as Hd.
  replace (a + (L - 1 - a mod L) + 1) with ((a / L + 1) * L) by lia.
  apply Z_mod_mult.
Qed.

(** ** The external clock *)

Lemma applyPendingSwitches_transport st :
  let s' := fst (applyPendingSwitches st) in
  isPlaying s' = isPlaying st /\ isPreviewMode s' = isPreviewMode st
  /\ hasInput s' = hasInput st /\ isExternalClock s' = isExternalClock st
  /\ clockTickCounter s' = clockTickCounter st /\ absoluteStep s' = absoluteStep st.
Proof.
  unfold applyPendingSwitches.
  destruct (pendingPatternHistorySwitch st) as [sw|]; [|simpl; tauto].
  destruct (negb (isPreviewMode st) && hasOutput st); simpl; tauto.
Qed.

(** What one clock pulse does to the transport. *)
Lemma clockPulse_effect st :
  let s' := fst (clockPulse st) in
  isPlaying s' = isPlaying st /\ isPreviewMode s' = isPreviewMode st
  /\ hasInput s' = hasInput st /\ isExternalClock s' = true
  /\ clockTickCounter s' = clockTickCounter st + 1
  /\ absoluteStep s'
     = (if pulseEmitsStep st then absoluteStep st + 1 else absoluteStep st)
  /\ (pulseEmitsStep st = false -> snd (clockPulse st) = [])
  /\ (pulseEmitsStep st = true ->
      exists resets,
        snd (clockPulse st)
        = snd (processMidiStep (pulseCounted st) (absoluteStep st)) ++ resets).
Proof.
  unfold clockPulse, pulseEmitsStep, pulseCounted.
  change (clockTickCounter
            (set_clockTickCounter (set_isExternalClock st true)
               (clockTickCounter (set_isExternalClock st true) + 1)))
    with (clockTickCounter st + 1).
  change (isPlaying
            (set_clockTickCounter (set_isExternalClock st true)
               (clockTickCounter (set_isExternalClock st true) + 1)))
    with (isPlaying st).
  change (clockTickCounter (set_isExternalClock st true)) with (clockTickCounter st).
  destruct (js_rem (clockTickCounter st + 1) (PPQN / 4) =? 0);
    [|cbn [andb]; simpl; repeat split; auto; discriminate].
  destruct (isPlaying st) eqn:Hp;
    [|cbn [andb]; simpl; repeat split; auto; discriminate].
  cbn [andb].
  set (sc := set_clockTickCounter (set_isExternalClock st true) (clockTickCounter st + 1)).
  change (absoluteStep sc) with (absoluteStep st).
  destruct (processMidiStep_frame sc (absoluteStep st)) as [active Hf].
  destruct (processMidiStep sc (absoluteStep st)) as [st3 out1]. simpl in Hf. subst st3.
  match goal with |- context [if ?c then _ else _] => destruct c end.
  - match goal with |- context [applyPendingSwitches ?s] =>
      pose proof (applyPendingSwitches_transport s) as Hfr;
      destruct (applyPendingSwitches s) as [st5 out2]
    end.
    cbv zeta in Hfr. simpl in Hfr. destruct Hfr as (H1 & H2 & H3 & H4 & H5 & H6).
    simpl. repeat split; try congruence. intros _. exists out2. reflexivity.
  - simpl. repeat split; try congruence. intros _. exists [].
    rewrite app_nil_r. reflexivity.
Qed.

Lemma pulseEmitsStep_count st :
  0 <= clockTickCounter st -> isPlaying st = true ->
  (if pulseEmitsStep st then 1 else 0)
  = (clockTickCounter st + 1) / 6 - clockTickCounter st / 6.
Proof.
  intros Hc Hp. unfold pulseEmitsStep. rewrite Hp, andb_true_r.
  change (PPQN / 4) with 6. rewrite js_rem_nonneg by lia.
  destruct (Z.eqb_spec ((clockTickCounter st + 1) mod 6) 0) as [E|E];
    Z.div_mod_to_equations; lia.
Qed.

(** Over any number of pulses received while playing, the step counter
    advances by the number of multiples of six the pulse count passes. *)
Lemma clockPulses_steps (n : nat) :
  forall st,
    isPreviewMode st = false -> hasInput st = true -> isPlaying st = true ->
    0 <= clockTickCounter st ->
    let s' := fst (handleMidiMessages st (repeat 0xF8 n)) in
    absoluteStep s'
    = absoluteStep st
      + ((clockTickCounter st + Z.of_nat n) / 6 - clockTickCounter st / 6)
    /\ clockTickCounter s' = clockTickCounter st + Z.of_nat n
    /\ isPlaying s' = true.
Proof.
  induction n as [|n IH]; intros st Hv Hi Hp Hc.
  - simpl. rewrite Z.add_0_r. repeat split; auto; lia.
  - cbn [repeat handleMidiMessages].
    assert (Hh : handleMidiMessage st 248 = clockPulse st).
    { unfold handleMidiMessage. rewrite Hv, Hi. reflexivity. }
    rewrite Hh.
    pose proof (clockPulse_effect st) as (E1 & E2 & E3 & _ & E5 & E6 & _).
    pose proof (pulseEmitsStep_count st Hc Hp) as Hcount.
    destruct (clockPulse st) as [st1 out1]. simpl in E1, E2, E3, E5, E6.
    specialize (IH st1 ltac:(congruence) ltac:(congruence) ltac:(congruence) ltac:(lia)).
    destruct (handleMidiMessages st1 (repeat 248 n)) as [st2 out2].
    cbv zeta in IH. simpl in IH. destruct IH as (I1 & I2 & I3).
    simpl. rewrite I1, I2, E5, E6.
    replace (clockTickCounter st + 1 + Z.of_nat n)
      with (clockTickCounter st + Z.of_nat (S n)) by lia.
    split; [|split; [lia|exact I3]].
    destruct (pulseEmitsStep st); lia.
Qed.

Lemma clockStart_effect st :
  isPreviewMode st = false -> hasOutput st = true ->
  clockStart st
  = (set_absoluteStep (fst (processMidiStep (restarted st) 0)) 1,
     flushMessages st ++ snd (processMidiStep (restarted st) 0)).
Proof.
  intros Hv Ho. unfold clockStart, sendAllNotesOff, restarted, flushMessages.
  destruct st; cbn -[processMidiStep allNotesOffOnEveryChannel] in *. subst.
  cbn -[processMidiStep allNotesOffOnEveryChannel].
  destruct (processMidiStep _ 0) as [st6 out2]. reflexivity.
Qed.

Lemma clockStart_transport st :
  let s' := fst (clockStart st) in
  isPlaying s' = true /\ isExternalClock s' = true
  /\ clockTickCounter s' = 0 /\ absoluteStep s' = 1.
Proof.
  unfold clockStart.
  match goal with |- context [sendAllNotesOff ?s] =>
    assert (Hf : exists a, fst (sendAllNotesOff s) = set_activePlayingNotes s a)
  end.
  { unfold sendAllNotesOff.
    match goal with |- context [if ?c then _ else _] => destruct c end.
    - exists []. reflexivity.
    - eexists. simpl. destruct st; reflexivity. }
  destruct Hf as [a Hf].
  destruct (sendAllNotesOff _) as [st4 out1]. simpl in Hf. subst st4.
  match goal with |- context [processMidiStep ?s 0] =>
    destruct (processMidiStep_frame s 0) as [a' Hf'];
    destruct (processMidiStep s 0) as [st6 out2]
  end.
  simpl in Hf'. subst st6. simpl. tauto.
Qed.

Lemma clockStop_effect st :
  let s' := fst (clockStop st) in
  isPlaying s' = false /\ isExternalClock s' = false
  /\ clockTickCounter s' = 0 /\ absoluteStep s' = absoluteStep st
  /\ pendingPatternHistorySwitch s' = None
  /\ (isPreviewMode st = false -> hasOutput st = true ->
      activePlayingNotes s' = [] /\ snd (clockStop st) = flushMessages st).
Proof.
  unfold clockStop, sendAllNotesOff, flushMessages.
  destruct st as [ts pl pv ex hi ho fs le ab ct act pd].
  destruct ho, pv; cbn -[allNotesOffOnEveryChannel];
    repeat split; try reflexivity; discriminate.
Qed.

(** ** Validation of generated notes *)

Lemma Math_round_bounds x :
  (x - (1 # 2) < inject_Z (Math_round x) /\ inject_Z (Math_round x) <= x + (1 # 2))%Q.
Proof.
  unfold Math_round. pose proof (Qfloor_le (x + (1 # 2))) as H1.
  pose proof (Qlt_floor (x + (1 # 2))) as H2.
  rewrite inject_Z_plus in H2. change (inject_Z 1) with 1%Q in H2. split; lra.
Qed.

Lemma Math_round_nearest x : (Qabs (inject_Z (Math_round x) - x) <= 1 # 2)%Q.
Proof.
  pose proof (Math_round_bounds x) as [H1 H2].
  apply Qabs_Qle_condition. split; lra.
Qed.

Lemma quantizeTime_quarters t :
  (quantizeTime t * 4 == inject_Z (Math_round (t * 4)))%Q.
Proof. unfold quantizeTime. field. Qed.

Lemma quantizeTime_nearest t : (Qabs (quantizeTime t - t) <= 1 # 8)%Q.
Proof.
  pose proof (Math_round_bounds (t * 4)) as [H1 H2].
  pose proof (quantizeTime_quarters t) as H3.
  apply Qabs_Qle_condition. split; lra.
Qed.

Lemma finiteNumber_Some x q :
  finiteNumber x = Some q <-> x = Some (JNumber (Finite q)).
Proof.
  split; [|intros ->; reflexivity].
  destruct x as [[| |[| | |]| | |]|]; simpl; congruence.
Qed.

Lemma Qltb_lt a b : Qltb a b = true <-> (a < b)%Q.
Proof.
  unfold Qltb. rewrite negb_true_iff. split.
  - intros H. apply Qnot_le_lt. intros Hle. apply Qle_bool_iff in Hle. congruence.
  - intros H. destruct (Qle_bool b a) eqn:E; [|reflexivity].
    apply Qle_bool_iff in E. exfalso. exact (Qlt_not_le _ _ H E).
Qed.

Lemma Qleb_le a b : Qleb a b = true <-> (a <= b)%Q.
Proof. apply Qle_bool_iff. Qed.

(** The filter of [parseGeminiResponse] accepts exactly the elements that are
    valid in the sense of the specification. *)
Lemma isValidNote_spec p : isValidNote p = true <-> validNoteSpec p.
Proof.
  unfold isValidNote, validNoteSpec. split.
  - rewrite !andb_true_iff. intros ((((Ho & Hn) & Hv) & Ht) & Hd).
    destruct p as [| | | | |fields]; try discriminate Ho;
      [simpl in Hn; discriminate|].
    simpl in Hn, Hv, Ht, Hd.
    destruct (finiteNumber (omap_get "note" fields)) as [n|] eqn:En; [|discriminate].
    destruct (finiteNumber (omap_get "velocity" fields)) as [v|] eqn:Ev; [|discriminate].
    destruct (finiteNumber (omap_get "time" fields)) as [t|] eqn:Et; [|discriminate].
    destruct (finiteNumber (omap_get "duration" fields)) as [d|] eqn:Ed; [|discriminate].
    apply finiteNumber_Some in En, Ev, Et, Ed.
    apply andb_true_iff in Hn as [Hn1 Hn2]. apply andb_true_iff in Hv as [Hv1 Hv2].
    apply Qleb_le in Hn1, Hn2, Hv1, Hv2, Ht. apply Qltb_lt in Hd.
    exists fields, n, v, t, d. repeat split; assumption.
  - intros (fields & n & v & t & d & -> & En & Ev & Et & Ed
            & [Hn1 Hn2] & [Hv1 Hv2] & Ht & Hd).
    simpl. rewrite En, Ev, Et, Ed. simpl.
    apply Qleb_le in Hn1, Hn2, Hv1, Hv2, Ht. apply Qltb_lt in Hd.
    rewrite Hn1, Hn2, Hv1, Hv2, Ht, Hd. reflexivity.
Qed.

Lemma parseGeminiResponse_array clean parse responseText parsed :
  parse (clean responseText) = Returned (JArray parsed) ->
  parseGeminiResponse clean parse responseText
  = Returned (map toMidiNote (filter (fun p => isValidNote p = true) parsed)).
Proof. intros H. unfold parseGeminiResponse. rewrite H. reflexivity. Qed.

(** C10.  When the response parses to an array, the pattern returned is the
    list of normalized copies of its valid elements, in order: for a valid
    element with fields [n], [v], [t], [d] the stored note has pitch
    [round n], velocity [round v], time [round(t*4)/4] and duration [d]
    itself; the stored time is a whole number of quarters of a beat, at most
    an eighth of a beat away from [t], and pitch and velocity are at most one
    half away from [n] and [v].  Valid automation events are copied the same
    way, with the time quantized and the value rounded. *)
Theorem stored_note_normalized
    (cleanJsonString : string -> string) (JSON_parse : string -> Outcome Json)
    (responseText : string) (parsed : list Json) :
  JSON_parse (cleanJsonString responseText) = Returned (JArray parsed) ->
  exists notes,
    parseGeminiResponse cleanJsonString JSON_parse responseText = Returned notes
    /\ notes = map toMidiNote (filter (fun p => isValidNote p = true) parsed)
    /\ (forall p, In p parsed -> isValidNote p = true ->
          In (toMidiNote p) notes
          /\ exists n v t d,
               getProp p "note" = Some (JNumber (Finite n))
               /\ getProp p "velocity" = Some (JNumber (Finite v))
               /\ getProp p "time" = Some (JNumber (Finite t))
               /\ getProp p "duration" = Some (JNumber (Finite d))
               /\ toMidiNote p
                  = mkMidiNote (Math_round n) (Math_round v) (quantizeTime t) d
               /\ (quantizeTime t * 4 == inject_Z (Math_round (t * 4)))%Q
               /\ (Qabs (quantizeTime t - t) <= 1 # 8)%Q
               /\ (Qabs (inject_Z (Math_round n) - n) <= 1 # 2)%Q
               /\ (Qabs (inject_Z (Math_round v) - v) <= 1 # 2)%Q)
    /\ (forall fields t v,
          omap_get "time" fields = Some (JNumber (Finite t)) ->
          omap_get "value" fields = Some (JNumber (Finite v)) ->
          toCcEvent (JObject fields)
          = mkCcEvent (quantizeTime t) (inject_Z (Math_round v))).
Proof.
  intros Hparse. eexists. split; [apply parseGeminiResponse_array; exact Hparse|].
  split; [reflexivity|]. split.
  - intros p Hin Hvalid. split.
    { apply in_map. apply In_filter_iff. split; assumption. }
    apply isValidNote_spec in Hvalid
      as (fields & n & v & t & d & -> & En & Ev & Et & Ed & _).
    exists n, v, t, d.
    split; [exact En|]. split; [exact Ev|]. split; [exact Et|]. split; [exact Ed|].
    split.
    { unfold toMidiNote, fieldOr0, getProp. rewrite En, Ev, Et, Ed. reflexivity. }
    split; [apply quantizeTime_quarters|].
    split; [apply quantizeTime_nearest|].
    split; apply Math_round_nearest.
  - intros fields t v Et Ev. unfold toCcEvent, fieldOr0. simpl.
    rewrite Et, Ev. reflexivity.
Qed.

Lemma stored_note_normalized_witness :
  parseGeminiResponse sampleClean sampleParse "notes"
  = Returned [mkMidiNote 60 100 (0 # 4) (1 # 2);
              mkMidiNote 62 91 (1 # 4) 0.2;
              mkMidiNote 64 80 (4 # 4) 1].
Proof.
  destruct (stored_note_normalized sampleClean sampleParse "notes" sampleParsed eq_refl)
    as (notes & Hret & Hnotes & _).
  rewrite Hret, Hnotes. reflexivity.
Defined.

(** ** Outcome of a generation request *)

Lemma onTrack_In trackId f ts t :
  In t (onTrack trackId f ts) ->
  exists t0, In t0 ts
    /\ t = (if String.eqb (t_id t0) trackId then f t0 else t0).
Proof.
  unfold onTrack. rewrite in_map_iff. intros (t0 & <- & Hin). exists t0. auto.
Qed.

Lemma onTrack_history trackId f ts :
  (forall t, patternHistory (f t) = patternHistory t) ->
  map patternHistory (onTrack trackId f ts) = map patternHistory ts.
Proof.
  intros Hf. unfold onTrack. rewrite map_map. apply map_ext. intros t.
  destruct (String.eqb (t_id t) trackId); auto.
Qed.

Lemma onTrack_compose trackId f g ts :
  (forall t, t_id (f t) = t_id t) ->
  onTrack trackId g (onTrack trackId f ts) = onTrack trackId (fun t => g (f t)) ts.
Proof.
  intros Hf. unfold onTrack. rewrite map_map. apply map_ext. intros t.
  destruct (String.eqb (t_id t) trackId) eqn:E; [|rewrite E; reflexivity].
  rewrite Hf, E. reflexivity.
Qed.

Lemma trackExists_onTrack trackId f ts :
  (forall t, t_id (f t) = t_id t) ->
  trackExists (onTrack trackId f ts) trackId = trackExists ts trackId.
Proof.
  intros Hf. unfold trackExists, onTrack.
  induction ts as [|t ts IH]; [reflexivity|]. simpl. rewrite IH. f_equal.
  destruct (String.eqb (t_id t) trackId) eqn:E; [rewrite Hf|]; exact E.
Qed.

(** A response that does not parse to an array makes [generateMidiPattern]
    throw. *)
Lemma generateMidiPattern_malformed clean parse responseText :
  (forall parsed, parse (clean responseText) <> Returned (JArray parsed)) ->
  exists msg, generateMidiPattern clean parse (Returned responseText) = Thrown msg.
Proof.
  intros Hbad. unfold generateMidiPattern, parseGeminiResponse.
  destruct (parse (clean responseText)) as [[| | | |items|]|m];
    try (exfalso; exact (Hbad items eq_refl));
    match goal with |- context [includes ?a ?b] => destruct (includes a b) end;
    eexists; reflexivity.
Qed.

Lemma generateMidiPattern_array clean parse responseText parsed :
  parse (clean responseText) = Returned (JArray parsed) ->
  generateMidiPattern clean parse (Returned responseText)
  = Returned (map toMidiNote (filter (fun p => isValidNote p = true) parsed)).
Proof.
  intros H. unfold generateMidiPattern.
  rewrite (parseGeminiResponse_array clean parse responseText parsed H). reflexivity.
Qed.

(** A failed generation: the error is rethrown, no history changes, and the
    requested track ends with its loading flag cleared and the message
    attached. *)
Lemma handleGeneratePattern_thrown st trackId userPrompt barsToGenerate chained msg :
  let result := handleGeneratePattern st trackId userPrompt barsToGenerate chained
                                      (Thrown msg) in
  map patternHistory (tracks (fst result)) = map patternHistory (tracks st)
  /\ (exists msg', snd result = Some msg'
        /\ (trackExists (tracks st) trackId = true -> msg' = msg)
        /\ forall t, In t (tracks (fst result)) -> t_id t = trackId ->
             isLoading t = false /\ error t = Some msg').
Proof.
  unfold handleGeneratePattern.
  change (tracks (set_tracks st (onTrack trackId withLoading (tracks st))))
    with (onTrack trackId withLoading (tracks st)).
  rewrite trackExists_onTrack by reflexivity.
  assert (Hgen : forall m,
    map patternHistory
      (onTrack trackId (withError m) (onTrack trackId withLoading (tracks st)))
    = map patternHistory (tracks st)
    /\ forall t,
         In t (onTrack trackId (withError m) (onTrack trackId withLoading (tracks st))) ->
         t_id t = trackId -> isLoading t = false /\ error t = Some m).
  { intros m. split.
    - rewrite !onTrack_history; reflexivity.
    - intros t Hin Hid. rewrite onTrack_compose in Hin by reflexivity.
      apply onTrack_In in Hin as (t0 & _ & ->).
      destruct (String.eqb (t_id t0) trackId) eqn:E; [simpl; auto|].
      apply String.eqb_neq in E. contradiction. }
  destruct (trackExists (tracks st) trackId); simpl.
  - destruct (Hgen msg) as [H1 H2]. split; [exact H1|]. exists msg. auto.
  - destruct (Hgen "Cannot read properties of undefined (reading 'type')") as [H1 H2].
    split; [exact H1|]. eexists. split; [reflexivity|]. split; [discriminate|exact H2].
Qed.

(** A successful generation: nothing is thrown and the new pattern is the
    head of the history of the requested track. *)
Lemma handleGeneratePattern_returned st trackId userPrompt barsToGenerate chained notes :
  trackExists (tracks st) trackId = true ->
  let result := handleGeneratePattern st trackId userPrompt barsToGenerate chained
                                      (Returned notes) in
  snd result = None
  /\ forall t, In t (tracks (fst result)) -> t_id t = trackId ->
       head (patternHistory t) = Some (mkEntry (Some notes) barsToGenerate userPrompt)
       /\ isLoading t = false /\ error t = None.
Proof.
  intros He. unfold handleGeneratePattern.
  change (tracks (set_tracks st (onTrack trackId withLoading (tracks st))))
    with (onTrack trackId withLoading (tracks st)).
  rewrite trackExists_onTrack by reflexivity. rewrite He.
  match goal with |- context [if ?c then _ else _] => destruct c end;
    simpl; (split; [reflexivity|]); intros t Hin Hid;
    rewrite onTrack_compose in Hin by reflexivity;
    apply onTrack_In in Hin as (t0 & _ & ->);
    (destruct (String.eqb (t_id t0) trackId) eqn:E;
      [simpl; auto | apply String.eqb_neq in E; contradiction]).
Qed.

(** C7.  The filter keeps exactly the elements that are objects with finite
    numeric fields, pitch and velocity in [0,127], time not negative and
    duration positive.  When the response parses to an array the generation
    returns, without error, one note per valid element and nothing for the
    others, and the new pattern becomes the head of the track's history; the
    sample response with three valid notes and one of pitch 200 gives three
    notes.  When the response does not parse to an array the generation
    throws; the handler rethrows, leaves every pattern history as it was,
    clears the track's loading flag and attaches the message to the track. *)
Theorem invalid_elements_dropped
    (cleanJsonString : string -> string) (JSON_parse : string -> Outcome Json)
    (st : AppState) (trackId userPrompt : string) (barsToGenerate : Z)
    (isChainedGeneration : bool) (responseText : string) :
  trackExists (tracks st) trackId = true ->
  let generated := generateMidiPattern cleanJsonString JSON_parse (Returned responseText) in
  let result := handleGeneratePattern st trackId userPrompt barsToGenerate
                                      isChainedGeneration generated in
  (forall p, isValidNote p = true <-> validNoteSpec p)
  /\ (forall parsed,
        JSON_parse (cleanJsonString responseText) = Returned (JArray parsed) ->
        let kept := filter (fun p => isValidNote p = true) parsed in
        generated = Returned (map toMidiNote kept)
        /\ (forall p, In p kept <-> In p parsed /\ validNoteSpec p)
        /\ snd result = None
        /\ forall t, In t (tracks (fst result)) -> t_id t = trackId ->
             head (patternHistory t)
             = Some (mkEntry (Some (map toMidiNote kept)) barsToGenerate userPrompt)
             /\ isLoading t = false /\ error t = None)
  /\ ((forall parsed,
         JSON_parse (cleanJsonString responseText) <> Returned (JArray parsed)) ->
      exists msg,
        generated = Thrown msg
        /\ snd result = Some msg
        /\ map patternHistory (tracks (fst result)) = map patternHistory (tracks st)
        /\ forall t, In t (tracks (fst result)) -> t_id t = trackId ->
             isLoading t = false /\ error t = Some msg)
  /\ (length sampleParsed = 4%nat
      /\ length (filter (fun p => isValidNote p = true) sampleParsed) = 3%nat
      /\ exists n1 n2 n3,
           parseGeminiResponse sampleClean sampleParse "notes" = Returned [n1; n2; n3]).
Proof.
  intros He generated result.
  split; [exact isValidNote_spec|].
  split.
  { intros parsed Hparse kept.
    assert (Hg : generated = Returned (map toMidiNote kept))
      by (apply generateMidiPattern_array; exact Hparse).
    split; [exact Hg|]. split.
    { intros p. unfold kept. rewrite In_filter_iff, isValidNote_spec. tauto. }
    unfold result. rewrite Hg.
    apply handleGeneratePattern_returned. exact He. }
  split.
  { intros Hbad.
    destruct (generateMidiPattern_malformed cleanJsonString JSON_parse responseText Hbad)
      as [msg Hmsg].
    exists msg. split; [exact Hmsg|]. unfold result.
    replace generated with (@Thrown (list MidiNote) msg) by (symmetry; exact Hmsg).
    pose proof (handleGeneratePattern_thrown st trackId userPrompt barsToGenerate
                  isChainedGeneration msg) as (Hh & msg' & Hs & Heq & Ht).
    rewrite (Heq He) in *. auto. }
  split; [reflexivity|]. split; [vm_compute; reflexivity|].
  do 3 eexists. vm_compute. reflexivity.
Qed.

Lemma invalid_elements_dropped_witness :
  (exists notes,
      generateMidiPattern sampleClean sampleParse (Returned "notes") = Returned notes
      /\ length notes = 3%nat)
  /\ map patternHistory
       (tracks (fst (handleGeneratePattern loadingSession "drum-track-0" "fill" 1 false
                       (generateMidiPattern sampleClean sampleParse (Returned "garbage")))))
     = map patternHistory (tracks loadingSession).
Proof.
  split.
  - destruct (invalid_elements_dropped sampleClean sampleParse loadingSession
                "drum-track-0" "fill" 1 false "notes" eq_refl)
      as (_ & Hok & _ & _).
    destruct (Hok sampleParsed eq_refl) as (Hg & _).
    eexists. split; [exact Hg|]. vm_compute. reflexivity.
  - destruct (invalid_elements_dropped sampleClean sampleParse loadingSession
                "drum-track-0" "fill" 1 false "garbage" eq_refl)
      as (_ & _ & Hbad & _).
    destruct Hbad as (msg & _ & _ & Hh & _); [|exact Hh].
    intros parsed. vm_compute. discriminate.
Defined.

(** * Properties of the rest of the engine *)

(** ** Flushing *)

Lemma allNotesOffOnEveryChannel_spec m :
  In m allNotesOffOnEveryChannel
  <-> exists ch, 0 <= ch < 16 /\ m = mkMsg (0xB0 + ch) 123 0.
Proof.
  unfold allNotesOffOnEveryChannel. rewrite in_map_iff. split.
  - intros (i & <- & Hi). apply in_seq in Hi. exists (Z.of_nat i). split; [lia|reflexivity].
  - intros (ch & Hch & ->). exists (Z.to_nat ch). split.
    + rewrite Z2Nat.id by lia. reflexivity.
    + apply in_seq. lia.
Qed.

Lemma sendAllNotesOff_midi st :
  hasOutput st = true -> isPreviewMode st = false ->
  sendAllNotesOff st = (set_activePlayingNotes st [], flushMessages st).
Proof. intros Ho Hv. unfold sendAllNotesOff. rewrite Ho, Hv. reflexivity. Qed.

Lemma sendAllNotesOff_idle st :
  hasOutput st = false \/ isPreviewMode st = true -> sendAllNotesOff st = (st, []).
Proof.
  intros [H|H]; unfold sendAllNotesOff; rewrite H; [reflexivity|].
  rewrite andb_false_r. reflexivity.
Qed.

(** X1.  In MIDI mode with an output selected, [sendAllNotesOff] empties the
    sounding table and sends, in this order, a note-off for every sounding
    note whose track still exists and then controller 123 on each of the
    sixteen channels; a sounding note of a track that is gone gets no
    note-off of its own.  Without an output, or in preview mode, it sends
    nothing and leaves the state, sounding table included, as it was. *)
Theorem flush_sends_offs_then_controllers (st : AppState) :
  (hasOutput st = true -> isPreviewMode st = false ->
   activePlayingNotes (fst (sendAllNotesOff st)) = []
   /\ exists offs,
        snd (sendAllNotesOff st) = offs ++ allNotesOffOnEveryChannel
        /\ (forall m, In m offs
              <-> exists trackId notes a,
                    In (trackId, notes) (activePlayingNotes st)
                    /\ trackExists (tracks st) trackId = true
                    /\ In a notes /\ m = noteOff a)
        /\ length allNotesOffOnEveryChannel = 16%nat
        /\ (forall ch, 0 <= ch < 16 ->
              In (mkMsg (0xB0 + ch) 123 0) allNotesOffOnEveryChannel))
  /\ (hasOutput st = false \/ isPreviewMode st = true ->
      sendAllNotesOff st = (st, [])).
Proof.
  split; [|apply sendAllNotesOff_idle].
  intros Ho Hv. rewrite (sendAllNotesOff_midi st Ho Hv). cbn [fst snd].
  split; [reflexivity|]. eexists. split; [reflexivity|]. split.
  - intros m. rewrite in_flat_map. split.
    + intros ([trackId notes] & Hin & Hm). cbn [fst snd] in Hm.
      destruct (trackExists (tracks st) trackId) eqn:E; [|destruct Hm].
      apply in_map_iff in Hm as (a & <- & Ha). exists trackId, notes, a. auto.
    + intros (trackId & notes & a & Hin & He & Ha & ->).
      exists (trackId, notes). split; [exact Hin|]. cbn [fst snd]. rewrite He.
      apply in_map. exact Ha.
  - split; [reflexivity|]. intros ch Hch.
    apply allNotesOffOnEveryChannel_spec. exists ch. auto.
Qed.

Lemma flush_sends_offs_then_controllers_witness :
  activePlayingNotes (fst (sendAllNotesOff orphanSession)) = []
  /\ snd (sendAllNotesOff orphanSession)
     = mkMsg 137 36 0 :: allNotesOffOnEveryChannel
  /\ sendAllNotesOff deviceLostSession = (deviceLostSession, []).
Proof.
  destruct (flush_sends_offs_then_controllers orphanSession) as [Hmidi _].
  destruct (Hmidi eq_refl eq_refl) as (Hempty & _).
  split; [exact Hempty|]. split; [reflexivity|].
  apply (proj2 (flush_sends_offs_then_controllers deviceLostSession)).
  left. reflexivity.
Defined.

(** X2.  Flushing twice in a row: the second call finds nothing sounding,
    sends only the sixteen controller messages and returns the state it was
    given. *)
Theorem flush_twice (st : AppState) :
  hasOutput st = true -> isPreviewMode st = false ->
  let flushed := fst (sendAllNotesOff st) in
  sendAllNotesOff flushed = (flushed, allNotesOffOnEveryChannel).
Proof.
  intros Ho Hv flushed. unfold flushed.
  rewrite (sendAllNotesOff_midi st Ho Hv). cbn [fst].
  rewrite sendAllNotesOff_midi by assumption. reflexivity.
Qed.

Lemma flush_twice_witness :
  snd (sendAllNotesOff (fst (sendAllNotesOff soundingSession)))
  = allNotesOffOnEveryChannel.
Proof.
  pose proof (flush_twice soundingSession eq_refl eq_refl) as H.
  cbv zeta in H. rewrite H. reflexivity.
Defined.

(** ** Steps without a device, and the step counter *)

Lemma processMidiStep_idle st step :
  isPreviewMode st = true \/ hasOutput st = false ->
  processMidiStep st step = (st, []).
Proof.
  intros H. unfold processMidiStep.
  replace (isPreviewMode st || negb (hasOutput st)) with true; [reflexivity|].
  destruct H as [-> | ->]; [reflexivity|]. rewrite orb_true_r. reflexivity.
Qed.

Lemma applyPendingSwitches_silent st :
  hasOutput st = false ->
  snd (applyPendingSwitches st) = []
  /\ activePlayingNotes (fst (applyPendingSwitches st)) = activePlayingNotes st.
Proof.
  intros Ho. unfold applyPendingSwitches.
  destruct (pendingPatternHistorySwitch st); [|auto].
  rewrite Ho, andb_false_r. auto.
Qed.

(** The scheduler step in full, for a running internal clock. *)
Lemma schedulerStep_unfold st :
  isPlaying st = true -> isExternalClock st = false -> isPreviewMode st = false ->
  let st2 := set_absoluteStep (fst (processMidiStep st (absoluteStep st)))
                              (absoluteStep st + 1) in
  schedulerStep st
  = if negb (anyTrackChaining (tracks st))
       && atLoopBoundary (loopEndStepForNormalMode st) (absoluteStep st)
       && pendingNonEmpty (pendingPatternHistorySwitch st)
    then (fst (applyPendingSwitches st2),
          snd (processMidiStep st (absoluteStep st)) ++ snd (applyPendingSwitches st2))
    else (st2, snd (processMidiStep st (absoluteStep st))).
Proof.
  intros Hp He Hv. unfold schedulerStep. rewrite Hp, He, Hv. cbn [negb orb].
  destruct (processMidiStep_frame st (absoluteStep st)) as [active Ha].
  destruct (processMidiStep st (absoluteStep st)) as [st1 out1].
  cbn [fst snd] in *. subst st1. cbv zeta.
  change (tracks (set_absoluteStep (set_activePlayingNotes st active) (absoluteStep st + 1)))
    with (tracks st).
  change (loopEndStepForNormalMode
            (set_absoluteStep (set_activePlayingNotes st active) (absoluteStep st + 1)))
    with (loopEndStepForNormalMode st).
  change (pendingPatternHistorySwitch
            (set_absoluteStep (set_activePlayingNotes st active) (absoluteStep st + 1)))
    with (pendingPatternHistorySwitch st).
  destruct (negb (anyTrackChaining (tracks st))
            && atLoopBoundary (loopEndStepForNormalMode st) (absoluteStep st)
            && pendingNonEmpty (pendingPatternHistorySwitch st)); [|reflexivity].
  destruct (applyPendingSwitches _) as [st3 out2]. reflexivity.
Qed.

Lemma pendingNonEmpty_some p :
  pendingNonEmpty p = true -> exists m, p = Some m /\ m <> ∅.
Proof.
  destruct p as [m|]; [|discriminate]. simpl. intros H.
  exists m. split; [reflexivity|].
  apply negb_true_iff, bool_decide_eq_false in H. exact H.
Qed.

(** X3.  With the internal clock running in MIDI mode but no output
    selected, a due step sends nothing and leaves the sounding table alone,
    yet the step counter advances by one, and pending switches are still
    applied, and the pending map emptied, when the step is the last of the
    shared loop. *)
Theorem step_without_output (st : AppState) :
  isPlaying st = true -> isExternalClock st = false -> isPreviewMode st = false ->
  hasOutput st = false ->
  let st' := fst (schedulerStep st) in
  snd (schedulerStep st) = []
  /\ absoluteStep st' = absoluteStep st + 1
  /\ activePlayingNotes st' = activePlayingNotes st
  /\ (anyTrackChaining (tracks st) = false ->
      atLoopBoundary (loopEndStepForNormalMode st) (absoluteStep st) = true ->
      forall m, pendingPatternHistorySwitch st = Some m -> m <> ∅ ->
        tracks st' = map (applySwitch m) (tracks st)
        /\ pendingPatternHistorySwitch st' = Some ∅).
Proof.
  intros Hp He Hv Ho st'. unfold st'.
  rewrite (schedulerStep_unfold st Hp He Hv).
  rewrite (processMidiStep_idle st (absoluteStep st)) by auto. cbn [fst snd].
  set (st2 := set_absoluteStep st (absoluteStep st + 1)).
  destruct (applyPendingSwitches_silent st2 Ho) as [Hs Ha].
  pose proof (applyPendingSwitches_transport st2) as (_ & _ & _ & _ & _ & Habs).
  repeat split.
  - destruct (_ && _ && _); cbn [snd]; [exact Hs|reflexivity].
  - destruct (_ && _ && _); cbn [fst]; [exact Habs|reflexivity].
  - destruct (_ && _ && _); cbn [fst]; [exact Ha|reflexivity].
  - rewrite H, H0. rewrite H1. cbn [negb andb].
    replace (pendingNonEmpty (Some m)) with true.
    + cbn [fst]. exact (proj1 (applyPendingSwitches_some st2 m H1)).
    + symmetry. apply negb_true_iff, bool_decide_eq_false. exact H2.
  - rewrite H, H0. rewrite H1. cbn [negb andb].
    replace (pendingNonEmpty (Some m)) with true.
    + cbn [fst]. exact (proj1 (proj2 (applyPendingSwitches_some st2 m H1))).
    + symmetry. apply negb_true_iff, bool_decide_eq_false. exact H2.
Qed.

Lemma step_without_output_witness :
  snd (schedulerStep deviceLostSession) = []
  /\ absoluteStep (fst (schedulerStep deviceLostSession)) = 5
  /\ activePlayingNotes (fst (schedulerStep deviceLostSession))
     = activePlayingNotes deviceLostSession.
Proof.
  destruct (step_without_output deviceLostSession eq_refl eq_refl eq_refl eq_refl)
    as (H1 & H2 & H3 & _).
  split; [exact H1|]. split; [exact H2|exact H3].
Defined.

Lemma schedulerStep_transport st :
  isPlaying st = true -> isExternalClock st = false -> isPreviewMode st = false ->
  let s' := fst (schedulerStep st) in
  isPlaying s' = true /\ isExternalClock s' = false /\ isPreviewMode s' = false
  /\ absoluteStep s' = absoluteStep st + 1
  /\ hasOutput s' = hasOutput st.
Proof.
  intros Hp He Hv. destruct (schedulerStep_running st Hp He Hv) as [active Hs].
  cbv zeta in *. rewrite Hs.
  set (st2 := set_absoluteStep (set_activePlayingNotes st active) (absoluteStep st + 1)).
  destruct (_ && _ && _); [|simpl; auto].
  pose proof (applyPendingSwitches_transport st2) as (T1 & T2 & _ & T4 & _ & T6).
  cbv zeta in *. rewrite T1, T2, T4, T6. simpl.
  repeat split; auto.
  unfold applyPendingSwitches.
  destruct (pendingPatternHistorySwitch st2); [|reflexivity].
  destruct (negb (isPreviewMode st2) && hasOutput st2); reflexivity.
Qed.

Lemma applySwitch_id sw t : t_id (applySwitch sw t) = t_id t.
Proof. unfold applySwitch. destruct (switchTarget sw t); reflexivity. Qed.

Lemma schedulerStep_ids st :
  map t_id (tracks (fst (schedulerStep st))) = map t_id (tracks st).
Proof.
  unfold schedulerStep.
  destruct (negb (isPlaying st) || isExternalClock st || isPreviewMode st); [reflexivity|].
  destruct (processMidiStep st (absoluteStep st)) as [st1 out1] eqn:E1.
  assert (Ht : tracks st1 = tracks st).
  { pose proof (processMidiStep_tracks st (absoluteStep st)) as H. rewrite E1 in H. exact H. }
  match goal with |- context [if ?c then _ else _] => destruct c end.
  - set (st2 := set_absoluteStep st1 (absoluteStep st + 1)).
    assert (H : map t_id (tracks (fst (applyPendingSwitches st2))) = map t_id (tracks st2)).
    { unfold applyPendingSwitches.
      destruct (pendingPatternHistorySwitch st2) as [sw|]; [|reflexivity].
      destruct (negb (isPreviewMode st2) && hasOutput st2); simpl;
        rewrite map_map; apply map_ext; intros t; apply applySwitch_id. }
    destruct (applyPendingSwitches st2) as [st3 out2]. simpl in *. rewrite H, Ht. reflexivity.
  - simpl. rewrite Ht. reflexivity.
Qed.

Lemma runScheduler_S n st :
  runScheduler (S n) st = fst (schedulerStep (runScheduler n st)).
Proof. reflexivity. Qed.

(** X4.  While the internal clock runs, [n] due steps advance the step
    counter by exactly [n], whether or not a loop boundary is crossed or
    switches are applied on the way; the transport stays playing, and the
    tracks keep their identities and their pattern histories. *)
Theorem scheduler_counts_steps (st : AppState) (n : nat) :
  isPlaying st = true -> isExternalClock st = false -> isPreviewMode st = false ->
  let s' := runScheduler n st in
  absoluteStep s' = absoluteStep st + Z.of_nat n
  /\ isPlaying s' = true /\ isExternalClock s' = false /\ isPreviewMode s' = false
  /\ map t_id (tracks s') = map t_id (tracks st)
  /\ map patternHistory (tracks s') = map patternHistory (tracks st).
Proof.
  intros Hp He Hv. cbv zeta. induction n as [|n IH].
  - simpl. rewrite Z.add_0_r. auto 10.
  - destruct IH as (I1 & I2 & I3 & I4 & I5 & I6).
    rewrite runScheduler_S.
    pose proof (schedulerStep_transport (runScheduler n st) I2 I3 I4)
      as (T1 & T2 & T3 & T4 & _).
    cbv zeta in *. rewrite T4, I1, schedulerStep_ids, schedulerStep_history, I5, I6.
    repeat split; auto. lia.
Qed.

Lemma scheduler_counts_steps_witness :
  absoluteStep (runScheduler 40 scenarioSession) = 48
  /\ map t_id (tracks (runScheduler 40 scenarioSession)) = ["drum-track-0"].
Proof.
  destruct (scheduler_counts_steps scenarioSession 40 eq_refl eq_refl eq_refl)
    as (H1 & _ & _ & _ & H5 & _).
  split; [exact H1|exact H5].
Defined.

(** ** The table of sounding notes *)

Lemma omap_get_head {V} k k' (v : V) m :
  String.eqb k k' = true -> omap_get k ((k', v) :: m) = Some v.
Proof. intros E. simpl. rewrite E. reflexivity. Qed.

Lemma omap_set_In {V} k (v : V) m : In (k, v) (omap_set k v m).
Proof.
  induction m as [|[k' v'] m IH]; simpl; [auto|].
  destruct (String.eqb k k'); simpl; auto.
Qed.

(** Appending to the set of one track keeps every note of every set. *)
Lemma omap_append_keeps {V} k0 (new : list V) m k v a :
  In (k, v) m -> In a v ->
  exists v', In (k, v') (omap_set k0 (default [] (omap_get k0 m) ++ new) m)
             /\ In a v'.
Proof.
  induction m as [|[k1 v1] m IH]; intros Hin Ha; [destruct Hin|].
  simpl. destruct (String.eqb k0 k1) eqn:E.
  - simpl. destruct Hin as [Heq|Hin].
    + injection Heq as -> ->. apply String.eqb_eq in E. subst k0.
      exists (v ++ new). split; [left; reflexivity|]. apply in_or_app. auto.
    + exists v. split; [right; exact Hin|exact Ha].
  - destruct Hin as [Heq|Hin].
    + injection Heq as -> ->. exists v. split; [left; reflexivity|exact Ha].
    + destruct (IH Hin Ha) as (v' & Hv' & Ha'). exists v'. split; [right; exact Hv'|exact Ha'].
Qed.

Lemma processTrack_keeps st step track active k v a :
  In (k, v) active -> In a v ->
  exists v', In (k, v') (snd (processTrack st step track active)) /\ In a v'.
Proof.
  intros Hin Ha. unfold processTrack.
  destruct (isMuted track); [exists v; auto|].
  destruct (resolvePattern st track step) as [[p|] l]; [|exists v; auto].
  cbn [snd]. exact (omap_append_keeps _ _ _ k v a Hin Ha).
Qed.

Lemma processTracks_keeps st step ts :
  forall active k v a, In (k, v) active -> In a v ->
    exists v', In (k, v') (snd (processTracks st step ts active)) /\ In a v'.
Proof.
  induction ts as [|track ts IH]; intros active k v a Hin Ha; [exists v; auto|].
  simpl. destruct (processTrack_keeps st step track active k v a Hin Ha) as (v1 & H1 & Ha1).
  destruct (processTrack st step track active) as [out1 active1]. cbn [snd] in H1.
  destruct (IH active1 k v1 a H1 Ha1) as (v2 & H2 & Ha2).
  destruct (processTracks st step ts active1) as [out2 active2]. cbn [snd] in *.
  exists v2. auto.
Qed.

(** The messages of a track do not depend on the sounding table. *)
Lemma processTrack_messages_indep st step track active active' :
  fst (processTrack st step track active) = fst (processTrack st step track active').
Proof.
  unfold processTrack. destruct (isMuted track); [reflexivity|].
  destruct (resolvePattern st track step) as [[p|] l]; reflexivity.
Qed.

Lemma processTrack_books st step track active p l n :
  isMuted track = false ->
  resolvePattern st track step = (Some p, l) ->
  In n p -> Math_floor (time n * 4) = l ->
  In (noteOn track n) (fst (processTrack st step track active))
  /\ exists notes,
       In (t_id track, notes) (snd (processTrack st step track active))
       /\ In (soundingOf track step n) notes.
Proof.
  intros Hm Hr Hn Hs. unfold processTrack. rewrite Hm, Hr. cbn [fst snd].
  assert (Hstart : In n (filter (fun n0 => startsAt l n0 = true) p)).
  { apply In_filter_iff. split; [|exact Hn]. unfold startsAt. apply Z.eqb_eq. exact Hs. }
  split.
  - apply in_or_app. left. apply in_map. exact Hstart.
  - eexists. split; [apply (omap_set_In (t_id track))|].
    apply in_or_app. right. apply in_map. exact Hstart.
Qed.

Lemma processTracks_books st step ts :
  forall active track p l n,
    In track ts -> isMuted track = false ->
    resolvePattern st track step = (Some p, l) ->
    In n p -> Math_floor (time n * 4) = l ->
    In (noteOn track n) (fst (processTracks st step ts active))
    /\ exists notes,
         In (t_id track, notes) (snd (processTracks st step ts active))
         /\ In (soundingOf track step n) notes.
Proof.
  induction ts as [|t ts IH]; intros active track p l n Hin Hm Hr Hn Hs; [destruct Hin|].
  simpl. destruct Hin as [->|Hin].
  - destruct (processTrack_books st step track active p l n Hm Hr Hn Hs)
      as (Hon & notes & Hnotes & Ha).
    destruct (processTrack st step track active) as [out1 active1]. cbn [fst snd] in *.
    destruct (processTracks_keeps st step ts active1 _ _ _ Hnotes Ha) as (v' & Hv' & Ha').
    destruct (processTracks st step ts active1) as [out2 active2]. cbn [fst snd] in *.
    split; [apply in_or_app; left; exact Hon|]. exists v'. auto.
  - destruct (processTrack st step t active) as [out1 active1].
    destruct (IH active1 track p l n Hin Hm Hr Hn Hs) as (Hon & notes & Hnotes & Ha).
    destruct (processTracks st step ts active1) as [out2 active2]. cbn [fst snd] in *.
    split; [apply in_or_app; right; exact Hon|]. exists notes. auto.
Qed.

(** X5.  In MIDI mode with an output, for an unmuted track of the session
    whose pattern resolves at local step [l], every note of the pattern with
    [floor(time*4) = l] has its note-on among the messages of the step, and
    after the step it is in the sounding set of the track with the pitch
    sent, the channel of the track and the off step
    [step + floor(duration*4)]. *)
Theorem triggered_note_is_booked (st : AppState) (step : Z) (track : Track)
    (p : list MidiNote) (l : Z) (n : MidiNote) :
  isPreviewMode st = false -> hasOutput st = true ->
  In track (tracks st) -> isMuted track = false ->
  resolvePattern st track step = (Some p, l) ->
  In n p -> Math_floor (time n * 4) = l ->
  In (noteOn track n) (snd (processMidiStep st step))
  /\ sounding (fst (processMidiStep st step)) (t_id track)
       (mkActive (finalNoteOf track n) (step + Math_floor (duration n * 4))
                 (channel track)).
Proof.
  intros Hv Ho Hin Hm Hr Hn Hs.
  rewrite (processMidiStep_midi st step Hv Ho). cbn [fst snd].
  destruct (processTracks_books st step (tracks st)
              (snd (releaseExpired step (activePlayingNotes st)))
              track p l n Hin Hm Hr Hn Hs) as (Hon & notes & Hnotes & Ha).
  split; [apply in_or_app; right; exact Hon|].
  exists notes. split; [exact Hnotes|exact Ha].
Qed.

Lemma triggered_note_is_booked_witness :
  In (mkMsg 153 40 100) (snd (processMidiStep shortNoteSession 0))
  /\ sounding (fst (processMidiStep shortNoteSession 0)) "drum-track-0"
       (mkActive 40 0 10).
Proof.
  apply (triggered_note_is_booked shortNoteSession 0 shortNoteTrack [shortNote] 0 shortNote);
    try reflexivity; simpl; auto.
Defined.

Lemma releaseExpired_keeps step active k v a :
  In (k, v) active -> In a v -> absoluteOffStep a <> step ->
  exists v', In (k, v') (snd (releaseExpired step active)) /\ In a v'.
Proof.
  intros Hin Ha Hne. unfold releaseExpired. cbn [snd].
  exists (filter (fun a0 => expiresAt step a0 = false) v). split.
  - apply in_map_iff. exists (k, v). auto.
  - apply In_filter_iff. split; [|exact Ha]. apply expiresAt_false. exact Hne.
Qed.

Lemma processMidiStep_keeps st step k a :
  sounding st k a -> absoluteOffStep a <> step ->
  sounding (fst (processMidiStep st step)) k a.
Proof.
  intros (v & Hin & Ha) Hne. unfold sounding, processMidiStep.
  destruct (isPreviewMode st || negb (hasOutput st)); [exists v; auto|].
  destruct (releaseExpired_keeps step (activePlayingNotes st) k v a Hin Ha Hne)
    as (v1 & H1 & Ha1).
  destruct (releaseExpired step (activePlayingNotes st)) as [offs active1].
  cbn [snd] in H1.
  destruct (processTracks_keeps st step (tracks st) active1 k v1 a H1 Ha1)
    as (v2 & H2 & Ha2).
  destruct (processTracks st step (tracks st) active1) as [ons active2].
  cbn [fst snd] in *. exists v2. auto.
Qed.

Lemma emitSteps_keeps n :
  forall st from k a,
    sounding st k a -> absoluteOffStep a < from ->
    sounding (emitSteps st from n) k a.
Proof.
  induction n as [|n IH]; intros st from k a Hs Hlt; [exact Hs|].
  simpl. apply IH; [|lia]. apply processMidiStep_keeps; [exact Hs|lia].
Qed.

(** X6.  Emitting a step never drops a sounding note that is not due at that
    step.  Hence a note whose off step already lies behind the step counter
    keeps sounding through any number of further steps: step processing
    alone never releases it.  A note shorter than a quarter of a beat, booked
    with the step at which it was triggered as its off step, is in that
    position from the next step on. *)
Theorem undue_note_keeps_sounding (st : AppState) (trackId : string)
    (a : ActiveMidiNote) :
  sounding st trackId a ->
  (forall step, absoluteOffStep a <> step ->
     sounding (fst (processMidiStep st step)) trackId a)
  /\ (forall from n, absoluteOffStep a < from ->
        sounding (emitSteps st from n) trackId a).
Proof.
  intros Hs. split.
  - intros step Hne. apply processMidiStep_keeps; assumption.
  - intros from n Hlt. apply emitSteps_keeps; assumption.
Qed.

Lemma undue_note_keeps_sounding_witness :
  sounding (emitSteps (fst (processMidiStep shortNoteSession 0)) 1 64)
           "drum-track-0" (mkActive 40 0 10).
Proof.
  assert (Hs : sounding (fst (processMidiStep shortNoteSession 0)) "drum-track-0"
                 (mkActive 40 0 10)).
  { exists [mkActive 40 0 10]. split; vm_compute; auto. }
  apply (proj2 (undue_note_keeps_sounding _ _ _ Hs) 1 64%nat). simpl. lia.
Defined.

(** ** Muting *)

Lemma omap_get_set_eq {V} k (v : V) m : omap_get k (omap_set k v m) = Some v.
Proof.
  induction m as [|[k' v'] m IH]; simpl.
  - rewrite String.eqb_refl. reflexivity.
  - destruct (String.eqb k k') eqn:E; simpl; [rewrite String.eqb_refl|rewrite E]; auto.
Qed.

Lemma omap_get_set_ne {V} k k' (v : V) m :
  k <> k' -> omap_get k' (omap_set k v m) = omap_get k' m.
Proof.
  intros Hne. induction m as [|[k1 v1] m IH]; simpl.
  - replace (String.eqb k' k) with false; [reflexivity|].
    symmetry. apply String.eqb_neq. congruence.
  - destruct (String.eqb k k1) eqn:E; simpl.
    + apply String.eqb_eq in E. subst k1.
      replace (String.eqb k' k) with false; [reflexivity|].
      symmetry. apply String.eqb_neq. congruence.
    + rewrite IH. reflexivity.
Qed.

Lemma findTrack_only ts before after t :
  onlyTrackWithId ts before after t -> findTrack ts (t_id t) = Some t.
Proof.
  intros (-> & Hb & _). unfold findTrack.
  induction before as [|u before IH]; simpl.
  - rewrite String.eqb_refl. reflexivity.
  - rewrite (Hb u) by (left; reflexivity). apply IH.
    intros u' Hu'. apply Hb. right. exact Hu'.
Qed.

Lemma toggleMuteTracks_others st trackId ts active :
  (forall u, In u ts -> String.eqb (t_id u) trackId = false) ->
  toggleMuteTracks st trackId ts active = (ts, ([], active)).
Proof.
  induction ts as [|u ts IH]; intros H; [reflexivity|].
  simpl. rewrite (H u) by (left; reflexivity).
  rewrite IH by (intros u' Hu'; apply H; right; exact Hu'). reflexivity.
Qed.

Lemma toggleMuteTracks_skip st trackId before ts active :
  (forall u, In u before -> String.eqb (t_id u) trackId = false) ->
  toggleMuteTracks st trackId (before ++ ts) active
  = (before ++ fst (toggleMuteTracks st trackId ts active),
     snd (toggleMuteTracks st trackId ts active)).
Proof.
  induction before as [|u before IH]; intros H.
  - simpl. destruct (toggleMuteTracks st trackId ts active) as [a [b c]]. reflexivity.
  - simpl. rewrite (H u) by (left; reflexivity).
    rewrite IH by (intros u' Hu'; apply H; right; exact Hu').
    destruct (toggleMuteTracks st trackId ts active) as [a [b c]]. reflexivity.
Qed.

(** The sounding table after the notes of one track have been flushed. *)
Lemma handleToggleTrackMute_only st before after t :
  onlyTrackWithId (tracks st) before after t ->
  isPreviewMode st = false -> hasOutput st = true ->
  handleToggleTrackMute st (t_id t)
  = if isMuted t
    then (set_tracks st (before ++ withMuted false t :: after), [])
    else (set_activePlayingNotes
            (set_tracks st (before ++ withMuted true t :: after))
            (match omap_get (t_id t) (activePlayingNotes st) with
             | Some _ => omap_set (t_id t) [] (activePlayingNotes st)
             | None => activePlayingNotes st
             end),
          map noteOff (default [] (omap_get (t_id t) (activePlayingNotes st)))
          ++ [mkMsg (0xB0 + (channel t - 1)) 123 0]).
Proof.
  intros Honly Hv Ho. pose proof (findTrack_only _ _ _ _ Honly) as Hfind.
  destruct Honly as (Hts & Hb & Ha).
  unfold handleToggleTrackMute. rewrite Hts at 1.
  rewrite (toggleMuteTracks_skip st (t_id t) before (t :: after)) by exact Hb.
  simpl. rewrite String.eqb_refl, Hv.
  destruct (isMuted t) eqn:Hm; cbn [negb].
  - rewrite (toggleMuteTracks_others st (t_id t) after) by exact Ha.
    cbn [fst snd]. reflexivity.
  - unfold flushTrackOnMute. rewrite Hfind, Ho.
    destruct (omap_get (t_id t) (activePlayingNotes st)) as [notes|];
      rewrite (toggleMuteTracks_others st (t_id t) after) by exact Ha;
      cbn [fst snd default]; rewrite app_nil_r; reflexivity.
Qed.

(** X7.  In MIDI mode with an output, toggling the mute of the one track
    with a given identifier flips its flag and touches no other track.  When
    the track becomes muted, the messages sent are a note-off for each of its
    sounding notes followed by controller 123 on its channel, its sounding
    set is left empty and the sets of the other tracks are unchanged; from
    then on the track sends nothing when a step is emitted.  When the track
    becomes unmuted nothing is sent. *)
Theorem mute_flushes_the_track (st : AppState) (before after : list Track) (t : Track) :
  onlyTrackWithId (tracks st) before after t ->
  isPreviewMode st = false -> hasOutput st = true ->
  let '(st', out) := handleToggleTrackMute st (t_id t) in
  tracks st' = before ++ withMuted (negb (isMuted t)) t :: after
  /\ (isMuted t = true ->
      out = [] /\ activePlayingNotes st' = activePlayingNotes st)
  /\ (isMuted t = false ->
      out = map noteOff (default [] (omap_get (t_id t) (activePlayingNotes st)))
            ++ [mkMsg (0xB0 + (channel t - 1)) 123 0]
      /\ default [] (omap_get (t_id t) (activePlayingNotes st')) = []
      /\ (forall k, k <> t_id t ->
            omap_get k (activePlayingNotes st') = omap_get k (activePlayingNotes st))
      /\ forall step active,
           processTrack st' step (withMuted true t) active = ([], active)).
Proof.
  intros Honly Hv Ho.
  rewrite (handleToggleTrackMute_only st before after t Honly Hv Ho).
  destruct (isMuted t) eqn:Hm; cbn [negb].
  - split; [reflexivity|]. split; [auto|discriminate].
  - split; [reflexivity|]. split; [discriminate|]. intros _.
    split; [reflexivity|]. cbn [activePlayingNotes set_activePlayingNotes].
    split.
    { destruct (omap_get (t_id t) (activePlayingNotes st)) eqn:E.
      - rewrite omap_get_set_eq. reflexivity.
      - rewrite E. reflexivity. }
    split.
    { intros k Hk. destruct (omap_get (t_id t) (activePlayingNotes st)); [|reflexivity].
      apply omap_get_set_ne. congruence. }
    intros step active. reflexivity.
Qed.

Lemma mute_flushes_the_track_witness :
  snd (handleToggleTrackMute soundingSession "synth-track-1")
  = [mkMsg 128 127 0; mkMsg 176 123 0]
  /\ map isMuted (tracks (fst (handleToggleTrackMute soundingSession "synth-track-1")))
     = [false; true].
Proof.
  assert (Honly : onlyTrackWithId (tracks soundingSession) [drumTrack] [] synthTrack).
  { split; [reflexivity|]. split; intros u Hu; simpl in Hu.
    - destruct Hu as [<-|[]]. reflexivity.
    - destruct Hu. }
  pose proof (mute_flushes_the_track soundingSession [drumTrack] [] synthTrack
                Honly eq_refl eq_refl) as H.
  change (t_id synthTrack) with "synth-track-1" in H.
  destruct (handleToggleTrackMute soundingSession "synth-track-1") as [st' out].
  destruct H as (Ht & _ & Hmute). destruct (Hmute eq_refl) as (Hout & _).
  cbn [fst snd]. split; [rewrite Hout; reflexivity|]. rewrite Ht. reflexivity.
Defined.

(** X8.  A note shorter than a quarter of a beat is never released by step
    processing: triggered at [step], it is booked with [step] itself as its
    off step, after the release loop of that step has run, and it is still
    in the sounding set of its track after any number of further steps. *)
Theorem short_note_is_never_released (st : AppState) (step : Z) (track : Track)
    (p : list MidiNote) (l : Z) (n : MidiNote) (k : nat) :
  isPreviewMode st = false -> hasOutput st = true ->
  In track (tracks st) -> isMuted track = false ->
  resolvePattern st track step = (Some p, l) ->
  In n p -> Math_floor (time n * 4) = l ->
  Math_floor (duration n * 4) = 0 ->
  sounding (emitSteps (fst (processMidiStep st step)) (step + 1) k) (t_id track)
           (mkActive (finalNoteOf track n) step (channel track)).
Proof.
  intros Hv Ho Hin Hm Hr Hn Hs Hd.
  apply emitSteps_keeps; [|simpl; lia].
  rewrite (processMidiStep_midi st step Hv Ho). cbn [fst].
  destruct (processTracks_books st step (tracks st)
              (snd (releaseExpired step (activePlayingNotes st)))
              track p l n Hin Hm Hr Hn Hs) as (_ & notes & Hnotes & Ha).
  exists notes. split; [exact Hnotes|].
  unfold soundingOf in Ha. rewrite Hd, Z.add_0_r in Ha. exact Ha.
Qed.

Lemma short_note_is_never_released_witness :
  sounding (emitSteps (fst (processMidiStep shortNoteSession 0)) 1 32)
           "drum-track-0" (mkActive 40 0 10).
Proof.
  apply (short_note_is_never_released shortNoteSession 0 shortNoteTrack
           [shortNote] 0 shortNote 32);
    try reflexivity; simpl; auto.
Defined.

(** ** Applying pending switches *)

Lemma omap_get_delete_ne {V} k k' (m : list (string * V)) :
  k <> k' -> omap_get k' (omap_delete k m) = omap_get k' m.
Proof.
  intros Hne. induction m as [|[k1 v1] m IH]; [reflexivity|]. simpl.
  destruct (String.eqb k k1) eqn:E.
  - apply String.eqb_eq in E. subst k1.
    replace (String.eqb k' k) with false; [reflexivity|].
    symmetry. apply String.eqb_neq. congruence.
  - simpl. rewrite IH. reflexivity.
Qed.

Lemma dropSwitchedNotes_other (sw : gmap string Z) ts :
  forall active k,
    (forall t, In t ts -> t_id t = k -> switchTarget sw t = None) ->
    omap_get k (dropSwitchedNotes sw ts active) = omap_get k active.
Proof.
  unfold dropSwitchedNotes.
  induction ts as [|t ts IH]; intros active k H; [reflexivity|]. simpl.
  rewrite IH by (intros t' Ht'; apply H; right; exact Ht').
  destruct (switchTarget sw t) eqn:E; [|reflexivity].
  apply omap_get_delete_ne. intros Heq.
  rewrite (H t (or_introl eq_refl) Heq) in E. discriminate.
Qed.

Lemma switchTarget_valid (sw : gmap string Z) t i :
  switchTarget sw t = Some i
  <-> sw !! t_id t = Some i /\ 0 <= i < Z.of_nat (length (patternHistory t)).
Proof.
  unfold switchTarget. destruct (sw !! t_id t) as [j|]; [|split; [discriminate|intros [? _]; discriminate]].
  destruct (Z.leb_spec 0 j), (Z.ltb_spec j (Z.of_nat (length (patternHistory t)))); simpl;
    split; try discriminate; try (intros [Heq ?]; injection Heq as ->; lia).
  - intros Heq. injection Heq as ->. auto.
  - intros [Heq _]. exact Heq.
Qed.

Lemma omap_get_None {V} k (m : list (string * V)) :
  omap_get k m = None <-> ~ In k (map fst m).
Proof.
  induction m as [|[k' v] m IH]; simpl; [tauto|].
  destruct (String.eqb_spec k k') as [->|Hne].
  - split; [discriminate|]. intros H. exfalso. apply H. left. reflexivity.
  - rewrite IH. split; [intros H [Heq|Hin]; [congruence|auto]|auto].
Qed.

Lemma omap_delete_keys {V} k k' (m : list (string * V)) :
  In k' (map fst (omap_delete k m)) -> In k' (map fst m).
Proof.
  induction m as [|[k0 v] m IH]; simpl; [tauto|].
  destruct (String.eqb k k0); simpl; [auto|]. intros [H|H]; auto.
Qed.

Lemma omap_delete_NoDup {V} k (m : list (string * V)) :
  List.NoDup (map fst m) -> List.NoDup (map fst (omap_delete k m)).
Proof.
  induction m as [|[k0 v] m IH]; simpl; [auto|].
  intros Hnd. inversion Hnd as [|? ? Hnotin Hrest]; subst.
  destruct (String.eqb k k0); [exact Hrest|].
  simpl. constructor; [|apply IH; exact Hrest].
  intros Hin. apply Hnotin. exact (omap_delete_keys k k0 m Hin).
Qed.

Lemma omap_get_delete_eq {V} k (m : list (string * V)) :
  List.NoDup (map fst m) -> omap_get k (omap_delete k m) = None.
Proof.
  induction m as [|[k0 v] m IH]; simpl; [reflexivity|].
  intros Hnd. inversion Hnd as [|? ? Hnotin Hrest]; subst.
  destruct (String.eqb_spec k k0) as [->|Hne].
  - apply omap_get_None. exact Hnotin.
  - simpl. destruct (String.eqb_spec k k0); [congruence|]. apply IH. exact Hrest.
Qed.

Lemma omap_get_delete_gone {V} k k' (m : list (string * V)) :
  omap_get k m = None -> omap_get k (omap_delete k' m) = None.
Proof.
  rewrite !omap_get_None. intros H Hin. apply H. exact (omap_delete_keys k' k m Hin).
Qed.

Lemma dropSwitchedNotes_gone (sw : gmap string Z) ts :
  forall active k,
    omap_get k active = None -> omap_get k (dropSwitchedNotes sw ts active) = None.
Proof.
  unfold dropSwitchedNotes.
  induction ts as [|t ts IH]; intros active k H; [exact H|]. simpl.
  apply IH. destruct (switchTarget sw t); [|exact H].
  apply omap_get_delete_gone. exact H.
Qed.

Lemma dropSwitchedNotes_switched (sw : gmap string Z) ts :
  forall active t,
    List.NoDup (map fst active) -> In t ts -> switchTarget sw t <> None ->
    omap_get (t_id t) (dropSwitchedNotes sw ts active) = None.
Proof.
  induction ts as [|u ts IH]; intros active t Hnd Hin Hsw; [destruct Hin|].
  destruct Hin as [->|Hin].
  - unfold dropSwitchedNotes. simpl.
    destruct (switchTarget sw t) eqn:E; [|congruence].
    apply (dropSwitchedNotes_gone sw ts). apply omap_get_delete_eq. exact Hnd.
  - unfold dropSwitchedNotes. simpl. fold (dropSwitchedNotes sw ts).
    destruct (switchTarget sw u).
    + apply IH; [apply omap_delete_NoDup; exact Hnd|exact Hin|exact Hsw].
    + apply IH; assumption.
Qed.

(** X9.  When the pending switches are applied in MIDI mode, a track whose
    pending index is an index of its history gets that index and a cleared
    error and keeps every other field; a track with no pending entry, or
    with an index outside its history, is left exactly as it was, and the
    sounding notes stored under an identifier that no switched track bears
    are untouched.  The entry of a switched track is deleted from the table
    of sounding notes, and not one message is sent for it: no note-off, and
    no controller 123 either, because the set of channels to reset is still
    empty when the block iterates it.  The notes of a switched track that
    were sounding are thus forgotten by the sequencer without having been
    silenced.  The pending map is empty afterwards, whatever it held. *)
Theorem switch_spares_other_tracks (st : AppState) (m : gmap string Z) :
  pendingPatternHistorySwitch st = Some m ->
  isPreviewMode st = false -> hasOutput st = true ->
  let '(st', out) := applyPendingSwitches st in
  tracks st' = map (applySwitch m) (tracks st)
  /\ pendingPatternHistorySwitch st' = Some ∅
  /\ (forall t i, m !! t_id t = Some i ->
        0 <= i < Z.of_nat (length (patternHistory t)) ->
        applySwitch m t = withCurrentPatternIndex t i)
  /\ (forall t, m !! t_id t = None -> applySwitch m t = t)
  /\ (forall t i, m !! t_id t = Some i ->
        i < 0 \/ Z.of_nat (length (patternHistory t)) <= i ->
        applySwitch m t = t)
  /\ (forall k, (forall t, In t (tracks st) -> t_id t = k -> switchTarget m t = None) ->
        omap_get k (activePlayingNotes st') = omap_get k (activePlayingNotes st))
  /\ (List.NoDup (map fst (activePlayingNotes st)) ->
      forall t, In t (tracks st) -> switchTarget m t <> None ->
        omap_get (t_id t) (activePlayingNotes st') = None)
  /\ out = [].
Proof.
  intros Hm Hv Ho. unfold applyPendingSwitches. rewrite Hm, Hv, Ho. cbn [negb andb].
  cbn [tracks pendingPatternHistorySwitch activePlayingNotes
       set_activePlayingNotes set_tracks set_pending].
  split; [reflexivity|]. split; [reflexivity|].
  split.
  { intros t i Hi Hr. unfold applySwitch.
    rewrite (proj2 (switchTarget_valid m t i) (conj Hi Hr)). reflexivity. }
  split.
  { intros t Hn. unfold applySwitch, switchTarget. rewrite Hn. reflexivity. }
  split.
  { intros t i Hi Hr. unfold applySwitch.
    destruct (switchTarget m t) as [j|] eqn:E; [|reflexivity].
    apply switchTarget_valid in E as [Hj Hrange]. rewrite Hi in Hj.
    injection Hj as ->. lia. }
  split.
  { intros k Hk. apply dropSwitchedNotes_other. exact Hk. }
  split; [|reflexivity].
  intros Hnd t Ht Hsw. apply dropSwitchedNotes_switched; assumption.
Qed.

Lemma switch_spares_other_tracks_witness :
  map currentPatternIndex (tracks (fst (applyPendingSwitches queuedSession))) = [1; 0]
  /\ omap_get "synth-track-1" (activePlayingNotes (fst (applyPendingSwitches queuedSession)))
     = Some [mkActive 127 40 1]
  /\ snd (applyPendingSwitches queuedSession) = []
  /\ tracks (fst (applyPendingSwitches badIndexSession)) = tracks badIndexSession
  /\ pendingPatternHistorySwitch (fst (applyPendingSwitches badIndexSession)) = Some ∅.
Proof.
  pose proof (switch_spares_other_tracks queuedSession {[ "drum-track-0" := 1 ]}
                eq_refl eq_refl eq_refl) as H1.
  pose proof (switch_spares_other_tracks badIndexSession {[ "drum-track-0" := 7 ]}
                eq_refl eq_refl eq_refl) as H2.
  destruct (applyPendingSwitches queuedSession) as [s1 o1].
  destruct (applyPendingSwitches badIndexSession) as [s2 o2].
  destruct H1 as (T1 & _ & _ & _ & _ & K1 & _ & O1).
  destruct H2 as (T2 & P2 & _).
  cbn [fst snd]. split; [rewrite T1; vm_compute; reflexivity|].
  split.
  { rewrite (K1 "synth-track-1"); [reflexivity|].
    intros t [<-|[<-|[]]] Hid; [discriminate Hid|reflexivity]. }
  split; [exact O1|].
  split; [rewrite T2; vm_compute; reflexivity|exact P2].
Defined.

Lemma clockPulse_chaining st :
  anyTrackChaining (tracks st) = true ->
  tracks (fst (clockPulse st)) = tracks st
  /\ pendingPatternHistorySwitch (fst (clockPulse st)) = pendingPatternHistorySwitch st.
Proof.
  intros Hc. unfold clockPulse.
  match goal with |- context [if js_rem ?a ?b =? 0 then _ else _] =>
    destruct (js_rem a b =? 0) end; [|auto].
  match goal with |- context [if isPlaying ?s then _ else _] =>
    destruct (isPlaying s) end; [|auto].
  match goal with |- context [processMidiStep ?s ?n] =>
    destruct (processMidiStep_frame s n) as [active Hf];
    destruct (processMidiStep s n) as [st3 out1]
  end.
  cbn [fst] in Hf. subst st3.
  cbn [tracks set_absoluteStep set_activePlayingNotes set_clockTickCounter
       set_isExternalClock]. rewrite Hc. cbn [negb andb]. auto.
Qed.

Lemma schedulerStep_chaining st :
  isPlaying st = true -> isExternalClock st = false -> isPreviewMode st = false ->
  anyTrackChaining (tracks st) = true ->
  exists active,
    fst (schedulerStep st)
    = set_absoluteStep (set_activePlayingNotes st active) (absoluteStep st + 1).
Proof.
  intros Hp He Hv Hc. destruct (schedulerStep_running st Hp He Hv) as [active Hs].
  exists active. cbv zeta in Hs. rewrite Hs, Hc. reflexivity.
Qed.

Lemma runScheduler_chaining st :
  isPlaying st = true -> isExternalClock st = false -> isPreviewMode st = false ->
  anyTrackChaining (tracks st) = true ->
  forall n, exists active,
    runScheduler n st
    = set_absoluteStep (set_activePlayingNotes st active) (absoluteStep st + Z.of_nat n).
Proof.
  intros Hp He Hv Hc. induction n as [|n [active IH]].
  - exists (activePlayingNotes st). simpl. rewrite Z.add_0_r. destruct st; reflexivity.
  - rewrite runScheduler_S, IH.
    destruct (schedulerStep_chaining
                (set_absoluteStep (set_activePlayingNotes st active)
                                  (absoluteStep st + Z.of_nat n)) Hp He Hv Hc)
      as [active' Hs].
    rewrite Hs. exists active'.
    unfold set_absoluteStep, set_activePlayingNotes. simpl. f_equal. lia.
Qed.

(** X10.  While any track is in progression chaining, the clocks never apply
    a queued switch: through any number of steps of the internal scheduler,
    and on any pulse of the external clock, the tracks and the pending map
    stay exactly as they are, so an entry queued before chaining was enabled
    remains queued. *)
Theorem chaining_suspends_switches (st : AppState) :
  anyTrackChaining (tracks st) = true ->
  (isPlaying st = true -> isExternalClock st = false -> isPreviewMode st = false ->
   forall n,
     tracks (runScheduler n st) = tracks st
     /\ pendingPatternHistorySwitch (runScheduler n st) = pendingPatternHistorySwitch st)
  /\ (isPreviewMode st = false -> hasInput st = true ->
      tracks (fst (handleMidiMessage st 0xF8)) = tracks st
      /\ pendingPatternHistorySwitch (fst (handleMidiMessage st 0xF8))
         = pendingPatternHistorySwitch st).
Proof.
  intros Hc. split.
  - intros Hp He Hv n. destruct (runScheduler_chaining st Hp He Hv Hc n) as [active ->].
    split; reflexivity.
  - intros Hv Hi. unfold handleMidiMessage. rewrite Hv, Hi. cbn [andb Z.eqb Pos.eqb].
    apply clockPulse_chaining. exact Hc.
Qed.

Lemma chaining_suspends_switches_witness :
  pendingPatternHistorySwitch (runScheduler 100 chainQueuedSession)
  = Some {[ "synth-track-1" := 0 ]}
  /\ tracks (fst (handleMidiMessage chainQueuedSession 0xF8)) = tracks chainQueuedSession.
Proof.
  destruct (chaining_suspends_switches chainQueuedSession eq_refl) as [Hint Hext].
  split.
  - exact (proj2 (Hint eq_refl eq_refl eq_refl 100%nat)).
  - exact (proj1 (Hext eq_refl eq_refl)).
Defined.

(** ** Saving a pattern while playing *)

Lemma withSavedPattern_length e adv t :
  (length (patternHistory (withSavedPattern e adv t)) <= MAX_PATTERN_HISTORY)%nat.
Proof.
  unfold withSavedPattern. cbn [patternHistory].
  rewrite length_take. apply Nat.le_min_l.
Qed.

Lemma withSavedPattern_head e adv t :
  head (patternHistory (withSavedPattern e adv t)) = Some e.
Proof. reflexivity. Qed.

Lemma js_index_nonneg {A} (l : list A) i :
  0 <= i -> js_index l i = l !! Z.to_nat i.
Proof. intros H. unfold js_index. destruct (Z.ltb_spec i 0); [lia|reflexivity]. Qed.


Lemma withSavedPattern_last_slot e t :
  currentPatternIndex t + 1 >= Z.of_nat MAX_PATTERN_HISTORY ->
  currentEntryOf (withSavedPattern e true t) = None.
Proof.
  intros H. unfold currentEntryOf, withSavedPattern.
  cbn [patternHistory currentPatternIndex].
  rewrite js_index_nonneg by lia.
  apply lookup_take_ge. unfold MAX_PATTERN_HISTORY in *. lia.
Qed.

Lemma onTrack_id trackId f ts :
  (forall t, t_id (f t) = t_id t) ->
  map t_id (onTrack trackId f ts) = map t_id ts.
Proof.
  intros Hf. unfold onTrack. rewrite map_map. apply map_ext. intros t.
  destruct (String.eqb (t_id t) trackId); auto.
Qed.

Lemma handleSaveEditedPattern_tracks st trackId newPattern bars prompt :
  tracks (handleSaveEditedPattern st trackId newPattern bars prompt)
  = onTrack trackId
      (withSavedPattern (mkEntry (Some newPattern) bars prompt)
                        (isPlaying st && negb (anyTrackChaining (tracks st))))
      (tracks st).
Proof.
  unfold handleSaveEditedPattern.
  destruct (isPlaying st && negb (anyTrackChaining (tracks st))); reflexivity.
Qed.

Lemma liveEditOverride_deleted st t (m : gmap string (option LiveEdit)) :
  m !! t_id t = None ->
  liveEditOverride (set_liveEditingPattern st m) t = None.
Proof. intros H. unfold liveEditOverride. simpl. rewrite H. reflexivity. Qed.



(** X12.  When the history is full and the track is playing the entry in its
    last slot, saving while playing (no track chaining) cuts that entry off
    and leaves the pointer past the end of the history: until the queued
    switch is applied the track points at no entry, no pattern resolves for
    it and it sends nothing on any step. *)
Theorem save_at_last_slot_silences (st : AppState) (t : Track)
    (newPattern : list MidiNote) (bars : Z) (promptToSave : string) :
  isPlaying st = true -> anyTrackChaining (tracks st) = false ->
  In t (tracks st) ->
  currentPatternIndex t = Z.of_nat MAX_PATTERN_HISTORY - 1 ->
  let st' := handleSaveEditedPattern st (t_id t) newPattern bars promptToSave in
  let t' := withSavedPattern (mkEntry (Some newPattern) bars promptToSave) true t in
  In t' (tracks st')
  /\ currentEntryOf t' = None
  /\ forall step active,
       resolvePattern st' t' step = (None, 0)
       /\ processTrack st' step t' active = ([], active).
Proof.
  intros Hp Hn Hin Hidx. cbv zeta.
  assert (Hcur : currentEntryOf
                   (withSavedPattern (mkEntry (Some newPattern) bars promptToSave) true t)
                 = None) by (apply withSavedPattern_last_slot; lia).
  split.
  { rewrite handleSaveEditedPattern_tracks, Hp, Hn. cbn [negb andb].
    unfold onTrack. apply in_map_iff. exists t. rewrite String.eqb_refl. auto. }
  split; [exact Hcur|].
  intros step active.
  assert (Hres : resolvePattern
                   (handleSaveEditedPattern st (t_id t) newPattern bars promptToSave)
                   (withSavedPattern (mkEntry (Some newPattern) bars promptToSave) true t)
                   step = (None, 0)).
  { unfold resolvePattern.
    replace (liveEditOverride _ _) with (@None LiveEdit).
    - cbn [isProgressionChaining withSavedPattern].
      rewrite (anyTrackChaining_false _ _ Hn Hin).
      unfold resolveCurrent. fold (currentEntryOf
        (withSavedPattern (mkEntry (Some newPattern) bars promptToSave) true t)).
      rewrite Hcur. reflexivity.
    - symmetry. unfold handleSaveEditedPattern. rewrite Hp, Hn. cbn [negb andb].
      apply liveEditOverride_deleted. apply lookup_delete_eq. }
  split; [exact Hres|].
  unfold processTrack. rewrite Hres.
  destruct (isMuted _); reflexivity.
Qed.

Lemma save_at_last_slot_silences_witness :
  let st' := handleSaveEditedPattern fullHistorySession "drum-track-0" patternB 1 "edit" in
  map currentEntryOf (tracks st') = [None]
  /\ snd (processMidiStep st' 0) = [].
Proof.
  pose proof (save_at_last_slot_silences fullHistorySession fullHistoryTrack patternB 1 "edit"
                eq_refl eq_refl (or_introl eq_refl) eq_refl) as (_ & Hcur & _).
  cbv zeta in *. split; [|vm_compute; reflexivity].
  rewrite handleSaveEditedPattern_tracks.
  change (map currentEntryOf
            [withSavedPattern (mkEntry (Some patternB) 1 "edit") true fullHistoryTrack]
          = [None]).
  cbn [map]. rewrite Hcur. reflexivity.
Defined.

(** ** The bound on the history *)

Lemma historiesBounded_map ts ts' :
  map patternHistory ts' = map patternHistory ts ->
  historiesBounded ts -> historiesBounded ts'.
Proof.
  unfold historiesBounded. intros Hm H.
  apply (Forall_map patternHistory (fun h => (length h <= MAX_PATTERN_HISTORY)%nat)).
  rewrite Hm.
  apply (Forall_map patternHistory (fun h => (length h <= MAX_PATTERN_HISTORY)%nat)).
  exact H.
Qed.

Lemma historiesBounded_onTrack trackId f ts :
  (forall t, (length (patternHistory t) <= MAX_PATTERN_HISTORY)%nat ->
             (length (patternHistory (f t)) <= MAX_PATTERN_HISTORY)%nat) ->
  historiesBounded ts -> historiesBounded (onTrack trackId f ts).
Proof.
  unfold historiesBounded, onTrack. intros Hf H.
  induction H as [|t ts Ht Hts IH]; simpl; constructor; auto.
  destruct (String.eqb (t_id t) trackId); auto.
Qed.

Lemma withNewPattern_length e c p t :
  (length (patternHistory (withNewPattern e c p t)) <= MAX_PATTERN_HISTORY)%nat.
Proof.
  unfold withNewPattern. cbn [patternHistory].
  rewrite length_take. apply Nat.le_min_l.
Qed.

Lemma handleGeneratePattern_bounded st trackId userPrompt bars chained generated :
  historiesBounded (tracks st) ->
  historiesBounded
    (tracks (fst (handleGeneratePattern st trackId userPrompt bars chained generated))).
Proof.
  intros H. unfold handleGeneratePattern.
  match goal with |- context [match ?x with Returned _ => _ | Thrown _ => _ end] =>
    destruct x as [notes|msg] end.
  - match goal with |- context [if ?c then _ else _] => destruct c end; cbn [fst tracks set_tracks set_pending];
      apply historiesBounded_onTrack; try (intros; apply withNewPattern_length);
      apply historiesBounded_onTrack; auto.
  - cbn [fst tracks set_tracks].
    apply historiesBounded_onTrack; [auto|].
    apply historiesBounded_onTrack; auto.
Qed.

Lemma handleModifyPattern_bounded st trackId prompt modified :
  historiesBounded (tracks st) ->
  historiesBounded (tracks (handleModifyPattern st trackId prompt modified)).
Proof.
  intros H. unfold handleModifyPattern.
  destruct (findTrack (tracks st) trackId) as [t|]; [|exact H].
  destruct (_ ≫= _) as [e|].
  - destruct modified as [notes|msg].
    + destruct (isPlaying st && negb (anyTrackChaining (tracks st)));
        cbn [tracks set_tracks set_pending];
        apply historiesBounded_onTrack; try (intros; apply withSavedPattern_length);
        apply historiesBounded_onTrack; auto.
    + cbn [tracks set_tracks].
      apply historiesBounded_onTrack; [auto|].
      apply historiesBounded_onTrack; auto.
  - cbn [tracks set_tracks]. apply historiesBounded_onTrack; auto.
Qed.

Lemma handleSwitchPatternHistory_history st trackId i :
  map patternHistory (tracks (handleSwitchPatternHistory st trackId i))
  = map patternHistory (tracks st).
Proof.
  unfold handleSwitchPatternHistory.
  destruct (isPlaying st && negb (anyTrackChaining (tracks st))); [reflexivity|].
  cbn [tracks set_tracks set_pending]. rewrite map_map. apply map_ext. intros t.
  unfold switchNow. destruct (_ && _ && _); reflexivity.
Qed.

(** X13.  No handler lets a history grow past [MAX_PATTERN_HISTORY]: if
    every track holds at most that many patterns, this is still so after a
    pattern has been generated (or the generation has failed), after a
    pattern has been modified or saved, after a switch request, after a step
    of the internal scheduler and after any incoming clock message. *)
Theorem history_stays_bounded (st : AppState) :
  historiesBounded (tracks st) ->
  (forall trackId userPrompt bars chained generated,
     historiesBounded
       (tracks (fst (handleGeneratePattern st trackId userPrompt bars chained generated))))
  /\ (forall trackId prompt modified,
        historiesBounded (tracks (handleModifyPattern st trackId prompt modified)))
  /\ (forall trackId newPattern bars prompt,
        historiesBounded
          (tracks (handleSaveEditedPattern st trackId newPattern bars prompt)))
  /\ (forall trackId i,
        historiesBounded (tracks (handleSwitchPatternHistory st trackId i)))
  /\ historiesBounded (tracks (fst (schedulerStep st)))
  /\ (forall command, historiesBounded (tracks (fst (handleMidiMessage st command)))).
Proof.
  intros H.
  split; [intros; apply handleGeneratePattern_bounded; exact H|].
  split; [intros; apply handleModifyPattern_bounded; exact H|].
  split.
  { intros. rewrite handleSaveEditedPattern_tracks.
    apply historiesBounded_onTrack; [intros; apply withSavedPattern_length|exact H]. }
  split.
  { intros. exact (historiesBounded_map _ _ (handleSwitchPatternHistory_history st trackId i) H). }
  split.
  { exact (historiesBounded_map _ _ (schedulerStep_history st) H). }
  intros command. exact (historiesBounded_map _ _ (handleMidiMessage_history st command) H).
Qed.

Lemma history_stays_bounded_witness :
  historiesBounded
    (tracks (handleSaveEditedPattern fullHistorySession "drum-track-0" patternB 1 "edit")).
Proof.
  assert (H : historiesBounded (tracks fullHistorySession)).
  { repeat constructor. }
  exact (proj1 (proj2 (proj2 (history_stays_bounded fullHistorySession H)))
           "drum-track-0" patternB 1 "edit").
Defined.

(** ** Modifying a pattern *)

Lemma onTrack_withError_loading trackId msg ts t :
  In t (onTrack trackId (withError msg) (onTrack trackId withLoading ts)) ->
  t_id t = trackId -> isLoading t = false /\ error t = Some msg.
Proof.
  intros Hin Hid. rewrite onTrack_compose in Hin by reflexivity.
  apply onTrack_In in Hin as (t0 & _ & ->).
  destruct (String.eqb (t_id t0) trackId) eqn:E; [simpl; auto|].
  apply String.eqb_neq in E. contradiction.
Qed.

(** X14.  Modifying a pattern: for an unknown track nothing happens; for a
    track that points at no entry, or at an entry without a pattern, only the
    error "No pattern to modify." is attached.  Otherwise a failed request is
    not rethrown: every history and the pending map stay as they were and the
    track ends not loading, with the message attached; a successful one
    stores the notes at the head of the history under the bar count of the
    pattern that was modified (4 if that count is not positive) and the
    prompt given. *)
Theorem modify_outcomes (st : AppState) (trackId userPrompt : string)
    (modified : Outcome (list MidiNote)) :
  let st' := handleModifyPattern st trackId userPrompt modified in
  (findTrack (tracks st) trackId = None -> st' = st)
  /\ (forall t, findTrack (tracks st) trackId = Some t ->
        (currentEntryOf t = None
         \/ (exists e, currentEntryOf t = Some e /\ pattern e = None) ->
         st' = set_tracks st
                 (onTrack trackId (withErrorOnly "No pattern to modify.") (tracks st)))
        /\ (forall e p, currentEntryOf t = Some e -> pattern e = Some p ->
              (forall msg, modified = Thrown msg ->
                 map patternHistory (tracks st') = map patternHistory (tracks st)
                 /\ pendingPatternHistorySwitch st' = pendingPatternHistorySwitch st
                 /\ forall u, In u (tracks st') -> t_id u = trackId ->
                      isLoading u = false /\ error u = Some msg)
              /\ (forall notes, modified = Returned notes ->
                    forall u, In u (tracks st') -> t_id u = trackId ->
                      head (patternHistory u)
                      = Some (mkEntry (Some notes) (barsOrDefault (bars e)) userPrompt)
                      /\ isLoading u = false /\ error u = None))).
Proof.
  cbv zeta. split.
  { intros Hf. unfold handleModifyPattern. rewrite Hf. reflexivity. }
  intros t Hf. unfold handleModifyPattern. rewrite Hf.
  fold (currentEntryOf t). split.
  - intros [Hnone|(e & He & Hp)].
    + rewrite Hnone. reflexivity.
    + rewrite He. cbn [mbind option_bind]. rewrite Hp. reflexivity.
  - intros e p He Hp. rewrite He. cbn [mbind option_bind]. rewrite Hp.
    cbn [mbind option_bind]. split.
    + intros msg ->. cbn [tracks set_tracks pendingPatternHistorySwitch].
      split; [rewrite !onTrack_history; reflexivity|].
      split; [reflexivity|]. intros u. apply onTrack_withError_loading.
    + intros notes -> u Hin Hid.
      assert (Hin' : In u (onTrack trackId
                (fun x => withSavedPattern
                            (mkEntry (Some notes) (barsOrDefault (bars e)) userPrompt)
                            (isPlaying st && negb (anyTrackChaining (tracks st)))
                            (withLoading x)) (tracks st))).
      { rewrite <- onTrack_compose by reflexivity.
        destruct (isPlaying st && negb (anyTrackChaining (tracks st))); exact Hin. }
      apply onTrack_In in Hin' as (t0 & _ & ->).
      destruct (String.eqb (t_id t0) trackId) eqn:E; [simpl; auto|].
      apply String.eqb_neq in E. contradiction.
Qed.

Lemma modify_outcomes_witness :
  map patternHistory (tracks (handleModifyPattern session "drum-track-0" "busier"
                                (Thrown "quota exceeded")))
  = map patternHistory (tracks session)
  /\ handleModifyPattern session "synth-track-7" "busier" (Returned patternB) = session.
Proof.
  split.
  - pose proof (modify_outcomes session "drum-track-0" "busier" (Thrown "quota exceeded"))
      as (_ & H).
    destruct (H drumTrack eq_refl) as (_ & Hok).
    destruct (Hok (mkEntry (Some patternA) 1 "A") patternA eq_refl eq_refl) as (Hfail & _).
    exact (proj1 (Hfail "quota exceeded" eq_refl)).
  - exact (proj1 (modify_outcomes session "synth-track-7" "busier" (Returned patternB))
             eq_refl).
Defined.

(** ** Reordering the history *)

Lemma spliceStart_in_range len start :
  0 <= start <= Z.of_nat len -> spliceStart len start = Z.to_nat start.
Proof.
  intros H. unfold spliceStart. destruct (Z.ltb_spec start 0); [lia|].
  f_equal. lia.
Qed.

Lemma spliceStart_le len start : (spliceStart len start <= len)%nat.
Proof. unfold spliceStart. destruct (Z.ltb_spec start 0); lia. Qed.

Lemma spliceStart_past len start :
  Z.of_nat len <= start -> spliceStart len start = len.
Proof.
  intros H. unfold spliceStart. destruct (Z.ltb_spec start 0); [lia|].
  rewrite Z.min_r by lia. apply Nat2Z.id.
Qed.

Lemma length_remove_at {A} (l : list A) (i : nat) :
  (i < length l)%nat -> length (take i l ++ drop (S i) l) = (length l - 1)%nat.
Proof. intros H. rewrite length_app, length_take, length_drop. lia. Qed.

Lemma middle_remove {A} (l1 l2 : list A) (x : A) :
  (l1 ++ x :: l2) !! length l1 = Some x
  /\ take (length l1) (l1 ++ x :: l2) ++ drop (S (length l1)) (l1 ++ x :: l2) = l1 ++ l2.
Proof.
  induction l1 as [|y l1 [IH1 IH2]]; simpl; [rewrite drop_0; auto|].
  split; [exact IH1|]. f_equal. exact IH2.
Qed.

Lemma middle_insert {A} (l1 l2 : list A) (x : A) :
  take (length l1) (l1 ++ l2) ++ x :: drop (length l1) (l1 ++ l2) = l1 ++ x :: l2.
Proof. induction l1 as [|y l1 IH]; simpl; [rewrite drop_0; reflexivity|]. f_equal. exact IH. Qed.

(** Inserting and then removing at the same place gives the list back. *)
Lemma remove_insert_at {A} (l : list A) (j : nat) (x : A) :
  (j <= length l)%nat ->
  (take j l ++ x :: drop j l) !! j = Some x
  /\ take j (take j l ++ x :: drop j l) ++ drop (S j) (take j l ++ x :: drop j l) = l.
Proof.
  intros Hj. assert (Hlen : length (take j l) = j) by (rewrite length_take; lia).
  pose proof (middle_remove (take j l) (drop j l) x) as [H1 H2].
  rewrite Hlen, take_drop in *. auto.
Qed.

(** Removing and then inserting the removed element at the same place gives
    the list back. *)
Lemma insert_remove_at {A} (l : list A) (i : nat) (x : A) :
  l !! i = Some x ->
  take i (take i l ++ drop (S i) l) ++ x :: drop i (take i l ++ drop (S i) l) = l.
Proof.
  intros Hx. pose proof (lookup_lt_Some _ _ _ Hx) as Hi.
  assert (Hlen : length (take i l) = i) by (rewrite length_take; lia).
  pose proof (middle_insert (take i l) (drop (S i) l) x) as H.
  rewrite Hlen in H. rewrite H. apply take_drop_middle. exact Hx.
Qed.

Lemma reorderHistory_valid (h : list PatternHistoryEntry) src dst :
  0 <= src < Z.of_nat (length h) ->
  exists x,
    h !! Z.to_nat src = Some x
    /\ reorderHistory h src dst
       = Some (spliceInsert (take (Z.to_nat src) h ++ drop (S (Z.to_nat src)) h) dst x).
Proof.
  intros Hs. destruct (lookup_lt_is_Some_2 h (Z.to_nat src) ltac:(lia)) as [x Hx].
  exists x. split; [exact Hx|].
  unfold reorderHistory, spliceRemove.
  rewrite spliceStart_in_range by lia. rewrite Hx. reflexivity.
Qed.

Lemma reorderHistory_Some_perm (h h' : list PatternHistoryEntry) src dst :
  reorderHistory h src dst = Some h' -> Permutation h' h.
Proof.
  unfold reorderHistory, spliceRemove, spliceInsert.
  set (i := spliceStart (length h) src).
  destruct (h !! i) as [x|] eqn:Hx; [|discriminate].
  intros Heq. injection Heq as <-.
  set (nh := take i h ++ drop (S i) h).
  set (j := spliceStart (length nh) dst).
  apply Permutation_trans with (x :: nh).
  - rewrite <- Permutation_middle, take_drop. reflexivity.
  - unfold nh. rewrite Permutation_middle.
    rewrite take_drop_middle by exact Hx. reflexivity.
Qed.

Lemma reorderFirst_frame trackId src dst ts :
  forall ts', reorderFirst trackId src dst ts = Some ts' ->
    map currentPatternIndex ts' = map currentPatternIndex ts
    /\ map t_id ts' = map t_id ts
    /\ Forall2 (fun t t' => Permutation (patternHistory t') (patternHistory t)) ts ts'.
Proof.
  induction ts as [|t ts IH]; intros ts' H; simpl in H.
  - injection H as <-. repeat split; constructor.
  - destruct (String.eqb (t_id t) trackId).
    + destruct (reorderHistory (patternHistory t) src dst) as [h|] eqn:E; [|discriminate].
      simpl in H. injection H as <-. simpl. repeat split.
      constructor; [exact (reorderHistory_Some_perm _ _ _ _ E)|].
      clear. induction ts; constructor; auto.
    + destruct (reorderFirst trackId src dst ts) as [rest|] eqn:E; [|discriminate].
      simpl in H. injection H as <-. destruct (IH rest eq_refl) as (H1 & H2 & H3).
      simpl. rewrite H1, H2. repeat split. constructor; [reflexivity|exact H3].
Qed.

(** X15.  Reordering the history of a track moves the entry at the source
    index to the destination index (an index past the end puts it last) and
    yields a permutation of the history; it never moves the pointer
    [currentPatternIndex] of any track, nor changes a track's identity, so
    the entry the pointer names may change.  A source index at or past the
    end names no entry. *)
Theorem reorder_permutes (st : AppState) (trackId : string) (src dst : Z) :
  (forall st', handleReorderPatternHistory st trackId src dst = Some st' ->
     map currentPatternIndex (tracks st') = map currentPatternIndex (tracks st)
     /\ map t_id (tracks st') = map t_id (tracks st)
     /\ Forall2 (fun t t' => Permutation (patternHistory t') (patternHistory t))
                (tracks st) (tracks st'))
  /\ (forall h : list PatternHistoryEntry, 0 <= src < Z.of_nat (length h) ->
        exists x h',
          h !! Z.to_nat src = Some x
          /\ reorderHistory h src dst = Some h'
          /\ length h' = length h
          /\ h' !! spliceStart (length h - 1) dst = Some x
          /\ (0 <= dst < Z.of_nat (length h) -> h' !! Z.to_nat dst = Some x))
  /\ (forall h : list PatternHistoryEntry, Z.of_nat (length h) <= src ->
        reorderHistory h src dst = None).
Proof.
  split.
  { intros st' H. unfold handleReorderPatternHistory in H.
    destruct (reorderFirst trackId src dst (tracks st)) as [ts'|] eqn:E; [|discriminate].
    simpl in H. injection H as <-. exact (reorderFirst_frame _ _ _ _ _ E). }
  split.
  - intros h Hs. destruct (reorderHistory_valid h src dst Hs) as (x & Hx & Hr).
    exists x. eexists. split; [exact Hx|]. split; [exact Hr|].
    set (i := Z.to_nat src) in *.
    assert (Hi : (i < length h)%nat) by lia.
    pose proof (length_remove_at h i Hi) as Hlen.
    unfold spliceInsert. rewrite Hlen.
    pose proof (spliceStart_le (length h - 1) dst) as Hj.
    set (nh := take i h ++ drop (S i) h) in *.
    destruct (remove_insert_at nh (spliceStart (length h - 1) dst) x ltac:(lia))
      as (Hat & _).
    split.
    { rewrite length_app. cbn [length]. rewrite length_take, length_drop. lia. }
    split; [exact Hat|].
    intros Hd. rewrite spliceStart_in_range in Hat |- * by lia. exact Hat.
  - intros h Hs. unfold reorderHistory, spliceRemove.
    rewrite spliceStart_past by exact Hs.
    rewrite (lookup_ge_None_2 h (length h)) by lia. reflexivity.
Qed.

Lemma reorder_permutes_witness :
  exists st',
    handleReorderPatternHistory session "drum-track-0" 0 1 = Some st'
    /\ map currentPatternIndex (tracks st') = [0; 0]
    /\ map currentEntryOf (tracks st')
       = [Some (mkEntry (Some patternB) 1 "B"); Some (mkEntry (Some leadPattern) 2 "lead")].
Proof.
  eexists. split; [vm_compute; reflexivity|].
  split; [|vm_compute; reflexivity].
  eapply (proj1 (reorder_permutes session "drum-track-0" 0 1)).
  vm_compute. reflexivity.
Defined.

(** X16.  Moving an entry of a history from one index to another and then
    back from there restores the history, for any two indices of the
    history. *)
Theorem reorder_round_trip (h h' : list PatternHistoryEntry) (src dst : Z) :
  0 <= src < Z.of_nat (length h) -> 0 <= dst < Z.of_nat (length h) ->
  reorderHistory h src dst = Some h' ->
  reorderHistory h' dst src = Some h.
Proof.
  intros Hs Hd Hr.
  destruct (reorderHistory_valid h src dst Hs) as (x & Hx & Hr').
  rewrite Hr in Hr'. injection Hr' as ->.
  set (i := Z.to_nat src) in *. set (nh := take i h ++ drop (S i) h).
  assert (Hi : (i < length h)%nat) by lia.
  pose proof (length_remove_at h i Hi) as Hlen. fold nh in Hlen.
  unfold spliceInsert. rewrite spliceStart_in_range by lia.
  set (j := Z.to_nat dst).
  destruct (remove_insert_at nh j x ltac:(lia)) as (Hat & Hback).
  assert (Hlen' : length (take j nh ++ x :: drop j nh) = length h).
  { rewrite length_app. cbn [length]. rewrite length_take, length_drop. lia. }
  unfold reorderHistory, spliceRemove. rewrite Hlen'.
  rewrite spliceStart_in_range by lia. fold j. rewrite Hat, Hback.
  unfold spliceInsert. rewrite spliceStart_in_range by lia. fold i.
  f_equal. apply insert_remove_at. exact Hx.
Qed.

Lemma reorder_round_trip_witness :
  reorderHistory (patternHistory chainTrack) 0 2
  = Some [mkEntry (Some patternB) 2 "B"; mkEntry None 1 "C"; mkEntry (Some patternA) 1 "A"]
  /\ reorderHistory
       [mkEntry (Some patternB) 2 "B"; mkEntry None 1 "C"; mkEntry (Some patternA) 1 "A"]
       2 0
     = Some (patternHistory chainTrack).
Proof.
  split; [reflexivity|].
  apply (reorder_round_trip (patternHistory chainTrack)); [simpl; lia|simpl; lia|reflexivity].
Defined.

(** ** What the service hands to the sequencer *)

Lemma Math_round_range lo hi (q : Q) :
  (inject_Z lo <= q)%Q -> (q <= inject_Z hi)%Q -> lo <= Math_round q <= hi.
Proof.
  intros Hlo Hhi. unfold Math_round. split.
  - rewrite <- (Qfloor_Z lo). apply Qfloor_resp_le. lra.
  - assert (H : (q + (1 # 2) < inject_Z (hi + 1))%Q).
    { rewrite inject_Z_plus. change (inject_Z 1) with 1%Q. lra. }
    pose proof (Qfloor_le (q + (1 # 2))) as Hf.
    assert (Hlt : (inject_Z (Qfloor (q + (1 # 2))) < inject_Z (hi + 1))%Q) by lra.
    rewrite <- Zlt_Qlt in Hlt. lia.
Qed.

Lemma Math_floor_inject (q : Q) k : (q == inject_Z k)%Q -> Math_floor q = k.
Proof. intros H. unfold Math_floor. rewrite (Qfloor_comp _ _ H). apply Qfloor_Z. Qed.

Lemma quantizeTime_grid t :
  (0 <= t)%Q ->
  exists k, 0 <= k /\ (quantizeTime t * 4 == inject_Z k)%Q
            /\ Math_floor (quantizeTime t * 4) = k.
Proof.
  intros Ht. exists (Math_round (t * 4)).
  pose proof (quantizeTime_quarters t) as Hq.
  split; [|split; [exact Hq|apply Math_floor_inject; exact Hq]].
  unfold Math_round. rewrite <- (Qfloor_Z 0). apply Qfloor_resp_le.
  change (inject_Z 0) with 0%Q. lra.
Qed.

Lemma toMidiNote_wellFormed p : isValidNote p = true -> wellFormedNote (toMidiNote p).
Proof.
  intros Hv. apply isValidNote_spec in Hv
    as (fields & n & v & t & d & -> & En & Ev & Et & Ed & [Hn1 Hn2] & [Hv1 Hv2] & Ht & Hd).
  unfold wellFormedNote, toMidiNote, fieldOr0, getProp.
  rewrite En, Ev, Et, Ed. cbn [note velocity time duration default finiteNumber].
  split; [apply Math_round_range; assumption|].
  split; [apply Math_round_range; assumption|].
  split; [apply quantizeTime_grid; exact Ht|exact Hd].
Qed.

Lemma parseGeminiResponse_wellFormed clean parse text notes :
  parseGeminiResponse clean parse text = Returned notes -> Forall wellFormedNote notes.
Proof.
  unfold parseGeminiResponse.
  destruct (parse (clean text)) as [[| | | |items|]|m]; try discriminate.
  intros H. injection H as <-. apply Forall_forall. intros n Hn.
  apply list_elem_of_In, in_map_iff in Hn as (p & <- & Hp).
  apply In_filter_iff in Hp as [Hv _]. apply toMidiNote_wellFormed. exact Hv.
Qed.

Lemma resolveCurrent_step track e step :
  currentEntryOf track = Some e -> 0 <= step ->
  snd (resolveCurrent track step) = step mod (barsOrDefault (bars e) * 16).
Proof.
  intros He Hs. unfold resolveCurrent. unfold currentEntryOf in He. rewrite He.
  cbn [snd]. pose proof (barsOrDefault_pos (bars e)) as Hb.
  replace (0 <? barsOrDefault (bars e) * 16) with true
    by (symmetry; apply Z.ltb_lt; lia).
  apply js_rem_nonneg; lia.
Qed.

(** X17.  Whatever text the model answers, a pattern that
    [generateMidiPattern] or [modifyMidiPattern] returns holds only
    well-formed notes: pitch and velocity are integers from 0 to 127, the
    start is a whole, non-negative number [k] of sixteenth notes and the
    duration is positive; rounding cannot push a value out of range.  The
    validation puts no upper bound on the start.  On a track whose current
    entry has [b] bars (4 when [b] is not positive) the scheduler, playing
    that entry, reaches a step that triggers a returned note if and only if
    [k < 16 b]: a returned note that starts at or after the end of the
    pattern is stored with it and never played. *)
Theorem returned_patterns_are_well_formed
    (cleanJsonString : string -> string) (JSON_parse : string -> Outcome Json)
    (response : Outcome string) (notes : list MidiNote) :
  generateMidiPattern cleanJsonString JSON_parse response = Returned notes
  \/ modifyMidiPattern cleanJsonString JSON_parse response = Returned notes ->
  Forall wellFormedNote notes
  /\ forall n track e,
       In n notes -> currentEntryOf track = Some e ->
       ((exists step, 0 <= step /\ startsAt (snd (resolveCurrent track step)) n = true)
        <-> Math_floor (time n * 4) < barsOrDefault (bars e) * 16).
Proof.
  intros H.
  assert (Hp : exists text,
             parseGeminiResponse cleanJsonString JSON_parse text = Returned notes).
  { destruct H as [H|H]; [unfold generateMidiPattern in H|unfold modifyMidiPattern in H];
      destruct response as [text|m];
      try (destruct (includes "API key not valid" m); discriminate);
      exists text;
      destruct (parseGeminiResponse cleanJsonString JSON_parse text) as [ns|m];
      try (destruct (includes "API key not valid" m); discriminate);
      injection H as ->; reflexivity. }
  destruct Hp as [text Hp].
  pose proof (parseGeminiResponse_wellFormed _ _ _ _ Hp) as Hwf.
  split; [exact Hwf|].
  intros n track e Hn He.
  rewrite Forall_forall in Hwf. apply list_elem_of_In in Hn.
  destruct (Hwf n Hn) as (_ & _ & (k & Hk & _ & Hfloor) & _).
  pose proof (barsOrDefault_pos (bars e)) as Hb.
  unfold startsAt. rewrite Hfloor. split.
  - intros (step & Hs & Hstart). apply Z.eqb_eq in Hstart.
    rewrite (resolveCurrent_step track e step He Hs) in Hstart.
    pose proof (Z.mod_pos_bound step (barsOrDefault (bars e) * 16) ltac:(lia)). lia.
  - intros Hlt. exists k. split; [exact Hk|]. apply Z.eqb_eq.
    rewrite (resolveCurrent_step track e k He Hk). symmetry. apply Z.mod_small. lia.
Qed.

Lemma returned_patterns_are_well_formed_witness :
  Forall wellFormedNote [toMidiNote (jsonNote 60 100 64 1)]
  /\ ~ exists step,
        0 <= step
        /\ startsAt (snd (resolveCurrent drumTrack step))
                    (toMidiNote (jsonNote 60 100 64 1)) = true.
Proof.
  destruct (returned_patterns_are_well_formed sampleClean lateParse (Returned "late")
              [toMidiNote (jsonNote 60 100 64 1)] (or_introl eq_refl)) as [Hwf Hplay].
  split; [exact Hwf|].
  intros Hex.
  apply (Hplay (toMidiNote (jsonNote 60 100 64 1)) drumTrack
           (mkEntry (Some patternA) 1 "A") (or_introl eq_refl) eq_refl) in Hex.
  vm_compute in Hex. discriminate.
Defined.

(** ** Automation responses *)

Lemma isValidCcEvent_spec p :
  isValidCcEvent p = true
  <-> exists fields t v,
        p = JObject fields
        /\ omap_get "time" fields = Some (JNumber (Finite t))
        /\ omap_get "value" fields = Some (JNumber (Finite v))
        /\ (0 <= t)%Q /\ (0 <= v /\ v <= 127)%Q.
Proof.
  unfold isValidCcEvent. split.
  - rewrite !andb_true_iff. intros ((Ho & Ht) & Hv).
    destruct p as [| | | | |fields]; try discriminate Ho; [simpl in Ht; discriminate|].
    simpl in Ht, Hv.
    destruct (finiteNumber (omap_get "time" fields)) as [t|] eqn:Et; [|discriminate].
    destruct (finiteNumber (omap_get "value" fields)) as [v|] eqn:Ev; [|discriminate].
    apply finiteNumber_Some in Et, Ev.
    apply andb_true_iff in Hv as [Hv1 Hv2]. apply Qleb_le in Ht, Hv1, Hv2.
    exists fields, t, v. repeat split; assumption.
  - intros (fields & t & v & -> & Et & Ev & Ht & [Hv1 Hv2]).
    simpl. rewrite Et, Ev. simpl.
    apply Qleb_le in Ht, Hv1, Hv2. rewrite Ht, Hv1, Hv2. reflexivity.
Qed.

Lemma toCcEvent_wellFormed p : isValidCcEvent p = true -> wellFormedCcEvent (toCcEvent p).
Proof.
  intros Hv. apply isValidCcEvent_spec in Hv
    as (fields & t & v & -> & Et & Ev & Ht & [Hv1 Hv2]).
  unfold wellFormedCcEvent, toCcEvent, fieldOr0, getProp.
  rewrite Et, Ev. cbn [cc_time cc_value default finiteNumber].
  split; [|apply quantizeTime_grid; exact Ht].
  exists (Math_round v). split; [|reflexivity].
  apply Math_round_range; assumption.
Qed.

(** X18.  [generateCcAutomation] returns events only when the answer parses
    to an array, and then one event per element that is an object with a
    finite, non-negative time and a finite value from 0 to 127, in the order
    of the answer; every returned event has an integer value from 0 to 127
    and a time on the grid of sixteenth notes.  An answer that is not an
    array, or a failed request, makes it throw. *)
Theorem automation_events_are_playable
    (cleanJsonString : string -> string) (JSON_parse : string -> Outcome Json)
    (response : Outcome string) :
  (forall evs, generateCcAutomation cleanJsonString JSON_parse response = Returned evs ->
     Forall wellFormedCcEvent evs
     /\ exists text parsed,
          response = Returned text
          /\ JSON_parse (cleanJsonString text) = Returned (JArray parsed)
          /\ evs = map toCcEvent (filter (fun p => isValidCcEvent p = true) parsed))
  /\ ((forall text parsed, response = Returned text ->
         JSON_parse (cleanJsonString text) <> Returned (JArray parsed)) ->
      exists msg, generateCcAutomation cleanJsonString JSON_parse response = Thrown msg).
Proof.
  split.
  - intros evs H. unfold generateCcAutomation, parseCcAutomationResponse in H.
    destruct response as [text|m];
      [|destruct (includes "API key not valid" m); discriminate].
    destruct (JSON_parse (cleanJsonString text)) as [[| | | |items|]|m] eqn:E;
      try (match type of H with context [includes ?a ?b] =>
             destruct (includes a b) end; discriminate).
    injection H as <-. split.
    + apply Forall_forall. intros e He.
      apply list_elem_of_In, in_map_iff in He as (p & <- & Hp).
      apply In_filter_iff in Hp as [Hv _]. apply toCcEvent_wellFormed. exact Hv.
    + exists text, items. auto.
  - intros Hbad. unfold generateCcAutomation, parseCcAutomationResponse.
    destruct response as [text|m].
    + destruct (JSON_parse (cleanJsonString text)) as [[| | | |items|]|m] eqn:E;
        try (exfalso; exact (Hbad text items eq_refl E));
        match goal with |- context [includes ?a ?b] => destruct (includes a b) end;
        eexists; reflexivity.
    + destruct (includes "API key not valid" m); eexists; reflexivity.
Qed.

Lemma automation_events_are_playable_witness :
  generateCcAutomation sampleClean sampleCcParse (Returned "lane")
  = Returned [mkCcEvent (0 # 4) (inject_Z 127); mkCcEvent (4 # 4) (inject_Z 0)]
  /\ Forall wellFormedCcEvent
       [mkCcEvent (0 # 4) (inject_Z 127); mkCcEvent (4 # 4) (inject_Z 0)].
Proof.
  split; [reflexivity|].
  apply (proj1 (automation_events_are_playable sampleClean sampleCcParse (Returned "lane"))).
  reflexivity.
Defined.

(** ** Sequences of clock messages *)

Lemma sendAllNotesOff_frame st :
  exists active, fst (sendAllNotesOff st) = set_activePlayingNotes st active.
Proof.
  unfold sendAllNotesOff. destruct (hasOutput st && negb (isPreviewMode st)).
  - exists []. reflexivity.
  - exists (activePlayingNotes st). destruct st; reflexivity.
Qed.

Lemma clockStart_state st :
  exists active,
    fst (clockStart st)
    = mkState (tracks st) true (isPreviewMode st) true (hasInput st) (hasOutput st)
              (fullscreenTrackId st) (liveEditingPattern st) 1 0 active
              (pendingPatternHistorySwitch st).
Proof.
  unfold clockStart.
  match goal with |- context [sendAllNotesOff ?s] =>
    destruct (sendAllNotesOff_frame s) as [a Hf];
    destruct (sendAllNotesOff s) as [st4 out1]
  end.
  cbn [fst] in Hf. subst st4.
  match goal with |- context [processMidiStep ?s 0] =>
    destruct (processMidiStep_frame s 0) as [a' Hf'];
    destruct (processMidiStep s 0) as [st6 out2]
  end.
  cbn [fst] in Hf'. subst st6. exists a'. reflexivity.
Qed.

Lemma clockStop_state st :
  exists active,
    fst (clockStop st)
    = mkState (tracks st) false (isPreviewMode st) false (hasInput st) (hasOutput st)
              (fullscreenTrackId st) (liveEditingPattern st) (absoluteStep st) 0 active
              None.
Proof.
  unfold clockStop.
  match goal with |- context [sendAllNotesOff ?s] =>
    destruct (sendAllNotesOff_frame s) as [a Hf];
    destruct (sendAllNotesOff s) as [st2 out]
  end.
  cbn [fst] in Hf. subst st2. exists a. reflexivity.
Qed.

Lemma handleMidiMessages_cons st c rest :
  handleMidiMessages st (c :: rest)
  = (fst (handleMidiMessages (fst (handleMidiMessage st c)) rest),
     snd (handleMidiMessage st c)
     ++ snd (handleMidiMessages (fst (handleMidiMessage st c)) rest)).
Proof.
  simpl. destruct (handleMidiMessage st c) as [st1 out1].
  cbn [fst snd]. destruct (handleMidiMessages st1 rest) as [st2 out2]. reflexivity.
Qed.

(** X19.  In MIDI mode with an input selected, a start message followed by
    [n] clock pulses leaves the step counter at [1 + n/6]: step 0 is emitted
    by the start message and one more step by every sixth pulse.  A stop
    message followed by a continue message and [n] pulses leaves the counter
    at the step where playback stopped plus [n/6]: continue resumes there,
    and the pulse count starts afresh because stop has reset it. *)
Theorem start_then_pulses (st : AppState) (n : nat) :
  isPreviewMode st = false -> hasInput st = true ->
  absoluteStep (fst (handleMidiMessages st (0xFA :: repeat 0xF8 n)))
  = 1 + Z.of_nat n / 6
  /\ absoluteStep (fst (handleMidiMessages st (0xFC :: 0xFB :: repeat 0xF8 n)))
     = absoluteStep st + Z.of_nat n / 6.
Proof.
  intros Hv Hi.
  assert (HA : handleMidiMessage st 250 = clockStart st)
    by (unfold handleMidiMessage; rewrite Hv; reflexivity).
  assert (HC : handleMidiMessage st 252 = clockStop st)
    by (unfold handleMidiMessage; rewrite Hv; reflexivity).
  split.
  - rewrite handleMidiMessages_cons. cbn [fst]. rewrite HA.
    destruct (clockStart_state st) as [active ->].
    match goal with |- context [handleMidiMessages ?s _] =>
      pose proof (clockPulses_steps n s Hv Hi eq_refl ltac:(simpl; lia)) as (H1 & _)
    end.
    cbv zeta in H1. rewrite H1. simpl. rewrite Z.sub_0_r. reflexivity.
  - rewrite handleMidiMessages_cons. cbn [fst]. rewrite HC.
    destruct (clockStop_state st) as [active ->].
    rewrite handleMidiMessages_cons. cbn [fst].
    match goal with |- context [handleMidiMessage ?s 251] =>
      assert (HB : handleMidiMessage s 251 = clockContinue s)
        by (unfold handleMidiMessage; cbn [isPreviewMode]; rewrite Hv; reflexivity)
    end.
    rewrite HB. unfold clockContinue. cbn [fst].
    match goal with |- context [handleMidiMessages ?s _] =>
      pose proof (clockPulses_steps n s Hv Hi eq_refl ltac:(simpl; lia)) as (H1 & _)
    end.
    cbv zeta in H1. rewrite H1. simpl. rewrite Z.sub_0_r. reflexivity.
Qed.

Lemma start_then_pulses_witness :
  absoluteStep (fst (handleMidiMessages stoppedSession (0xFA :: repeat 0xF8 25))) = 5
  /\ absoluteStep (fst (handleMidiMessages externalSession
                          (0xFC :: 0xFB :: repeat 0xF8 12))) = 6.
Proof.
  split.
  - exact (proj1 (start_then_pulses stoppedSession 25 eq_refl eq_refl)).
  - exact (proj2 (start_then_pulses externalSession 12 eq_refl eq_refl)).
Defined.

(** X20.  A queued switch does not survive a stop.  After a request made
    while playing (no track chaining), pressing the transport button, or a
    stop message from the external clock, leaves the tracks as they were
    before the request and no pending map at all; pressing the button again
    (no paused preview to resume) starts playback from step 0 with nothing
    queued. *)
Theorem stop_discards_pending (st : AppState) (trackId : string) (i : Z) :
  isPlaying st = true -> anyTrackChaining (tracks st) = false ->
  let requested := handleSwitchPatternHistory st trackId i in
  (forall r,
     let stopped := handlePlayToggle requested r in
     tracks stopped = tracks st
     /\ isPlaying stopped = false
     /\ pendingPatternHistorySwitch stopped = None
     /\ let again := handlePlayToggle stopped false in
        tracks again = tracks st /\ isPlaying again = true
        /\ absoluteStep again = 0 /\ pendingPatternHistorySwitch again = None)
  /\ (isPreviewMode st = false ->
      let stopped := fst (handleMidiMessage requested 0xFC) in
      tracks stopped = tracks st
      /\ isPlaying stopped = false
      /\ pendingPatternHistorySwitch stopped = None).
Proof.
  intros Hp Hn requested.
  assert (Hreq : requested
                 = set_pending st (pendingSet (pendingPatternHistorySwitch st) trackId i)).
  { unfold requested, handleSwitchPatternHistory. rewrite Hp, Hn. reflexivity. }
  split.
  - intros r. cbv zeta. rewrite Hreq.
    assert (Hs : handlePlayToggle
                   (set_pending st (pendingSet (pendingPatternHistorySwitch st) trackId i)) r
                 = set_pending (set_isPlaying st false) None).
    { unfold handlePlayToggle. cbn [isPlaying set_pending]. rewrite Hp.
      destruct st; reflexivity. }
    rewrite Hs. unfold handlePlayToggle. cbn. auto 10.
  - intros Hv. cbv zeta. rewrite Hreq. unfold handleMidiMessage.
    cbn [isPreviewMode set_pending]. rewrite Hv. cbn [Z.eqb Pos.eqb andb].
    match goal with |- context [clockStop ?s] =>
      destruct (clockStop_state s) as [active ->] end.
    auto.
Qed.

Lemma stop_discards_pending_witness :
  pendingPatternHistorySwitch
    (handlePlayToggle (handleSwitchPatternHistory session "drum-track-0" 1) false) = None
  /\ map currentPatternIndex
       (tracks (handlePlayToggle (handleSwitchPatternHistory session "drum-track-0" 1) false))
     = [0; 0].
Proof.
  destruct (stop_discards_pending session "drum-track-0" 1 eq_refl eq_refl) as [Hbtn _].
  destruct (Hbtn false) as (Ht & _ & Hpd & _).
  split; [exact Hpd|]. rewrite Ht. reflexivity.
Defined.

(** X21.  Incoming bytes the handler does not act on.  On the audio backend
    no message is ever sent in response to an incoming byte, and only a stop
    byte changes the state, by ending playback.  In MIDI mode a byte other
    than clock, start, continue and stop is ignored, and so is a clock pulse
    while no input is selected: the session is not even put into external
    clock mode. *)
Theorem ignored_bytes (st : AppState) (command : Z) :
  (isPreviewMode st = true ->
   snd (handleMidiMessage st command) = []
   /\ (command <> 0xFC -> fst (handleMidiMessage st command) = st)
   /\ fst (handleMidiMessage st 0xFC)
      = (if isPlaying st then set_isPlaying st false else st))
  /\ (isPreviewMode st = false ->
      command <> 0xF8 -> command <> 0xFA -> command <> 0xFB -> command <> 0xFC ->
      handleMidiMessage st command = (st, []))
  /\ (isPreviewMode st = false -> hasInput st = false ->
      handleMidiMessage st 0xF8 = (st, [])).
Proof.
  split.
  { intros Hv. unfold handleMidiMessage. rewrite Hv. cbn [fst snd].
    split; [reflexivity|]. split; [|reflexivity].
    intros Hne. apply Z.eqb_neq in Hne. rewrite Hne. reflexivity. }
  split.
  { intros Hv H8 HA HB HC. unfold handleMidiMessage. rewrite Hv.
    apply Z.eqb_neq in H8, HA, HB, HC. rewrite H8, HA, HB, HC. reflexivity. }
  intros Hv Hi. unfold handleMidiMessage. rewrite Hv, Hi. reflexivity.
Qed.

Lemma ignored_bytes_witness :
  handleMidiMessage session 0xFE = (session, [])
  /\ handleMidiMessage previewSession 0xFA = (previewSession, []).
Proof.
  split.
  - apply (proj1 (proj2 (ignored_bytes session 0xFE))); [reflexivity|..]; discriminate.
  - pose proof (proj1 (ignored_bytes previewSession 0xFA) eq_refl) as (Hout & Hst & _).
    specialize (Hst ltac:(discriminate)).
    destruct (handleMidiMessage previewSession 250) as [s out].
    cbn [fst snd] in *. subst. reflexivity.
Defined.

(** ** Opening and closing the editor *)

Lemma barsOrDefaultIfZero_nonneg b : 0 <= b -> barsOrDefaultIfZero b = barsOrDefault b.
Proof.
  intros Hb. unfold barsOrDefaultIfZero, barsOrDefault.
  destruct (Z.eqb_spec b 0) as [->|Hne]; [reflexivity|].
  destruct (Z.ltb_spec 0 b); [reflexivity | lia].
Qed.

(** X22.  Opening the editor on a track is not audible by itself.  The copy
    put into the live-edit table is the track's current entry, so from then
    on the track resolves, at every step, to what [resolveCurrent] gives for
    its history: the same pattern at the same local step, also when the
    track is chaining its progression, which the editor thereby suspends.
    Nothing is sent, no track and no sounding note changes, and no other
    track gets an override.  (The entry must have a pattern and a bar count
    that is not negative.) *)
Theorem editor_opens_on_current_entry (st : AppState) (t : Track)
    (e : PatternHistoryEntry) (p : list MidiNote) :
  findTrack (tracks st) (t_id t) = Some t ->
  currentEntryOf t = Some e -> pattern e = Some p -> 0 <= bars e ->
  let r := handleSetFullscreenTrack st (Some (t_id t)) in
  snd r = []
  /\ tracks (fst r) = tracks st
  /\ activePlayingNotes (fst r) = activePlayingNotes st
  /\ (forall step, resolvePattern (fst r) t step = resolveCurrent t step)
  /\ (forall other, t_id other <> t_id t -> liveEditOverride (fst r) other = None).
Proof.
  intros Hfind He Hp Hb r. subst r. unfold handleSetFullscreenTrack.
  rewrite Hfind. cbn [fst snd].
  split; [reflexivity|]. split; [reflexivity|]. split; [reflexivity|]. split.
  - intros step. unfold resolvePattern, liveEditOverride.
    cbn [liveEditingPattern set_liveEditingPattern fullscreenTrackId
         set_fullscreenTrackId].
    rewrite lookup_insert_eq, String.eqb_refl.
    unfold liveEditFor, resolveCurrent. unfold currentEntryOf in He. rewrite He.
    cbn [le_pattern le_bars]. rewrite Hp, barsOrDefaultIfZero_nonneg by exact Hb.
    reflexivity.
  - intros other Hne. unfold liveEditOverride.
    cbn [liveEditingPattern set_liveEditingPattern fullscreenTrackId
         set_fullscreenTrackId].
    destruct (String.eqb_spec (t_id t) (t_id other)) as [Heq|_];
      [congruence|].
    destruct (_ !! t_id other) as [[d|]|]; reflexivity.
Qed.

Lemma editor_opens_on_current_entry_witness :
  resolvePattern (fst (handleSetFullscreenTrack chainSession (Some "drum-track-0")))
                 chainTrack 20
  = (Some patternA, 4).
Proof.
  pose proof (editor_opens_on_current_entry chainSession chainTrack
                (mkEntry (Some patternA) 1 "A") patternA
                eq_refl eq_refl eq_refl ltac:(simpl; lia)) as (_ & _ & _ & H & _).
  exact (H 20).
Defined.

(** X23.  Closing the editor in MIDI mode with an output selected silences
    the edited track and hands it back to its history.  The messages are one
    note-off for every note sounding on that track, in table order, then
    controller 123 (all notes off) on the track's channel; afterwards the
    track's entry in the table of sounding notes is empty or absent, the
    other tracks' entries are untouched, the live copy is gone and no track
    has an override. *)
Theorem editor_close_flushes (st : AppState) (previous : string) (t : Track) :
  fullscreenTrackId st = Some previous ->
  findTrack (tracks st) previous = Some t ->
  isPreviewMode st = false -> hasOutput st = true ->
  let r := handleSetFullscreenTrack st None in
  snd r
  = map noteOff (default [] (omap_get previous (activePlayingNotes st)))
    ++ [mkMsg (0xB0 + (channel t - 1)) 123 0]
  /\ default [] (omap_get previous (activePlayingNotes (fst r))) = []
  /\ (forall other, other <> previous ->
        omap_get other (activePlayingNotes (fst r))
        = omap_get other (activePlayingNotes st))
  /\ liveEditingPattern (fst r) !! previous = None
  /\ (forall track, liveEditOverride (fst r) track = None)
  /\ tracks (fst r) = tracks st.
Proof.
  intros Hf Hfind Hv Ho r. subst r. unfold handleSetFullscreenTrack.
  rewrite Hf, Hfind, Hv, Ho. cbn [negb andb].
  destruct (omap_get previous (activePlayingNotes st)) as [notes|] eqn:Hget;
    cbn [fst snd default activePlayingNotes set_activePlayingNotes
         set_liveEditingPattern liveEditingPattern tracks set_fullscreenTrackId].
  - split; [reflexivity|]. split; [rewrite omap_get_set_eq; reflexivity|].
    split; [intros other Hne; apply omap_get_set_ne; congruence|].
    split; [apply lookup_delete_eq|]. split; [|reflexivity].
    intros track. unfold liveEditOverride. cbn.
    destruct (_ !! t_id track) as [[d|]|]; reflexivity.
  - split; [reflexivity|]. split; [rewrite Hget; reflexivity|].
    split; [reflexivity|].
    split; [apply lookup_delete_eq|]. split; [|reflexivity].
    intros track. unfold liveEditOverride. cbn.
    destruct (_ !! t_id track) as [[d|]|]; reflexivity.
Qed.

Lemma editor_close_flushes_witness :
  snd (handleSetFullscreenTrack editingSoundingSession None)
  = [mkMsg 0x80 127 0; mkMsg 0xB0 123 0]
  /\ omap_get "drum-track-0"
       (activePlayingNotes (fst (handleSetFullscreenTrack editingSoundingSession None)))
     = Some [mkActive 36 6 10].
Proof.
  pose proof (editor_close_flushes editingSoundingSession "synth-track-1" synthTrack
                eq_refl eq_refl eq_refl eq_refl) as (Hout & _ & Hoth & _).
  split.
  - rewrite Hout. reflexivity.
  - rewrite (Hoth "drum-track-0") by discriminate. reflexivity.
Defined.

(** ** Export to a MIDI file *)

Lemma Math_round_grid (q : Q) (z : Z) : (q == inject_Z z)%Q -> Math_round q = z.
Proof.
  intros H. pose proof (Math_round_range z z q) as Hr.
  assert (z <= Math_round q <= z) by (apply Hr; rewrite H; apply Qle_refl). lia.
Qed.

Lemma ticks_of_steps (q : Q) (k : Z) :
  (q * 4 == inject_Z k)%Q -> Math_round (q * inject_Z MIDI_TICKS_PER_BEAT) = 32 * k.
Proof.
  intros H. apply Math_round_grid. rewrite inject_Z_mult, <- H.
  unfold MIDI_TICKS_PER_BEAT. change (inject_Z 128) with 128%Q.
  change (inject_Z 32) with 32%Q. ring.
Qed.

Lemma scaledVelocity_range (v : Z) :
  0 <= v <= 127 -> 1 <= Z.max 1 (Math_round ((inject_Z v / 127) * 100)) <= 100.
Proof.
  intros [H0 H1].
  assert (Hq0 : (0 <= inject_Z v)%Q) by (change 0%Q with (inject_Z 0); rewrite <- Zle_Qle; lia).
  assert (Hq1 : (inject_Z v <= 127)%Q)
    by (change 127%Q with (inject_Z 127); rewrite <- Zle_Qle; lia).
  assert (0 <= Math_round ((inject_Z v / 127) * 100) <= 100).
  { unfold Qdiv. change (/ 127)%Q with (1 # 127)%Q. apply Math_round_range.
    - change (inject_Z 0) with 0%Q. lra.
    - change (inject_Z 100) with 100%Q. lra. }
  lia.
Qed.

Lemma exportedNote_spec track n :
  let x := exportedNote track n in
  x_pitch x = note n
  /\ x_channel x = channel track
  /\ (0 <= velocity n <= 127 -> 1 <= x_velocity x <= 100)
  /\ (forall k, (time n * 4 == inject_Z k)%Q -> x_startTick x = 32 * k)
  /\ (forall k, (duration n * 4 == inject_Z k)%Q -> x_durationTicks x = 32 * k).
Proof.
  unfold exportedNote. cbn [x_pitch x_channel x_velocity x_startTick x_durationTicks].
  split; [reflexivity|]. split; [reflexivity|].
  split; [apply scaledVelocity_range|]. split; intros k; apply ticks_of_steps.
Qed.

(** X24.  What the MIDI file holds agrees with what playback sends.  For a
    track with a current pattern the export produces one note event per
    note, in pattern order, on the track's channel; a stored pitch that is a
    MIDI data byte is exported at the pitch playback sends for it (the octave
    shift of a synth track applied and clamped); a velocity in [0,127] is
    scaled into [1,100]; and a start or length of [k] sixteenth steps
    becomes [32 k] ticks.  The session itself is left unchanged. *)
Theorem export_matches_playback (st : AppState) (trackId : string) (track : Track)
    (e : PatternHistoryEntry) (p : list MidiNote) :
  findTrack (tracks st) trackId = Some track ->
  currentEntryOf track = Some e -> pattern e = Some p ->
  exists xs,
    handleDownloadPattern st trackId = (st, Some xs)
    /\ Forall2 (fun n x =>
                  x_channel x = channel track
                  /\ (0 <= note n <= 127 -> x_pitch x = finalNoteOf track n)
                  /\ (0 <= velocity n <= 127 -> 1 <= x_velocity x <= 100)
                  /\ (forall k, (time n * 4 == inject_Z k)%Q -> x_startTick x = 32 * k)
                  /\ (forall k, (duration n * 4 == inject_Z k)%Q ->
                        x_durationTicks x = 32 * k))
               p xs.
Proof.
  intros Hfind He Hp. unfold handleDownloadPattern. rewrite Hfind.
  unfold currentEntryOf in He. rewrite He, Hp. eexists. split; [reflexivity|].
  assert (Hone : forall n,
            exists n', (patternToDownload track [n] = [n'])
                       /\ velocity n' = velocity n /\ time n' = time n
                       /\ duration n' = duration n
                       /\ (0 <= note n <= 127 -> note n' = finalNoteOf track n)).
  { intros n. unfold patternToDownload, finalNoteOf.
    destruct (t_type track), (octaveShift track) as [s|];
      try (exists n; repeat split; auto; intros; lia).
    destruct (Z.eqb_spec s 0) as [->|Hs].
    - exists n. repeat split; auto. intros; lia.
    - eexists. split; [reflexivity|]. cbn. repeat split; auto. }
  assert (Hcons : forall n q,
            patternToDownload track (n :: q)
            = patternToDownload track [n] ++ patternToDownload track q).
  { intros n q. unfold patternToDownload.
    destruct (t_type track), (octaveShift track) as [s|]; try reflexivity.
    destruct (s =? 0); reflexivity. }
  assert (Hnil : patternToDownload track [] = []).
  { unfold patternToDownload.
    destruct (t_type track), (octaveShift track) as [s|]; try reflexivity.
    destruct (s =? 0); reflexivity. }
  clear He Hp Hfind. induction p as [|n q IH].
  - rewrite Hnil. constructor.
  - rewrite Hcons. destruct (Hone n) as (n' & -> & Hv & Ht & Hd & Hn).
    cbn [app map]. constructor; [|exact IH].
    destruct (exportedNote_spec track n') as (Hx1 & Hx2 & Hx3 & Hx4 & Hx5).
    rewrite Hv in Hx3. rewrite Ht in Hx4. rewrite Hd in Hx5.
    split; [exact Hx2|]. split; [intros Hr; rewrite Hx1; auto|].
    split; [exact Hx3|]. split; assumption.
Qed.

Lemma export_matches_playback_witness :
  exists xs,
    handleDownloadPattern session "synth-track-1" = (session, Some xs)
    /\ map x_pitch xs = map (finalNoteOf synthTrack) leadPattern
    /\ map x_startTick xs = [0; 64].
Proof.
  destruct (export_matches_playback session "synth-track-1" synthTrack
              (mkEntry (Some leadPattern) 2 "lead") leadPattern
              eq_refl eq_refl eq_refl) as (xs & Heq & Hall).
  exists xs. split; [exact Heq|].
  inversion Hall as [|n1 x1 q1 r1 (_ & Hp1 & _ & Ht1 & _) Hrest]; subst.
  inversion Hrest as [|n2 x2 q2 r2 (_ & Hp2 & _ & Ht2 & _) Hnil]; subst.
  inversion Hnil; subst. cbn [map].
  rewrite (Hp1 ltac:(simpl; lia)), (Hp2 ltac:(simpl; lia)).
  rewrite (Ht1 0 ltac:(reflexivity)), (Ht2 2 ltac:(reflexivity)).
  split; reflexivity.
Defined.

(** ** Track parameters *)

Lemma Math_clampQ_range (d : Q) : (0 <= Math_maxQ 0 (Math_minQ 1 d) <= 1)%Q.
Proof.
  unfold Math_maxQ, Math_minQ.
  destruct (Qle_bool 1 d) eqn:E1.
  - destruct (Qle_bool 0 1) eqn:E0; [lra|]. discriminate.
  - assert (H1 : ~ (1 <= d)%Q) by (rewrite <- Qle_bool_iff, E1; discriminate).
    destruct (Qle_bool 0 d) eqn:E0.
    + apply Qle_bool_iff in E0. lra.
    + lra.
Qed.

Lemma updatedLane_inRange depthParam offsetParam lane :
  laneInRange lane -> laneInRange (updatedLane depthParam offsetParam lane).
Proof.
  intros [Hd Ho]. unfold updatedLane, laneInRange. cbn [depth offset]. split.
  - destruct depthParam as [d|]; [|exact Hd].
    intros d' [= <-]. apply Math_clampQ_range.
  - destruct offsetParam as [o|]; [|exact Ho].
    intros o' [= <-]. eexists. split; [|reflexivity]. lia.
Qed.

(** X25.  The lane parameters stay in the range the sequencer's formula
    expects.  If every lane of the session has its depth, when set, in
    [0,1] and its offset, when set, a whole number in [-127,127], then so
    has every lane after [handleUpdateCcAutomationParams], whatever depth
    and offset are passed.  The update changes no pattern history, and on a
    track that holds the addressed lane it replaces that lane only, keeping
    its controller number, events and length. *)
Theorem cc_params_stay_in_range (st : AppState) (trackId : string) (laneIndex : Z)
    (depthParam offsetParam : option Q) :
  lanesInRange (tracks st) ->
  let st' := handleUpdateCcAutomationParams st trackId laneIndex depthParam offsetParam in
  lanesInRange (tracks st')
  /\ map patternHistory (tracks st') = map patternHistory (tracks st)
  /\ Forall2 (fun t t' =>
       forall lanes lane,
         t_id t = trackId -> ccAutomationData t = Some lanes ->
         js_index lanes laneIndex = Some (Some lane) ->
         exists lanes' lane',
           ccAutomationData t' = Some lanes'
           /\ js_index lanes' laneIndex = Some (Some lane')
           /\ cc lane' = cc lane /\ events lane' = events lane
           /\ cc_bars lane' = cc_bars lane
           /\ length lanes' = length lanes
           /\ forall j, j <> laneIndex -> js_index lanes' j = js_index lanes j)
       (tracks st) (tracks st').
Proof.
  intros Hin st'. subst st'. unfold handleUpdateCcAutomationParams.
  cbn [tracks set_tracks]. split; [|split].
  - intros t' lanes' lane' Ht' Hl' Hlane'.
    apply in_map_iff in Ht' as (t & <- & Ht).
    destruct (String.eqb (t_id t) trackId); [|exact (Hin t _ _ Ht Hl' Hlane')].
    destruct (ccAutomationData t) as [lanes|] eqn:El; [|congruence].
    destruct (js_index lanes laneIndex) as [[lane|]|] eqn:Ei;
      try exact (Hin t _ _ Ht Hl' Hlane').
    cbn [ccAutomationData withCcAutomationData] in Hl'. injection Hl' as <-.
    apply list_elem_of_In, list_elem_of_lookup in Hlane' as [j Hj].
    apply list_lookup_insert_Some in Hj as [(_ & Heq & _)|(_ & Hj)].
    + injection Heq as <-. apply updatedLane_inRange.
      apply (Hin t lanes lane Ht El).
      unfold js_index in Ei. destruct (laneIndex <? 0); [discriminate|].
      apply list_elem_of_In. eapply list_elem_of_lookup_2. exact Ei.
    + apply (Hin t lanes lane' Ht El). apply list_elem_of_In.
      eapply list_elem_of_lookup_2. exact Hj.
  - rewrite map_map. apply map_ext. intros t.
    destruct (String.eqb (t_id t) trackId); [|reflexivity].
    destruct (ccAutomationData t) as [lanes|]; [|reflexivity].
    destruct (js_index lanes laneIndex) as [[lane|]|]; reflexivity.
  - clear Hin. induction (tracks st) as [|t ts IH]; [constructor|].
    cbn [map]. constructor; [|exact IH].
    intros lanes lane Hid Hl Hi.
    apply String.eqb_eq in Hid. rewrite Hid, Hl, Hi.
    cbn [ccAutomationData withCcAutomationData].
    unfold js_index in Hi |- *.
    destruct (Z.ltb_spec laneIndex 0) as [|Hpos]; [discriminate|].
    exists (<[Z.to_nat laneIndex := Some (updatedLane depthParam offsetParam lane)]> lanes),
           (updatedLane depthParam offsetParam lane).
    split; [reflexivity|].
    split; [apply list_lookup_insert_eq; eapply lookup_lt_Some; exact Hi|].
    split; [reflexivity|]. split; [reflexivity|]. split; [reflexivity|].
    split; [apply length_insert|].
    intros j Hj. destruct (j <? 0) eqn:Ej; [reflexivity|].
    apply list_lookup_insert_ne. apply Z.ltb_ge in Ej. lia.
Qed.

Lemma cc_params_stay_in_range_witness :
  lanesInRange
    (tracks (handleUpdateCcAutomationParams session "synth-track-1" 0
               (Some (3 # 2)%Q) (Some (-(400 # 1))%Q))).
Proof.
  apply (cc_params_stay_in_range session "synth-track-1" 0).
  intros t lanes lane Ht Hl Hlane. simpl in Ht.
  destruct Ht as [<-|[<-|[]]]; [discriminate|].
  injection Hl as <-. simpl in Hlane.
  destruct Hlane as [[= <-]|[|[|[]]]]; try discriminate.
  split.
  - intros d [= <-]. split; discriminate.
  - intros o. discriminate.
Defined.

(** X26.  The octave shift a user can set is confined to two octaves.
    After [handleUpdateTrackOctaveShift] a synth track with the given id has
    the shift clamped to [-2,2], so that a stored pitch that is a MIDI data
    byte is sent at most 24 semitones away from where it is stored; drum
    tracks, and tracks with another id, are left exactly as they were, and
    no track's pattern history changes. *)
Theorem octave_shift_is_confined (st : AppState) (trackId : string) (newShift : Z) :
  let st' := handleUpdateTrackOctaveShift st trackId newShift in
  let s := clamp (-2) 2 newShift in
  map patternHistory (tracks st') = map patternHistory (tracks st)
  /\ Forall2 (fun t t' =>
       (t_type t = DRUM \/ t_id t <> trackId -> t' = t)
       /\ (t_type t = SYNTH -> t_id t = trackId ->
           octaveShift t' = Some s /\ -2 <= s <= 2
           /\ forall n, 0 <= note n <= 127 ->
                 finalNoteOf t' n = clamp 0 127 (note n + s * 12)
                 /\ -24 <= finalNoteOf t' n - note n <= 24))
       (tracks st) (tracks st').
Proof.
  cbv zeta. unfold handleUpdateTrackOctaveShift. cbn [tracks set_tracks]. split.
  - rewrite map_map. apply map_ext. intros t.
    destruct (t_type t); [reflexivity|].
    destruct (String.eqb (t_id t) trackId); reflexivity.
  - induction (tracks st) as [|t ts IH]; [constructor|].
    cbn [map]. constructor; [|exact IH]. split.
    + intros [Hd|Hne]; [rewrite Hd; reflexivity|].
      apply String.eqb_neq in Hne. rewrite Hne. destruct (t_type t); reflexivity.
    + intros Hs Hid. apply String.eqb_eq in Hid. rewrite Hs, Hid.
      unfold MIN_OCTAVE_SHIFT, MAX_OCTAVE_SHIFT, clamp.
      split; [reflexivity|]. split; [lia|].
      intros n Hn. unfold finalNoteOf.
      cbn [t_type octaveShift withOctaveShift note]. rewrite Hs. lia.
Qed.

Lemma octave_shift_is_confined_witness :
  map octaveShift (tracks (handleUpdateTrackOctaveShift session "synth-track-1" 5))
  = [None; Some 2]
  /\ map octaveShift (tracks (handleUpdateTrackOctaveShift session "drum-track-0" 1))
     = [None; Some 1].
Proof.
  split.
  - destruct (octave_shift_is_confined session "synth-track-1" 5) as [_ Hall].
    change (tracks session) with [drumTrack; synthTrack] in Hall.
    remember (tracks (handleUpdateTrackOctaveShift session "synth-track-1" 5)) as res
      eqn:Hres.
    clear Hres.
    inversion Hall as [|t1 u1 q1 r1 [Hd _] Hrest]; subst.
    inversion Hrest as [|t2 u2 q2 r2 [_ Hs] Hnil]; subst.
    inversion Hnil; subst.
    destruct (Hs eq_refl eq_refl) as (Hshift & _).
    cbn [map]. rewrite (Hd (or_introl eq_refl)), Hshift. reflexivity.
  - destruct (octave_shift_is_confined session "drum-track-0" 1) as [_ Hall].
    change (tracks session) with [drumTrack; synthTrack] in Hall.
    remember (tracks (handleUpdateTrackOctaveShift session "drum-track-0" 1)) as res
      eqn:Hres.
    clear Hres.
    inversion Hall as [|t1 u1 q1 r1 [Hd _] Hrest]; subst.
    inversion Hrest as [|t2 u2 q2 r2 [Hd2 _] Hnil]; subst.
    inversion Hnil; subst.
    cbn [map]. rewrite (Hd (or_introl eq_refl)).
    assert (Hne : t_id synthTrack <> "drum-track-0")
      by (apply String.eqb_neq; reflexivity).
    rewrite (Hd2 (or_intror Hne)). reflexivity.
Defined.

(** X27.  Switching progression chaining on and off.  Toggling a track
    twice gives back the track list; toggling never touches a pattern
    history or a selected index; and once chaining has been switched on for
    a track that was not chaining, a request to switch any track is applied
    at once even though the transport is playing: the requested track gets
    the new index, if it is one of its history, and instead of queueing the
    request the handler removes that track's entry from the pending map. *)
Theorem chaining_toggle (st : AppState) (trackId : string) :
  tracks (handleToggleTrackProgression (handleToggleTrackProgression st trackId) trackId)
  = tracks st
  /\ map patternHistory (tracks (handleToggleTrackProgression st trackId))
     = map patternHistory (tracks st)
  /\ map currentPatternIndex (tracks (handleToggleTrackProgression st trackId))
     = map currentPatternIndex (tracks st)
  /\ (forall t, findTrack (tracks st) trackId = Some t ->
        isProgressionChaining t = false ->
        let chained := handleToggleTrackProgression st trackId in
        anyTrackChaining (tracks chained) = true
        /\ forall other i,
             tracks (handleSwitchPatternHistory chained other i)
             = map (switchNow other i) (tracks chained)
             /\ pendingPatternHistorySwitch (handleSwitchPatternHistory chained other i)
                = pendingDelete (pendingPatternHistorySwitch st) other).
Proof.
  unfold handleToggleTrackProgression. cbn [tracks set_tracks].
  split; [|split; [|split]].
  - unfold onTrack. rewrite map_map. rewrite <- (map_id (tracks st)) at 2.
    apply map_ext. intros t.
    destruct (String.eqb (t_id t) trackId) eqn:E; [|rewrite E; reflexivity].
    cbn [t_id withProgressionChaining]. rewrite E.
    destruct t; cbn. rewrite Bool.negb_involutive. reflexivity.
  - apply onTrack_history. reflexivity.
  - unfold onTrack. rewrite map_map. apply map_ext. intros t.
    destruct (String.eqb (t_id t) trackId); reflexivity.
  - intros t Hfind Hc. cbv zeta.
    assert (Hany : anyTrackChaining
                     (onTrack trackId
                        (fun t0 => withProgressionChaining (negb (isProgressionChaining t0)) t0)
                        (tracks st)) = true).
    { unfold findTrack in Hfind. apply find_some in Hfind as [Hin Hid].
      unfold anyTrackChaining. apply existsb_exists.
      exists (withProgressionChaining (negb (isProgressionChaining t)) t). split.
      - unfold onTrack. apply in_map_iff. exists t. rewrite Hid. auto.
      - cbn. rewrite Hc. reflexivity. }
    split; [exact Hany|]. intros other i. unfold handleSwitchPatternHistory.
    cbn [tracks set_tracks isPlaying]. rewrite Hany, Bool.andb_false_r.
    split; reflexivity.
Qed.

Lemma chaining_toggle_witness :
  tracks (handleSwitchPatternHistory
            (handleToggleTrackProgression session "synth-track-1") "drum-track-0" 1)
  = map (switchNow "drum-track-0" 1)
        (tracks (handleToggleTrackProgression session "synth-track-1")).
Proof.
  destruct (chaining_toggle session "synth-track-1") as (_ & _ & _ & H).
  destruct (H synthTrack eq_refl eq_refl) as [_ Hs].
  exact (proj1 (Hs "drum-track-0" 1)).
Defined.

(** ** Queued switches on the external clock *)

Lemma loopEndStep_ge16 st : 16 <= loopEndStep st.
Proof. unfold loopEndStep. rewrite Math_max16_spec. lia. Qed.

Lemma clockPulse_unfold st :
  pulseEmitsStep st = true ->
  let st4 := set_absoluteStep (fst (processMidiStep (pulseCounted st) (absoluteStep st)))
                              (absoluteStep st + 1) in
  fst (clockPulse st)
  = if negb (anyTrackChaining (tracks st))
       && atLoopBoundary (loopEndStep st) (absoluteStep st)
       && pendingNonEmpty (pendingPatternHistorySwitch st)
    then fst (applyPendingSwitches st4)
    else st4.
Proof.
  unfold pulseEmitsStep. intros He. apply andb_prop in He as [Hc Hp].
  cbv zeta. unfold clockPulse, pulseCounted.
  cbn [clockTickCounter set_clockTickCounter set_isExternalClock isPlaying absoluteStep].
  rewrite Hc, Hp.
  match goal with |- context [processMidiStep ?s ?n] =>
    destruct (processMidiStep_frame s n) as [active Hf];
    destruct (processMidiStep s n) as [st3 out1]
  end.
  cbn [fst] in Hf |- *. subst st3.
  match goal with |- context [loopEndStep ?s] =>
    change (loopEndStep s) with (loopEndStep st) end.
  cbn [tracks pendingPatternHistorySwitch set_absoluteStep set_activePlayingNotes
       set_clockTickCounter set_isExternalClock].
  destruct (negb (anyTrackChaining (tracks st))
            && atLoopBoundary (loopEndStep st) (absoluteStep st)
            && pendingNonEmpty (pendingPatternHistorySwitch st)); [|reflexivity].
  match goal with |- context [applyPendingSwitches ?s] =>
    destruct (applyPendingSwitches s) as [st5 out2] end.
  reflexivity.
Qed.

(** X28.  Queued switches on the external clock.  With the transport
    playing in MIDI mode, an input selected, no track chaining and a
    non-empty pending map [m], a clock pulse applies [m] exactly when it is
    a sixth pulse and the step it emits is the last one of the shared loop:
    then every track gets [applySwitch m], the pending map becomes empty and
    the counter stands at the start of the loop.  Any other pulse leaves the
    tracks and the pending map as they are. *)
Theorem pulse_switches_at_loop_end (st : AppState) (m : gmap string Z) :
  isPreviewMode st = false -> hasInput st = true -> isPlaying st = true ->
  anyTrackChaining (tracks st) = false ->
  pendingPatternHistorySwitch st = Some m -> m <> ∅ ->
  0 <= absoluteStep st -> 0 <= clockTickCounter st ->
  let r := fst (handleMidiMessage st 0xF8) in
  let L := loopEndStep st in
  ((clockTickCounter st + 1) mod 6 = 0 -> absoluteStep st mod L = L - 1 ->
   tracks r = map (applySwitch m) (tracks st)
   /\ pendingPatternHistorySwitch r = Some ∅
   /\ absoluteStep r mod L = 0)
  /\ ((clockTickCounter st + 1) mod 6 <> 0 \/ absoluteStep st mod L <> L - 1 ->
      tracks r = tracks st /\ pendingPatternHistorySwitch r = Some m).
Proof.
  intros Hv Hi Hp Hn Hm Hne Hs Hc r L.
  assert (HL : 16 <= L) by apply loopEndStep_ge16.
  assert (Hr : r = fst (clockPulse st)).
  { unfold r, handleMidiMessage. rewrite Hv, Hi. reflexivity. }
  assert (Hemit : pulseEmitsStep st = ((clockTickCounter st + 1) mod 6 =? 0)).
  { unfold pulseEmitsStep. rewrite Hp, Bool.andb_true_r.
    change (PPQN / 4) with 6. rewrite js_rem_nonneg by lia. reflexivity. }
  assert (Hpend : pendingNonEmpty (pendingPatternHistorySwitch st) = true).
  { rewrite Hm. unfold pendingNonEmpty. rewrite bool_decide_eq_false_2 by exact Hne.
    reflexivity. }
  split.
  - intros H6 Hb. rewrite Hr, clockPulse_unfold by (rewrite Hemit; apply Z.eqb_eq; exact H6).
    rewrite Hn, Hpend.
    replace (atLoopBoundary (loopEndStep st) (absoluteStep st)) with true
      by (symmetry; apply atLoopBoundary_iff; [fold L; lia | exact Hs | exact Hb]).
    cbn [negb andb].
    match goal with |- context [applyPendingSwitches ?s] =>
      destruct (applyPendingSwitches_some s m) as (Ht & Hq & Ha)
    end.
    { destruct (processMidiStep_frame (pulseCounted st) (absoluteStep st)) as [a ->].
      exact Hm. }
    rewrite Ht, Hq, Ha. cbn [tracks absoluteStep set_absoluteStep].
    rewrite processMidiStep_tracks. split; [reflexivity|]. split; [reflexivity|].
    rewrite <- Z.add_mod_idemp_l by lia. rewrite Hb.
    replace (L - 1 + 1) with L by lia. apply Z.mod_same. lia.
  - intros Hor. rewrite Hr.
    destruct (Z.eq_dec ((clockTickCounter st + 1) mod 6) 0) as [H6|H6].
    + rewrite clockPulse_unfold by (rewrite Hemit; apply Z.eqb_eq; exact H6).
      destruct Hor as [Hor|Hor]; [contradiction|].
      replace (atLoopBoundary (loopEndStep st) (absoluteStep st)) with false.
      2:{ symmetry. apply Bool.not_true_is_false. intros Hb.
          apply atLoopBoundary_iff in Hb; [|fold L; lia|exact Hs]. contradiction. }
      rewrite Bool.andb_false_r. cbn [andb].
      destruct (processMidiStep_frame (pulseCounted st) (absoluteStep st)) as [a ->].
      split; [reflexivity|exact Hm].
    + unfold clockPulse. cbn [clockTickCounter set_clockTickCounter set_isExternalClock].
      change (PPQN / 4) with 6. rewrite js_rem_nonneg by lia.
      apply Z.eqb_neq in H6. rewrite H6. split; [reflexivity|exact Hm].
Qed.

Lemma pulse_switches_at_loop_end_witness :
  map currentPatternIndex (tracks (fst (handleMidiMessage externalQueuedSession 0xF8)))
  = [1; 0]
  /\ pendingPatternHistorySwitch (fst (handleMidiMessage externalQueuedSession 0xF8))
     = Some ∅.
Proof.
  destruct (pulse_switches_at_loop_end externalQueuedSession {[ "drum-track-0" := 1 ]}
              eq_refl eq_refl eq_refl eq_refl eq_refl
              ltac:(apply insert_non_empty) ltac:(simpl; lia) ltac:(simpl; lia))
    as [Happly _].
  destruct (Happly eq_refl eq_refl) as (Ht & Hq & _).
  split; [rewrite Ht; reflexivity|exact Hq].
Defined.

(** ** Channel of a new synth track *)

Lemma In_CHANNELS k : In k CHANNELS <-> 1 <= k <= 16.
Proof. unfold CHANNELS. simpl. lia. Qed.

Lemma CHANNELS_sorted : StronglySorted Z.lt CHANNELS.
Proof. unfold CHANNELS. repeat constructor; lia. Qed.

Lemma find_all_false {A} (p : A -> bool) l :
  (forall x, In x l -> p x = false) -> find p l = None.
Proof.
  induction l as [|x l IH]; [reflexivity|]. intros H. simpl.
  rewrite (H x) by (left; reflexivity). apply IH. intros y Hy. apply H. right. exact Hy.
Qed.

Lemma find_before {A} (p : A -> bool) l1 x l2 :
  (forall y, In y l1 -> p y = false) -> p x = true -> find p (l1 ++ x :: l2) = Some x.
Proof.
  intros H Hx. induction l1 as [|y l1 IH]; simpl.
  - rewrite Hx. reflexivity.
  - rewrite (H y) by (left; reflexivity). apply IH. intros z Hz. apply H. right. exact Hz.
Qed.

Lemma find_sorted_least (p : Z -> bool) l c :
  StronglySorted Z.lt l -> find p l = Some c ->
  forall k, In k l -> p k = true -> c <= k.
Proof.
  intros Hs. induction Hs as [|x l Hs IH Hall]; [discriminate|].
  simpl. intros Hf k Hk Hp. destruct (p x) eqn:Ex.
  - injection Hf as <-. destruct Hk as [<-|Hk]; [lia|].
    rewrite List.Forall_forall in Hall. specialize (Hall k Hk). lia.
  - destruct Hk as [<-|Hk]; [congruence|]. exact (IH Hf k Hk Hp).
Qed.

Lemma channelInUse_has ts c :
  channelInUse ts c <-> bool_decide (c ∈ (list_to_set (map channel ts) : gset Z)) = true.
Proof.
  rewrite bool_decide_eq_true, elem_of_list_to_set, list_elem_of_In, in_map_iff.
  unfold channelInUse. split; intros (t & H1 & H2); exists t; auto.
Qed.

Lemma channelLoop_first used len values :
  forall n c,
    find (fun i => negb (i =? 10) && negb (bool_decide (i ∈ used))) values = Some c ->
    channelLoop used len values n = c.
Proof.
  induction values as [|i rest IH]; intros n c; simpl; [discriminate|].
  destruct (negb (i =? 10) && negb (bool_decide (i ∈ used))).
  - intros [= <-]. reflexivity.
  - apply IH.
Qed.

Lemma channelLoop_stuck used len values x :
  (forall i, In i values ->
     negb (i =? 10) && negb (bool_decide (i ∈ used)) = false) ->
  (forall i, In i values -> channelLoopBody used len i x = x) ->
  channelLoop used len values x = x.
Proof.
  induction values as [|i rest IH]; intros Hfree Hbody; simpl; [reflexivity|].
  rewrite (Hfree i) by (left; reflexivity).
  rewrite (Hbody i) by (left; reflexivity).
  apply IH; intros j Hj; [apply Hfree|apply Hbody]; right; exact Hj.
Qed.

Lemma fallbackChannel_range len :
  0 <= len -> 1 <= fallbackChannel len <= 16 /\ fallbackChannel len <> 10.
Proof.
  intros Hl. unfold fallbackChannel. rewrite js_rem_nonneg by lia.
  pose proof (Z.mod_pos_bound len 15 ltac:(lia)).
  destruct (Z.leb_spec 9 (len mod 15)); lia.
Qed.

(** The loop when no channel other than 10 is free. *)
Lemma channelLoop_exhausted used len :
  0 <= len ->
  (forall k, 1 <= k <= 16 -> k <> 10 -> bool_decide (k ∈ used) = true) ->
  channelLoop used len CHANNELS 1
  = if bool_decide (10 ∈ used) then fallbackChannel len else 10.
Proof.
  intros Hl Hused.
  assert (Hnofree : forall i, In i CHANNELS ->
            negb (i =? 10) && negb (bool_decide (i ∈ used)) = false).
  { intros i Hi. apply In_CHANNELS in Hi.
    destruct (Z.eqb_spec i 10) as [|Hne]; [reflexivity|].
    rewrite (Hused i Hi Hne). reflexivity. }
  assert (Hfirst : forall n,
            firstChannel (fun j => negb (j =? 10) && negb (bool_decide (j ∈ used))) n = n).
  { intros n. unfold firstChannel. rewrite (find_all_false _ _ Hnofree). reflexivity. }
  assert (Hstep1 : forall i n,
            (if i =? 16
             then firstChannel (fun j => negb (j =? 10) && negb (bool_decide (j ∈ used))) n
             else n) = n).
  { intros i n. destruct (i =? 16); [apply Hfirst|reflexivity]. }
  change CHANNELS with (1 :: tl CHANNELS). cbn [channelLoop].
  rewrite (Hnofree 1) by (apply In_CHANNELS; lia).
  assert (Htl : forall i, In i (tl CHANNELS) -> In i CHANNELS)
    by (intros i Hi; right; exact Hi).
  destruct (bool_decide (10 ∈ used)) eqn:H10.
  - (* every channel is taken *)
    assert (Hall : forall k, 1 <= k <= 16 -> bool_decide (k ∈ used) = true).
    { intros k Hk. destruct (Z.eq_dec k 10) as [->|Hne]; [exact H10|auto]. }
    assert (Hnone : forall n, firstChannel (fun j => negb (bool_decide (j ∈ used))) n = n).
    { intros n. unfold firstChannel. rewrite find_all_false; [reflexivity|].
      intros j Hj. apply In_CHANNELS in Hj. rewrite (Hall j Hj). reflexivity. }
    destruct (fallbackChannel_range len Hl) as [Hf _].
    assert (Hbody : forall i n, bool_decide (n ∈ used) = true ->
              channelLoopBody used len i n = fallbackChannel len).
    { intros i n Hn. unfold channelLoopBody. rewrite Hstep1, Hn. cbn [orb].
      rewrite Hnone, Hn. reflexivity. }
    rewrite Hbody by (apply Hall; lia).
    apply channelLoop_stuck.
    + intros i Hi. apply Hnofree, Htl, Hi.
    + intros i _. apply Hbody, Hall, Hf.
  - (* only channel 10 is left *)
    assert (Hten : forall n, firstChannel (fun j => negb (bool_decide (j ∈ used))) n = 10).
    { intros n. unfold firstChannel.
      change CHANNELS with ([1; 2; 3; 4; 5; 6; 7; 8; 9] ++ 10 :: [11; 12; 13; 14; 15; 16]).
      rewrite find_before; [reflexivity| |rewrite H10; reflexivity].
      intros y Hy. rewrite Hused; [reflexivity| |]; simpl in Hy; lia. }
    assert (Hbody1 : forall i, channelLoopBody used len i 1 = 10).
    { intros i. unfold channelLoopBody. rewrite Hstep1.
      rewrite (Hused 1) by lia. cbn [orb]. rewrite Hten, H10. reflexivity. }
    assert (Hbody10 : forall i, channelLoopBody used len i 10 = 10).
    { intros i. unfold channelLoopBody. rewrite Hstep1, H10. cbn [orb Z.eqb Pos.eqb andb].
      destruct (15 <=? Z.of_nat (size used)); [rewrite Hten|]; rewrite H10; reflexivity. }
    rewrite Hbody1. apply channelLoop_stuck.
    + intros i Hi. apply Hnofree, Htl, Hi.
    + intros i _. apply Hbody10.
Qed.

(** X29.  The channel given to a new synth track.  It always lies in
    1..16.  If some channel of 1..16 other than 10 is not used by any track,
    the new track gets the lowest such channel.  Channel 10 is given only
    when every other channel of 1..16 is taken, and a channel already in use
    only when all sixteen are.  The track is appended as an unmuted synth
    track without patterns; the tracks before it are kept. *)
Theorem new_synth_track_channel (st : AppState) (now : Z) :
  let ts := tracks st in
  let c := nextSynthChannel ts in
  1 <= c <= 16
  /\ (forall k, 1 <= k <= 16 -> k <> 10 -> ~ channelInUse ts k ->
        c <> 10 /\ ~ channelInUse ts c /\ c <= k)
  /\ (c = 10 -> forall k, 1 <= k <= 16 -> k <> 10 -> channelInUse ts k)
  /\ (channelInUse ts c -> forall k, 1 <= k <= 16 -> channelInUse ts k)
  /\ exists t,
       tracks (addSynthTrack st now) = ts ++ [t]
       /\ channel t = c /\ t_type t = SYNTH /\ patternHistory t = []
       /\ isMuted t = false /\ isProgressionChaining t = false.
Proof.
  intros ts c.
  assert (Hmain :
    1 <= c <= 16
    /\ (forall k, 1 <= k <= 16 -> k <> 10 -> ~ channelInUse ts k ->
          c <> 10 /\ ~ channelInUse ts c /\ c <= k)
    /\ (channelInUse ts c -> forall k, 1 <= k <= 16 -> channelInUse ts k)).
  { subst c. unfold nextSynthChannel.
    set (used := (list_to_set (map channel ts) : gset Z)).
    set (free := fun i => negb (i =? 10) && negb (bool_decide (i ∈ used))).
    assert (Hfree : forall k, free k = true <-> k <> 10 /\ ~ channelInUse ts k).
    { intros k. unfold free. rewrite Bool.andb_true_iff, !Bool.negb_true_iff.
      rewrite Z.eqb_neq, channelInUse_has. fold used.
      destruct (bool_decide (k ∈ used)); intuition congruence. }
    destruct (find free CHANNELS) as [c|] eqn:Hfind.
    - rewrite (channelLoop_first used _ CHANNELS 1 c Hfind).
      pose proof (find_some _ _ Hfind) as [Hin Hc].
      apply In_CHANNELS in Hin. apply Hfree in Hc as [Hc10 Hcfree].
      split; [exact Hin|]. split; [|intros Hu; contradiction].
      intros k Hk Hk10 Hkfree. split; [exact Hc10|]. split; [exact Hcfree|].
      apply (find_sorted_least free CHANNELS c CHANNELS_sorted Hfind).
      + apply In_CHANNELS, Hk.
      + apply Hfree. auto.
    - pose proof (find_none _ _ Hfind) as Hnone.
      assert (Hused : forall k, 1 <= k <= 16 -> k <> 10 -> bool_decide (k ∈ used) = true).
      { intros k Hk Hk10. specialize (Hnone k (proj2 (In_CHANNELS k) Hk)).
        unfold free in Hnone. apply Z.eqb_neq in Hk10. rewrite Hk10 in Hnone.
        cbn [negb andb] in Hnone. apply Bool.negb_false_iff. exact Hnone. }
      rewrite (channelLoop_exhausted used (Z.of_nat (length ts)) (Zle_0_nat _) Hused).
      assert (Hno : forall k, 1 <= k <= 16 -> k <> 10 -> ~ channelInUse ts k -> False).
      { intros k Hk Hk10 Hkfree. apply Hkfree, channelInUse_has. fold used. auto. }
      destruct (bool_decide (10 ∈ used)) eqn:H10.
      + destruct (fallbackChannel_range (Z.of_nat (length ts)) ltac:(lia)) as [Hr _].
        split; [exact Hr|]. split; [intros k Hk Hk10 Hkfree; destruct (Hno k Hk Hk10 Hkfree)|].
        intros _ k Hk. apply channelInUse_has. fold used.
        destruct (Z.eq_dec k 10) as [->|Hne]; [exact H10|auto].
      + split; [lia|]. split; [intros k Hk Hk10 Hkfree; destruct (Hno k Hk Hk10 Hkfree)|].
        intros Hu. apply channelInUse_has in Hu. fold used in Hu. congruence. }
  destruct Hmain as (Hrange & Hlow & Hcoll).
  split; [exact Hrange|]. split; [exact Hlow|]. split; [|split; [exact Hcoll|]].
  - intros Hc k Hk Hk10.
    destruct (bool_decide (k ∈ (list_to_set (map channel ts) : gset Z))) eqn:E.
    + apply channelInUse_has. exact E.
    + destruct (Hlow k Hk Hk10) as [Hne _]; [|contradiction].
      intros Hu. apply channelInUse_has in Hu. congruence.
  - exists (newSynthTrack ts now). repeat split.
Qed.

Lemma new_synth_track_channel_witness :
  nextSynthChannel (tracks session) = 2
  /\ exists t, tracks (addSynthTrack session 1700000000000) = tracks session ++ [t]
               /\ channel t = 2.
Proof.
  destruct (new_synth_track_channel session 1700000000000)
    as (Hrange & Hlow & _ & _ & t & Ht & Hc & _).
  cbv zeta in Hrange, Hlow, Ht, Hc.
  assert (H2 : ~ channelInUse (tracks session) 2).
  { intros (u & Hu & Hch). simpl in Hu. destruct Hu as [<-|[<-|[]]]; discriminate. }
  destruct (Hlow 2 ltac:(lia) ltac:(lia) H2) as (_ & Hfree & Hle).
  assert (Heq : nextSynthChannel (tracks session) = 2).
  { destruct (Z.eq_dec (nextSynthChannel (tracks session)) 1) as [H1|H1]; [|lia].
    exfalso. apply Hfree. exists synthTrack. split; [simpl; auto|]. rewrite H1. reflexivity. }
  split; [exact Heq|]. exists t. split; [exact Ht|]. rewrite Hc. exact Heq.
Defined.


(** * The revised statements on what is sent *)

(** ** Rounding to a double *)

Lemma roundTiesToEven_near y :
  (Qabs (inject_Z (roundTiesToEven y) - y) <= 1 # 2)%Q.
Proof.
  unfold roundTiesToEven.
  pose proof (Qfloor_le y) as H1. pose proof (Qlt_floor y) as H2.
  rewrite inject_Z_plus in H2. change (inject_Z 1) with 1%Q in H2.
  apply Qabs_Qle_condition.
  destruct (y - inject_Z (Qfloor y) ?= 1 # 2)%Q eqn:E.
  - apply Qeq_alt in E.
    destruct (Z.even (Qfloor y));
      [|rewrite inject_Z_plus; change (inject_Z 1) with 1%Q]; split; lra.
  - apply Qlt_alt in E. split; lra.
  - apply Qgt_alt in E. rewrite inject_Z_plus. change (inject_Z 1) with 1%Q. split; lra.
Qed.

Lemma binade_upper (x : Q) (k : Z) :
  0 <= k -> (x < inject_Z (2 ^ k))%Q -> binade x <= k.
Proof.
  intros Hk Hx.
  assert (He0 : Z.log2 (Qnum x) - Z.log2 (Zpos (Qden x)) <= k).
  { unfold Qlt in Hx. simpl in Hx. rewrite Z.mul_1_r in Hx.
    assert (Hle : Qnum x <= Zpos (Qden x) * 2 ^ k) by lia.
    apply Z.log2_le_mono in Hle.
    rewrite Z.log2_mul_pow2 in Hle by lia. lia. }
  unfold binade. destruct (Qle_bool _ x); lia.
Qed.

Lemma pow2_pos (c : Z) : (0 < Qpower 2 c)%Q.
Proof. apply Qpower_0_lt. reflexivity. Qed.

(** Rounding a number below 256 in magnitude moves it by at most [2^-45]. *)
Lemma toDouble_error (x : Q) :
  (Qabs x < 256)%Q -> (Qabs (toDouble x - x) <= 1 # 35184372088832)%Q.
Proof.
  intros Hx. unfold toDouble. destruct (Qeq_bool x 0) eqn:E0.
  - apply Qeq_bool_iff in E0. rewrite E0. vm_compute. discriminate.
  - set (c := ulpExponent x).
    assert (Hc : c <= -44).
    { unfold c, ulpExponent.
      pose proof (binade_upper (Qabs x) 8 ltac:(lia) Hx). lia. }
    pose proof (pow2_pos c) as Hp.
    assert (Hp' : (Qpower 2 c <= 1 # 17592186044416)%Q)
      by exact (Qpower_le_compat_l 2 c (-44) Hc ltac:(discriminate)).
    pose proof (roundTiesToEven_near (x / Qpower 2 c)) as Hr.
    set (r := inject_Z (roundTiesToEven (x / Qpower 2 c))) in *.
    assert (Hx' : (x == (x / Qpower 2 c) * Qpower 2 c)%Q).
    { field. intros H0. rewrite H0 in Hp. revert Hp. apply Qlt_irrefl. }
    set (y := (x / Qpower 2 c)%Q) in *.
    assert (Heq : (r * Qpower 2 c - x == (r - y) * Qpower 2 c)%Q).
    { rewrite Hx' at 1. ring. }
    rewrite Heq, Qabs_Qmult.
    rewrite (Qabs_pos (Qpower 2 c)) by (apply Qlt_le_weak; exact Hp).
    apply Qle_trans with ((1 # 2) * Qpower 2 c)%Q.
    + apply Qmult_le_compat_r; [exact Hr|apply Qlt_le_weak; exact Hp].
    + lra.
Qed.

Lemma Math_round_spec x :
  (inject_Z (Math_round x) - (1 # 2) <= x /\ x < inject_Z (Math_round x) + (1 # 2))%Q.
Proof.
  unfold Math_round. pose proof (Qfloor_le (x + (1 # 2))) as H1.
  pose proof (Qlt_floor (x + (1 # 2))) as H2.
  rewrite inject_Z_plus in H2. change (inject_Z 1) with 1%Q in H2. split; lra.
Qed.

Lemma Math_round_unique x (k : Z) :
  (inject_Z k - (1 # 2) <= x)%Q -> (x < inject_Z k + (1 # 2))%Q -> Math_round x = k.
Proof.
  intros H1 H2. destruct (Math_round_spec x) as [H3 H4].
  assert (Ha : (inject_Z k < inject_Z (Math_round x + 1))%Q).
  { rewrite inject_Z_plus. change (inject_Z 1) with 1%Q. lra. }
  assert (Hb : (inject_Z (Math_round x) < inject_Z (k + 1))%Q).
  { rewrite inject_Z_plus. change (inject_Z 1) with 1%Q. lra. }
  rewrite <- Zlt_Qlt in Ha, Hb. lia.
Qed.

Lemma Math_round_close (x y delta : Q) :
  (Qabs (y - x) <= delta)%Q -> (delta < 1)%Q ->
  Z.abs (Math_round y - Math_round x) <= 1.
Proof.
  intros Hd H1. apply Qabs_Qle_condition in Hd as [Hd1 Hd2].
  destruct (Math_round_spec x) as [X1 X2]. destruct (Math_round_spec y) as [Y1 Y2].
  assert (Ha : (inject_Z (Math_round y) < inject_Z (Math_round x + 2))%Q).
  { rewrite inject_Z_plus. change (inject_Z 2) with 2%Q. lra. }
  assert (Hb : (inject_Z (Math_round x) < inject_Z (Math_round y + 2))%Q).
  { rewrite inject_Z_plus. change (inject_Z 2) with 2%Q. lra. }
  rewrite <- Zlt_Qlt in Ha, Hb. lia.
Qed.

Lemma Math_round_stable (x y delta : Q) :
  (Qabs (y - x) <= delta)%Q ->
  (forall h : Z, (delta < Qabs (x - (inject_Z h + (1 # 2))))%Q) ->
  Math_round y = Math_round x.
Proof.
  intros Hd Hfar. apply Qabs_Qle_condition in Hd as [Hd1 Hd2].
  destruct (Math_round_spec x) as [X1 X2].
  pose proof (Hfar (Math_round x)) as Hup.
  pose proof (Hfar (Math_round x + -1)) as Hlo.
  rewrite inject_Z_plus in Hlo. change (inject_Z (-1)) with (-(1))%Q in Hlo.
  rewrite Qabs_neg in Hup by lra. rewrite Qabs_pos in Hlo by lra.
  apply Math_round_unique; lra.
Qed.

(** On the domain of the transform the four rounded operations stay within
    [2^-43] of the exact sum. *)
Lemma ccSumDouble_error (value depth offset : Q) :
  (0 <= value <= 127)%Q -> (0 <= depth <= 1)%Q -> (-127 <= offset <= 127)%Q ->
  (Qabs (ccSumDouble value depth offset - ccSum value depth offset) <= ccRoundingError)%Q.
Proof.
  intros [Hv0 Hv1] [Hd0 Hd1] [Ho0 Ho1].
  unfold ccSumDouble, ccSum, Number_add, Number_multiply, Number_subtract, ccRoundingError.
  set (t1 := toDouble (value - 63.5)).
  assert (E1 : (Qabs (t1 - (value - 63.5)) <= 1 # 35184372088832)%Q).
  { apply toDouble_error. apply Qabs_Qlt_condition. split; lra. }
  apply Qabs_Qle_condition in E1 as [E1a E1b].
  assert (P1 : (- (64) <= t1 * depth <= 64)%Q) by (split; nra).
  assert (P2 : (- (1 # 35184372088832) <= t1 * depth - (value - 63.5) * depth
                <= 1 # 35184372088832)%Q) by (split; nra).
  set (t2 := toDouble (t1 * depth)).
  assert (E2 : (Qabs (t2 - t1 * depth) <= 1 # 35184372088832)%Q).
  { apply toDouble_error. apply Qabs_Qlt_condition. split; lra. }
  apply Qabs_Qle_condition in E2 as [E2a E2b].
  set (t3 := toDouble (63.5 + t2)).
  assert (E3 : (Qabs (t3 - (63.5 + t2)) <= 1 # 35184372088832)%Q).
  { apply toDouble_error. apply Qabs_Qlt_condition. split; lra. }
  apply Qabs_Qle_condition in E3 as [E3a E3b].
  assert (P3 : (0 <= 63.5 + (value - 63.5) * depth <= 127)%Q) by (split; nra).
  set (t4 := toDouble (t3 + offset)).
  assert (E4 : (Qabs (t4 - (t3 + offset)) <= 1 # 35184372088832)%Q).
  { apply toDouble_error. apply Qabs_Qlt_condition. split; lra. }
  apply Qabs_Qle_condition in E4 as [E4a E4b].
  apply Qabs_Qle_condition. split; lra.
Qed.

Lemma clamp_close a b : Z.abs (a - b) <= 1 -> Z.abs (clamp 0 127 a - clamp 0 127 b) <= 1.
Proof. unfold clamp. lia. Qed.

Lemma ccFormulaDouble_near (value depth offset : Q) :
  (0 <= value <= 127)%Q -> (0 <= depth <= 1)%Q -> (-127 <= offset <= 127)%Q ->
  Z.abs (ccFormulaDouble value depth offset - ccFormula value depth offset) <= 1
  /\ ((forall h : Z,
         (ccRoundingError < Qabs (ccSum value depth offset - (inject_Z h + (1 # 2))))%Q) ->
      ccFormulaDouble value depth offset = ccFormula value depth offset).
Proof.
  intros Hv Hd Ho. pose proof (ccSumDouble_error value depth offset Hv Hd Ho) as He.
  unfold ccFormulaDouble, ccFormula. fold (ccSum value depth offset). split.
  - apply clamp_close. apply (Math_round_close _ _ ccRoundingError He). reflexivity.
  - intros Hfar. f_equal. exact (Math_round_stable _ _ _ He Hfar).
Qed.

(** ** Controller messages of a step *)

Lemma laneMessages_spec track step lane m :
  In m (laneMessages track step lane)
  <-> exists ccData event,
        lane = Some ccData /\ In event (events ccData)
        /\ Math_floor (cc_time event * 4) = automationLocalStep ccData step
        /\ m = mkMsg (0xB0 + (channel track - 1)) (cc ccData)
                     (ccFormulaDouble (cc_value event)
                                      (default 1%Q (depth ccData))
                                      (default 0%Q (offset ccData))).
Proof.
  destruct lane as [ccData|]; simpl.
  - rewrite in_map_iff. split.
    + intros (event & <- & Hev). apply In_filter_iff in Hev as [Hstep Hin].
      exists ccData, event. split; [reflexivity|]. split; [exact Hin|].
      split; [exact Hstep|]. rewrite ccTransform_formula. reflexivity.
    + intros (c & event & [= <-] & Hin & Hstep & ->). exists event.
      split; [rewrite ccTransform_formula; reflexivity|].
      apply In_filter_iff. split; [exact Hstep|exact Hin].
  - split; [tauto|]. intros (c & event & Hc & _). discriminate.
Qed.

Lemma automationMessages_spec track step m :
  In m (automationMessages track step)
  <-> t_type track = SYNTH
      /\ exists lanes ccData event,
           ccAutomationData track = Some lanes /\ In (Some ccData) lanes
           /\ In event (events ccData)
           /\ Math_floor (cc_time event * 4) = automationLocalStep ccData step
           /\ m = mkMsg (0xB0 + (channel track - 1)) (cc ccData)
                        (ccFormulaDouble (cc_value event)
                                         (default 1%Q (depth ccData))
                                         (default 0%Q (offset ccData))).
Proof.
  unfold automationMessages. destruct (t_type track).
  - split; [simpl; tauto|]. intros [H _]. discriminate.
  - destruct (ccAutomationData track) as [lanes|].
    + rewrite in_flat_map. split.
      * intros (lane & Hlane & Hm).
        apply laneMessages_spec in Hm as (c & ev & -> & Hev & Hstep & ->).
        split; [reflexivity|]. exists lanes, c, ev. auto.
      * intros (_ & lanes' & c & ev & [= <-] & Hlane & Hev & Hstep & ->).
        exists (Some c). split; [exact Hlane|].
        apply laneMessages_spec. exists c, ev. auto.
    + split; [simpl; tauto|]. intros (_ & lanes & c & ev & Hl & _). discriminate.
Qed.

Lemma processTrack_automation st step track active p l m :
  isMuted track = false -> resolvePattern st track step = (Some p, l) ->
  In m (automationMessages track step) ->
  In m (fst (processTrack st step track active)).
Proof.
  intros Hm Hr Hin. unfold processTrack. rewrite Hm, Hr. cbn [fst].
  apply in_or_app. right. exact Hin.
Qed.

Lemma processTracks_automation st step ts :
  forall active track p l m,
    In track ts -> isMuted track = false ->
    resolvePattern st track step = (Some p, l) ->
    In m (automationMessages track step) ->
    In m (fst (processTracks st step ts active)).
Proof.
  induction ts as [|t ts IH]; intros active track p l m Hin Hm Hr Ha; [destruct Hin|].
  simpl. destruct Hin as [->|Hin].
  - pose proof (processTrack_automation st step track active p l m Hm Hr Ha) as H1.
    destruct (processTrack st step track active) as [out1 active1].
    destruct (processTracks st step ts active1) as [out2 active2]. cbn [fst] in *.
    apply in_or_app. left. exact H1.
  - destruct (processTrack st step t active) as [out1 active1].
    pose proof (IH active1 track p l m Hin Hm Hr Ha) as H2.
    destruct (processTracks st step ts active1) as [out2 active2]. cbn [fst] in *.
    apply in_or_app. right. exact H2.
Qed.

(** Every message of a step, in any mode: a note-off of a note that was
    due, or a message of the trigger loop for an unmuted track. *)
Lemma processMidiStep_messages st step m :
  In m (snd (processMidiStep st step)) ->
  (exists trackId notes a,
      In (trackId, notes) (activePlayingNotes st) /\ In a notes
      /\ absoluteOffStep a = step /\ m = noteOff a)
  \/ exists track, In track (tracks st) /\ triggeredBy st step track m.
Proof.
  destruct (isPreviewMode st) eqn:Hv.
  { unfold processMidiStep. rewrite Hv. intros []. }
  destruct (hasOutput st) eqn:Ho.
  2:{ unfold processMidiStep. rewrite Hv, Ho. intros []. }
  rewrite (processMidiStep_midi st step Hv Ho). cbn [snd]. intros Hm.
  apply in_app_or in Hm as [Hm|Hm].
  - left. apply releaseExpired_messages. exact Hm.
  - right. exact (processTracks_messages st step (tracks st) _ m Hm).
Qed.

(** C3, as the code has it.  When a step is emitted in MIDI mode, every
    event of a lane of an unmuted synth track with a resolving pattern whose
    [floor(time*4)] is the lane's local step is sent as a controller message
    on the track's channel, with the lane's controller number and the value
    [clamp(0,127, round(63.5 + (value-63.5)*depth + offset))] in which the
    difference, the product and the two sums are each rounded to the nearest
    double (a lane without [depth] uses 1, one without [offset] uses 0);
    and every message of a step that is neither a note-off nor a note-on is
    such a controller message.  The value
    is an integer from 0 to 127.  For a value in [0,127], a depth in [0,1]
    and an offset in [-127,127] it differs from the exactly evaluated
    formula by at most 1, and not at all unless the exact sum lies within
    [2^-43] of a half-integer.  The transform maps (64, depth 1, offset 0)
    to 64, (0, 1, 0) to 0 and (127, 0.5, 0) to 95. *)
Theorem cc_transform_formula :
  (forall st step track p l lanes ccData event,
      isPreviewMode st = false -> hasOutput st = true ->
      In track (tracks st) -> isMuted track = false -> t_type track = SYNTH ->
      resolvePattern st track step = (Some p, l) ->
      ccAutomationData track = Some lanes -> In (Some ccData) lanes ->
      In event (events ccData) ->
      Math_floor (cc_time event * 4) = automationLocalStep ccData step ->
      In (mkMsg (0xB0 + (channel track - 1)) (cc ccData)
                (ccFormulaDouble (cc_value event)
                                 (default 1%Q (depth ccData))
                                 (default 0%Q (offset ccData))))
         (snd (processMidiStep st step)))
  /\ (forall st step m,
        In m (snd (processMidiStep st step)) ->
        (exists trackId notes a,
            In (trackId, notes) (activePlayingNotes st) /\ In a notes
            /\ absoluteOffStep a = step /\ m = noteOff a)
        \/ exists track,
             In track (tracks st) /\ isMuted track = false
             /\ ((exists p l n,
                     resolvePattern st track step = (Some p, l)
                     /\ In n p /\ Math_floor (time n * 4) = l
                     /\ m = noteOn track n)
                 \/ (t_type track = SYNTH
                     /\ exists lanes ccData event,
                          ccAutomationData track = Some lanes /\ In (Some ccData) lanes
                          /\ In event (events ccData)
                          /\ Math_floor (cc_time event * 4)
                             = automationLocalStep ccData step
                          /\ m = mkMsg (0xB0 + (channel track - 1)) (cc ccData)
                                       (ccFormulaDouble (cc_value event)
                                                        (default 1%Q (depth ccData))
                                                        (default 0%Q (offset ccData))))))
  /\ (forall value depth offset, 0 <= ccFormulaDouble value depth offset <= 127)
  /\ (forall value depth offset,
        (0 <= value <= 127)%Q -> (0 <= depth <= 1)%Q -> (-127 <= offset <= 127)%Q ->
        Z.abs (ccFormulaDouble value depth offset - ccFormula value depth offset) <= 1
        /\ ((forall h : Z,
               (ccRoundingError
                < Qabs (ccSum value depth offset - (inject_Z h + (1 # 2))))%Q) ->
            ccFormulaDouble value depth offset = ccFormula value depth offset))
  /\ ccFormulaDouble 64 1 0 = 64
  /\ ccFormulaDouble 0 1 0 = 0
  /\ ccFormulaDouble 127 0.5 0 = 95.
Proof.
  split.
  { intros st step track p l lanes ccData event Hv Ho Hin Hm Hty Hr Hl Hlane Hev Hstep.
    rewrite (processMidiStep_midi st step Hv Ho). cbn [snd].
    apply in_or_app. right.
    apply (processTracks_automation st step (tracks st) _ track p l _ Hin Hm Hr).
    apply automationMessages_spec. split; [exact Hty|].
    exists lanes, ccData, event. auto. }
  split.
  { intros st step m Hm.
    apply processMidiStep_messages in Hm as [Hoff|(track & Hin & Hmuted & Htr)];
      [left; exact Hoff|right].
    exists track. split; [exact Hin|]. split; [exact Hmuted|].
    destruct Htr as [Hnote|Ha]; [left; exact Hnote|right].
    apply automationMessages_spec. exact Ha. }
  split; [intros value depth offset; apply clamp_range|].
  split; [exact ccFormulaDouble_near|].
  repeat split; vm_compute; reflexivity.
Qed.

Lemma cc_transform_formula_witness :
  In (mkMsg 176 74 95) (snd (processMidiStep session 0)).
Proof.
  destruct cc_transform_formula as (Hsent & _).
  apply (Hsent session 0 synthTrack leadPattern 0 [Some sweepLane; None; None]
           sweepLane (mkCcEvent 0 127));
    try reflexivity; simpl; auto.
Defined.

(** C3, as stated, fails for a depth off the grid of the exactly
    representable fractions: with value 0, the double nearest to [27/63.5]
    as depth and offset 0, all three inside the stated ranges, the step
    sends the value 37 where the formula evaluated exactly gives 36.  The
    product [-63.5 * depth] lies so close to [-27] that it is rounded to it,
    which puts the sum on the tie 36.5. *)
Lemma cc_transform_counterexample :
  (0 <= 0 <= 127)%Q /\ (0 <= offGridDepth <= 1)%Q /\ (-127 <= 0 <= 127)%Q
  /\ (toDouble offGridDepth == offGridDepth)%Q
  /\ In (mkMsg 176 74 37) (snd (processMidiStep offGridSession 0))
  /\ ccFormula 0 offGridDepth 0 = 36
  /\ ccTransform offGridLane 0 <> ccFormula 0 offGridDepth 0.
Proof.
  split; [split; discriminate|]. split; [split; discriminate|].
  split; [split; discriminate|].
  split; [unfold Qeq; vm_compute; reflexivity|].
  split; [vm_compute; auto|].
  split; [vm_compute; reflexivity|].
  vm_compute. discriminate.
Qed.


(** ** Pitches of the notes of a step *)

Lemma finalNoteOf_synth track n s :
  t_type track = SYNTH -> octaveShift track = Some s ->
  finalNoteOf track n = clamp 0 127 (note n + s * 12).
Proof. intros Hty Hs. unfold finalNoteOf. rewrite Hty, Hs. reflexivity. Qed.

Lemma finalNoteOf_drum track n :
  t_type track = DRUM -> finalNoteOf track n = clamp 0 127 (note n).
Proof. intros Hty. unfold finalNoteOf. rewrite Hty. reflexivity. Qed.

(** C9.  When a step is emitted in MIDI mode, every note of the resolved
    pattern of an unmuted synth track with octave shift [s] that starts on
    the step is sent as a note-on with the pitch
    [clamp(0,127, note + s*12)], and is booked as sounding at that pitch.
    Conversely every message of the step is a note-off of a note that was
    due, a controller message, or the note-on of such a note of an unmuted
    track, whose pitch is [clamp(0,127, note + s*12)] on a synth track with
    shift [s] and [clamp(0,127, note)] on a drum track.  Emitting a step
    returns the track list and the live-edit table exactly as they were,
    and after a step of the internal scheduler or any incoming clock message
    every track still holds the same pattern history. *)
Theorem octave_shift_leaves_patterns (st : AppState) :
  (forall step track s p l n,
      isPreviewMode st = false -> hasOutput st = true ->
      In track (tracks st) -> isMuted track = false ->
      t_type track = SYNTH -> octaveShift track = Some s ->
      resolvePattern st track step = (Some p, l) ->
      In n p -> Math_floor (time n * 4) = l ->
      In (mkMsg (0x90 + (channel track - 1)) (clamp 0 127 (note n + s * 12)) (velocity n))
         (snd (processMidiStep st step))
      /\ sounding (fst (processMidiStep st step)) (t_id track)
           (mkActive (clamp 0 127 (note n + s * 12))
                     (step + Math_floor (duration n * 4)) (channel track)))
  /\ (forall step m,
        In m (snd (processMidiStep st step)) ->
        (exists trackId notes a,
            In (trackId, notes) (activePlayingNotes st) /\ In a notes
            /\ absoluteOffStep a = step /\ m = noteOff a)
        \/ exists track,
             In track (tracks st) /\ isMuted track = false
             /\ ((exists p l n,
                     resolvePattern st track step = (Some p, l)
                     /\ In n p /\ Math_floor (time n * 4) = l
                     /\ status m = 0x90 + (channel track - 1)
                     /\ data2 m = velocity n
                     /\ (forall s, t_type track = SYNTH -> octaveShift track = Some s ->
                           data1 m = clamp 0 127 (note n + s * 12))
                     /\ (t_type track = DRUM -> data1 m = clamp 0 127 (note n)))
                 \/ In m (automationMessages track step)))
  /\ (forall step,
        tracks (fst (processMidiStep st step)) = tracks st
        /\ liveEditingPattern (fst (processMidiStep st step)) = liveEditingPattern st)
  /\ map patternHistory (tracks (fst (schedulerStep st)))
     = map patternHistory (tracks st)
  /\ (forall command,
        map patternHistory (tracks (fst (handleMidiMessage st command)))
        = map patternHistory (tracks st)).
Proof.
  split.
  { intros step track s p l n Hv Ho Hin Hm Hty Hs Hr Hn Hl.
    rewrite (processMidiStep_midi st step Hv Ho). cbn [fst snd].
    destruct (processTracks_books st step (tracks st)
                (snd (releaseExpired step (activePlayingNotes st)))
                track p l n Hin Hm Hr Hn Hl) as (Hon & notes & Hnotes & Ha).
    unfold noteOn in Hon. unfold soundingOf in Ha.
    rewrite (finalNoteOf_synth track n s Hty Hs) in Hon, Ha.
    split; [apply in_or_app; right; exact Hon|].
    exists notes. split; [exact Hnotes|exact Ha]. }
  split.
  { intros step m Hm.
    apply processMidiStep_messages in Hm as [Hoff|(track & Hin & Hmuted & Htr)].
    - left. exact Hoff.
    - right.
      exists track. split; [exact Hin|]. split; [exact Hmuted|].
      destruct Htr as [(p & l & n & Hr & Hn & Hl & ->)|Ha]; [left|right; exact Ha].
      exists p, l, n. split; [exact Hr|]. split; [exact Hn|]. split; [exact Hl|].
      split; [reflexivity|]. split; [reflexivity|]. split.
      + intros s Hty Hs. apply finalNoteOf_synth; assumption.
      + intros Hty. apply finalNoteOf_drum. exact Hty. }
  split.
  { intros step. split; [apply processMidiStep_tracks|apply processMidiStep_liveEdit]. }
  split; [apply schedulerStep_history|].
  intros command. apply handleMidiMessage_history.
Qed.

Lemma octave_shift_leaves_patterns_witness :
  In (mkMsg 144 127 90) (snd (processMidiStep session 0))
  /\ sounding (fst (processMidiStep session 0)) "synth-track-1" (mkActive 127 4 1)
  /\ tracks (fst (processMidiStep session 0)) = tracks session.
Proof.
  destruct (octave_shift_leaves_patterns session) as (Hsent & _ & Hframe & _).
  destruct (Hsent 0 synthTrack 1 leadPattern 0 (mkMidiNote 120 90 0 1)
              eq_refl eq_refl ltac:(simpl; auto) eq_refl eq_refl eq_refl eq_refl
              ltac:(simpl; auto) eq_refl) as [Hon Hbooked].
  split; [exact Hon|]. split; [exact Hbooked|]. exact (proj1 (Hframe 0)).
Defined.


(** ** The external clock, with and without an output *)

Lemma applyPendingSwitches_sends_nothing st : snd (applyPendingSwitches st) = [].
Proof.
  unfold applyPendingSwitches.
  destruct (pendingPatternHistorySwitch st); [|reflexivity].
  destruct (negb (isPreviewMode st) && hasOutput st); reflexivity.
Qed.

Lemma clockPulse_messages st :
  pulseEmitsStep st = true ->
  snd (clockPulse st) = snd (processMidiStep (pulseCounted st) (absoluteStep st)).
Proof.
  unfold pulseEmitsStep. intros He. apply andb_prop in He as [Hc Hp].
  unfold clockPulse, pulseCounted.
  cbn [clockTickCounter set_clockTickCounter set_isExternalClock isPlaying absoluteStep].
  rewrite Hc, Hp.
  match goal with |- context [processMidiStep ?s ?n] =>
    destruct (processMidiStep s n) as [st3 out1]
  end.
  cbn [snd].
  match goal with |- context [if ?c then _ else _] => destruct c end; [|reflexivity].
  match goal with |- context [applyPendingSwitches ?s] =>
    pose proof (applyPendingSwitches_sends_nothing s) as Hn;
    destruct (applyPendingSwitches s) as [st5 out2]
  end.
  cbn [snd] in *. subst out2. apply app_nil_r.
Qed.

Lemma clockStart_no_output st :
  hasOutput st = false ->
  snd (clockStart st) = []
  /\ activePlayingNotes (fst (clockStart st)) = activePlayingNotes st.
Proof.
  intros Ho. unfold clockStart, sendAllNotesOff, processMidiStep.
  destruct st as [ts pl pv ex hi ho fs le ab ct act pd]. simpl in Ho. subst ho.
  cbn. destruct pv; split; reflexivity.
Qed.

Lemma clockStop_no_output st :
  hasOutput st = false ->
  snd (clockStop st) = []
  /\ activePlayingNotes (fst (clockStop st)) = activePlayingNotes st.
Proof.
  intros Ho. unfold clockStop, sendAllNotesOff.
  destruct st as [ts pl pv ex hi ho fs le ab ct act pd]. simpl in Ho. subst ho.
  cbn. split; reflexivity.
Qed.

(** C8, as the code has it.  In MIDI mode with an input selected, a clock
    pulse emits a step exactly when the transport is playing and the pulse
    count reaches a multiple of six: the pulse then sends the messages of
    [processMidiStep] for the current step, and nothing else, and advances
    the step counter by one; any other pulse sends nothing and leaves the
    step counter alone; while playing, [n] pulses advance the step counter by
    the number of multiples of six passed.  A start message switches to
    playing on the external clock and leaves the step counter at 1 and the
    pulse count at 0; with an output selected it flushes what is sounding and
    emits step 0 at once from an empty sounding table.  A continue message
    switches to playing and changes neither the step counter nor the pulse
    count.  A stop message halts playback; with an output selected it leaves
    nothing sounding and sends a note-off for every sounding note followed by
    controller 123 on every channel.  With no output selected neither start
    nor stop sends anything, and both leave the table of sounding notes as
    it is. *)
Theorem external_clock_transport (st : AppState) :
  isPreviewMode st = false -> hasInput st = true ->
  0 <= clockTickCounter st ->
  (let '(s', out) := handleMidiMessage st 0xF8 in
   absoluteStep s' = (if pulseEmitsStep st then absoluteStep st + 1 else absoluteStep st)
   /\ clockTickCounter s' = clockTickCounter st + 1
   /\ (isPlaying st = false -> absoluteStep s' = absoluteStep st /\ out = [])
   /\ (js_rem (clockTickCounter st + 1) 6 <> 0 ->
       absoluteStep s' = absoluteStep st /\ out = [])
   /\ (isPlaying st = true -> js_rem (clockTickCounter st + 1) 6 = 0 ->
       absoluteStep s' = absoluteStep st + 1
       /\ out = snd (processMidiStep (pulseCounted st) (absoluteStep st))))
  /\ (isPlaying st = true ->
      forall n, absoluteStep (fst (handleMidiMessages st (repeat 0xF8 n)))
                = absoluteStep st
                  + ((clockTickCounter st + Z.of_nat n) / 6 - clockTickCounter st / 6))
  /\ (let '(s', out) := handleMidiMessage st 0xFA in
      isPlaying s' = true /\ isExternalClock s' = true
      /\ clockTickCounter s' = 0 /\ absoluteStep s' = 1
      /\ (hasOutput st = true ->
          activePlayingNotes (restarted st) = []
          /\ out = flushMessages st ++ snd (processMidiStep (restarted st) 0))
      /\ (hasOutput st = false ->
          out = [] /\ activePlayingNotes s' = activePlayingNotes st))
  /\ (let '(s', out) := handleMidiMessage st 0xFB in
      isPlaying s' = true /\ isExternalClock s' = true
      /\ absoluteStep s' = absoluteStep st
      /\ clockTickCounter s' = clockTickCounter st
      /\ activePlayingNotes s' = activePlayingNotes st /\ out = [])
  /\ (let '(s', out) := handleMidiMessage st 0xFC in
      isPlaying s' = false /\ isExternalClock s' = false
      /\ absoluteStep s' = absoluteStep st
      /\ (hasOutput st = true -> activePlayingNotes s' = [] /\ out = flushMessages st)
      /\ (hasOutput st = false ->
          out = [] /\ activePlayingNotes s' = activePlayingNotes st)).
Proof.
  intros Hv Hi Hc.
  assert (H8 : handleMidiMessage st 248 = clockPulse st)
    by (unfold handleMidiMessage; rewrite Hv, Hi; reflexivity).
  assert (HA : handleMidiMessage st 250 = clockStart st)
    by (unfold handleMidiMessage; rewrite Hv; reflexivity).
  assert (HB : handleMidiMessage st 251 = clockContinue st)
    by (unfold handleMidiMessage; rewrite Hv; reflexivity).
  assert (HC : handleMidiMessage st 252 = clockStop st)
    by (unfold handleMidiMessage; rewrite Hv; reflexivity).
  split.
  { rewrite H8. pose proof (clockPulse_effect st) as (_ & _ & _ & _ & E5 & E6 & E7 & _).
    pose proof (clockPulse_messages st) as E8.
    destruct (clockPulse st) as [s' out]. simpl in E5, E6, E7, E8.
    unfold pulseEmitsStep in *. change (PPQN / 4) with 6 in *.
    split; [exact E6|]. split; [exact E5|].
    split.
    { intros Hp. rewrite Hp, andb_false_r in *. auto. }
    split.
    { intros Hr. apply Z.eqb_neq in Hr. rewrite Hr in *. cbn [andb] in *. auto. }
    intros Hp Hr. apply Z.eqb_eq in Hr. rewrite Hr, Hp in *. cbn [andb] in *. auto. }
  split.
  { intros Hp n. exact (proj1 (clockPulses_steps n st Hv Hi Hp Hc)). }
  split.
  { rewrite HA. pose proof (clockStart_transport st) as (T1 & T2 & T3 & T4).
    pose proof (clockStart_effect st Hv) as E.
    pose proof (clockStart_no_output st) as N.
    destruct (clockStart st) as [s' out]. simpl in T1, T2, T3, T4, N.
    split; [exact T1|]. split; [exact T2|]. split; [exact T3|]. split; [exact T4|].
    split.
    - intros Ho. specialize (E Ho). injection E as _ Eout. split; [reflexivity|exact Eout].
    - intros Ho. destruct (N Ho) as [N1 N2]. auto. }
  split.
  { rewrite HB. unfold clockContinue. simpl. repeat split; reflexivity. }
  rewrite HC. pose proof (clockStop_effect st) as (S1 & S2 & _ & S4 & _ & S6).
  pose proof (clockStop_no_output st) as N.
  destruct (clockStop st) as [s' out]. simpl in *.
  split; [exact S1|]. split; [exact S2|]. split; [exact S4|]. split.
  - intros Ho. exact (S6 Hv Ho).
  - intros Ho. destruct (N Ho) as [N1 N2]. auto.
Qed.

Lemma external_clock_transport_witness :
  absoluteStep (fst (handleMidiMessage externalSession 0xF8)) = 5
  /\ absoluteStep (fst (handleMidiMessages externalSession (repeat 0xF8 13))) = 7
  /\ absoluteStep (fst (handleMidiMessage externalSession 0xFA)) = 1
  /\ activePlayingNotes (fst (handleMidiMessage externalSession 0xFC)) = []
  /\ snd (handleMidiMessage deviceLostSession 0xFC) = [].
Proof.
  pose proof (external_clock_transport externalSession
                eq_refl eq_refl ltac:(simpl; lia))
    as (Hpulse & Hmany & Hstart & _ & Hstop).
  pose proof (external_clock_transport deviceLostSession
                eq_refl eq_refl ltac:(simpl; lia))
    as (_ & _ & _ & _ & Hlost).
  split.
  { destruct (handleMidiMessage externalSession 248) as [s' out].
    destruct Hpulse as (_ & _ & _ & _ & Hemit).
    exact (proj1 (Hemit eq_refl eq_refl)). }
  split; [exact (Hmany eq_refl 13%nat)|].
  split.
  { destruct (handleMidiMessage externalSession 250) as [s' out].
    destruct Hstart as (_ & _ & _ & H1 & _). exact H1. }
  split.
  { destruct (handleMidiMessage externalSession 252) as [s' out].
    destruct Hstop as (_ & _ & _ & Hempty & _). exact (proj1 (Hempty eq_refl)). }
  destruct (handleMidiMessage deviceLostSession 252) as [s' out].
  destruct Hlost as (_ & _ & _ & _ & Hsilent). exact (proj1 (Hsilent eq_refl)).
Defined.

(** C8, as stated, fails when the clock runs while the transport is not
    playing: the session is in external clock mode, the incoming pulse is the
    sixth, and no step is emitted; twelve pulses in a row emit none either.
    It fails for a start message, after which the step counter reads 1 and
    not 0.  And it fails for a stop message received while no output is
    selected: nothing is sent and the notes that were sounding stay in the
    table. *)
Lemma external_clock_counterexample :
  isExternalClock idleExternalSession = true
  /\ isPreviewMode idleExternalSession = false
  /\ js_rem (clockTickCounter idleExternalSession + 1) (PPQN / 4) = 0
  /\ handleMidiMessage idleExternalSession 0xF8
     = (set_clockTickCounter idleExternalSession 6, [])
  /\ absoluteStep (fst (handleMidiMessages idleExternalSession (repeat 0xF8 12)))
     = absoluteStep idleExternalSession
  /\ snd (handleMidiMessages idleExternalSession (repeat 0xF8 12)) = []
  /\ absoluteStep (fst (handleMidiMessage externalSession 0xFA)) = 1
  /\ isPreviewMode deviceLostSession = false
  /\ hasInput deviceLostSession = true
  /\ snd (handleMidiMessage deviceLostSession 0xFC) = []
  /\ activePlayingNotes (fst (handleMidiMessage deviceLostSession 0xFC))
     = [("drum-track-0", [mkActive 36 4 10]); ("synth-track-1", [mkActive 127 4 1])].
Proof. repeat split; vm_compute; reflexivity. Qed.


(** ** Deferred switches on the three clocks *)

Lemma previewTick_switch s m now transportLoop L progress :
  anyTrackChaining (tracks s) = false ->
  pendingPatternHistorySwitch s = Some m -> m <> ∅ ->
  let r := previewTick s now transportLoop L progress in
  (transportLoop = true -> (0 < L)%Q ->
   Math_floor (Number_multiply progress L) = 0 ->
   tracks r = map (applySwitch m) (tracks s)
   /\ pendingPatternHistorySwitch r = Some ∅)
  /\ (transportLoop = false \/ (L <= 0)%Q
      \/ Math_floor (Number_multiply progress L) <> 0 ->
      tracks r = tracks s /\ pendingPatternHistorySwitch r = Some m).
Proof.
  intros Hn Hm Hne. cbv zeta. unfold previewTick.
  set (st1 := match now with
              | Some a => set_absoluteStep s a
              | None => s
              end).
  assert (Ht : tracks st1 = tracks s) by (unfold st1; destruct now; reflexivity).
  assert (Hp : pendingPatternHistorySwitch st1 = Some m)
    by (unfold st1; destruct now; exact Hm).
  assert (Hpend : pendingNonEmpty (Some m) = true).
  { unfold pendingNonEmpty. rewrite bool_decide_eq_false_2 by exact Hne. reflexivity. }
  assert (Hn1 : anyTrackChaining (tracks st1) = false) by (rewrite Ht; exact Hn).
  rewrite Hp, Hpend, Bool.andb_true_r, Hn1. cbn [negb andb].
  split.
  - intros -> HL Hf.
    assert (E : Qle_bool L 0 = false).
    { apply Bool.not_true_is_false. intros H. apply Qle_bool_iff in H. lra. }
    rewrite E, Hf. cbn [negb andb Z.eqb]. rewrite Ht. split; reflexivity.
  - intros [->|[HL|Hf]].
    + split; assumption.
    + apply Qle_bool_iff in HL. rewrite HL. cbn [negb andb].
      destruct transportLoop; split; assumption.
    + apply Z.eqb_neq in Hf. rewrite Hf, Bool.andb_false_r.
      destruct transportLoop; split; assumption.
Qed.

(** C4, as the code has it.  While the transport is playing and no track is
    chaining, a request to switch track [T] to index [I] only records
    [T -> I] in the pending map, and a later request for [T] replaces the
    earlier one.  With the MIDI backend on the internal clock, the scheduler
    steps that come before the last step of the shared loop change neither
    the tracks nor the pending map, and the step that processes the last
    step of the loop applies every pending entry (track [T] gets index [I]
    when [I] is an index of its history), replaces the pending map by an
    empty one in the same step and leaves the counter at the start of the
    loop.  With the MIDI backend on the external clock, a clock pulse applies
    the pending map exactly when it is a sixth pulse and the step it emits is
    the last one of the shared loop.  On the audio backend the sixteenth-note
    callback applies the pending map exactly when the transport is looping
    and the position in the loop lies in its first sixteenth, that is on the
    first callback after the wraparound and not on the last step before it.
    When the transport is not playing, or some track is chaining, the request
    is applied at once. *)
Theorem deferred_switch (st : AppState) (T : string) (I : Z) :
  isPlaying st = true -> anyTrackChaining (tracks st) = false ->
  let requested := handleSwitchPatternHistory st T I in
  (tracks requested = tracks st
   /\ isPlaying requested = true
   /\ exists m, pendingPatternHistorySwitch requested = Some m
                /\ m !! T = Some I /\ m <> ∅)
  /\ (forall I2,
        handleSwitchPatternHistory requested T I2 = handleSwitchPatternHistory st T I2)
  /\ (isPreviewMode st = false -> isExternalClock st = false -> 0 <= absoluteStep st ->
      let L := loopEndStepForNormalMode st in
      (forall n, (n <= stepsToBoundary st)%nat ->
         tracks (runScheduler n requested) = tracks st
         /\ pendingPatternHistorySwitch (runScheduler n requested)
            = pendingPatternHistorySwitch requested
         /\ absoluteStep (runScheduler n requested) = absoluteStep st + Z.of_nat n)
      /\ (absoluteStep st + Z.of_nat (stepsToBoundary st)) mod L = L - 1
      /\ (exists m,
            pendingPatternHistorySwitch requested = Some m
            /\ let applied := runScheduler (S (stepsToBoundary st)) requested in
               tracks applied = map (applySwitch m) (tracks st)
               /\ pendingPatternHistorySwitch applied = Some ∅
               /\ absoluteStep applied mod L = 0
               /\ forall t, t_id t = T ->
                    0 <= I < Z.of_nat (length (patternHistory t)) ->
                    currentPatternIndex (applySwitch m t) = I))
  /\ (forall s m,
        isPreviewMode s = false -> hasInput s = true -> isPlaying s = true ->
        anyTrackChaining (tracks s) = false ->
        pendingPatternHistorySwitch s = Some m -> m <> ∅ ->
        0 <= absoluteStep s -> 0 <= clockTickCounter s ->
        let r := fst (handleMidiMessage s 0xF8) in
        let L := loopEndStep s in
        ((clockTickCounter s + 1) mod 6 = 0 -> absoluteStep s mod L = L - 1 ->
         tracks r = map (applySwitch m) (tracks s)
         /\ pendingPatternHistorySwitch r = Some ∅
         /\ absoluteStep r mod L = 0)
        /\ ((clockTickCounter s + 1) mod 6 <> 0 \/ absoluteStep s mod L <> L - 1 ->
            tracks r = tracks s /\ pendingPatternHistorySwitch r = Some m))
  /\ (forall s m now transportLoop transportLoopEndSixteenths progress,
        anyTrackChaining (tracks s) = false ->
        pendingPatternHistorySwitch s = Some m -> m <> ∅ ->
        let r := previewTick s now transportLoop transportLoopEndSixteenths progress in
        let sixteenthInLoop :=
          Math_floor (Number_multiply progress transportLoopEndSixteenths) in
        (transportLoop = true -> (0 < transportLoopEndSixteenths)%Q ->
         sixteenthInLoop = 0 ->
         tracks r = map (applySwitch m) (tracks s)
         /\ pendingPatternHistorySwitch r = Some ∅)
        /\ (transportLoop = false \/ (transportLoopEndSixteenths <= 0)%Q
            \/ sixteenthInLoop <> 0 ->
            tracks r = tracks s /\ pendingPatternHistorySwitch r = Some m))
  /\ (forall s, isPlaying s = false \/ anyTrackChaining (tracks s) = true ->
        tracks (handleSwitchPatternHistory s T I) = map (switchNow T I) (tracks s)
        /\ forall t, t_id t = T ->
             0 <= I < Z.of_nat (length (patternHistory t)) ->
             currentPatternIndex (switchNow T I t) = I).
Proof.
  intros Hp Hn requested.
  set (m := <[T := I]> (default ∅ (pendingPatternHistorySwitch st))).
  assert (Hreq : requested = set_pending st (Some m)).
  { unfold requested, handleSwitchPatternHistory. rewrite Hp, Hn. reflexivity. }
  split.
  { rewrite Hreq. split; [reflexivity|]. split; [exact Hp|]. exists m.
    split; [reflexivity|]. split; [apply lookup_insert_eq|apply insert_non_empty]. }
  split.
  { intros I2. rewrite Hreq. unfold handleSwitchPatternHistory.
    change (isPlaying (set_pending st (Some m))) with (isPlaying st).
    change (tracks (set_pending st (Some m))) with (tracks st).
    rewrite Hp, Hn. cbn [negb andb]. unfold pendingSet, set_pending. simpl.
    subst m. rewrite insert_insert_eq. reflexivity. }
  split.
  { intros Hv He Ha L.
    assert (HL : 16 <= L) by apply loopEnd_ge16.
    pose proof (Z.mod_pos_bound (absoluteStep st) L ltac:(lia)) as Hmod.
    assert (Htb : Z.of_nat (stepsToBoundary st) = L - 1 - absoluteStep st mod L).
    { unfold stepsToBoundary. fold L. rewrite Z2Nat.id; lia. }
    assert (Hbefore : forall n, (n <= stepsToBoundary st)%nat ->
              exists active, runScheduler n requested
                = set_absoluteStep (set_activePlayingNotes requested active)
                                   (absoluteStep st + Z.of_nat n)).
    { intros n Hle. rewrite Hreq.
      exact (runScheduler_before_boundary (set_pending st (Some m)) Hp He Hv Ha n Hle). }
    split.
    { intros n Hle. destruct (Hbefore n Hle) as [active ->]. rewrite Hreq.
      repeat split; reflexivity. }
    split.
    { rewrite Htb. rewrite mod_before_boundary; lia. }
    exists m. split; [rewrite Hreq; reflexivity|]. cbv zeta.
    destruct (Hbefore (stepsToBoundary st) ltac:(lia)) as [active Hrun].
    unfold runScheduler in *. simpl. rewrite Hrun, Hreq.
    set (sb := set_absoluteStep (set_activePlayingNotes (set_pending st (Some m)) active)
                                (absoluteStep st + Z.of_nat (stepsToBoundary st))).
    destruct (schedulerStep_running sb Hp He Hv) as [active' Hs].
    cbv zeta in Hs. rewrite Hs.
    change (tracks sb) with (tracks st).
    change (loopEndStepForNormalMode sb) with L.
    change (absoluteStep sb) with (absoluteStep st + Z.of_nat (stepsToBoundary st)).
    change (pendingPatternHistorySwitch sb) with (Some m).
    rewrite Hn. subst m. rewrite pendingNonEmpty_insert.
    assert (Hb : atLoopBoundary L (absoluteStep st + Z.of_nat (stepsToBoundary st)) = true).
    { apply atLoopBoundary_iff; [lia|lia|].
      rewrite Htb. rewrite mod_before_boundary; lia. }
    rewrite Hb. cbn [negb andb].
    match goal with |- context [applyPendingSwitches ?s] =>
      destruct (applyPendingSwitches_some s
                  (<[T:=I]> (default ∅ (pendingPatternHistorySwitch st))) eq_refl)
        as (Ht & Hpd & Hab)
    end.
    rewrite Ht, Hpd, Hab. simpl.
    split; [reflexivity|]. split; [reflexivity|].
    split.
    - rewrite Htb. apply mod_at_wraparound; lia.
    - intros t Hid Hi. apply applySwitch_target; [|exact Hi].
      rewrite Hid. apply lookup_insert_eq. }
  split.
  { clear. intros s m Hv Hi Hp Hn Hm Hne Hs Hc r L.
    assert (HL : 16 <= L) by apply loopEndStep_ge16.
    assert (Hr : r = fst (clockPulse s)).
    { unfold r, handleMidiMessage. rewrite Hv, Hi. reflexivity. }
    assert (Hemit : pulseEmitsStep s = ((clockTickCounter s + 1) mod 6 =? 0)).
    { unfold pulseEmitsStep. rewrite Hp, Bool.andb_true_r.
      change (PPQN / 4) with 6. rewrite js_rem_nonneg by lia. reflexivity. }
    assert (Hpend : pendingNonEmpty (pendingPatternHistorySwitch s) = true).
    { rewrite Hm. unfold pendingNonEmpty. rewrite bool_decide_eq_false_2 by exact Hne.
      reflexivity. }
    split.
    - intros H6 Hb.
      rewrite Hr, clockPulse_unfold by (rewrite Hemit; apply Z.eqb_eq; exact H6).
      rewrite Hn, Hpend.
      replace (atLoopBoundary (loopEndStep s) (absoluteStep s)) with true
        by (symmetry; apply atLoopBoundary_iff; [fold L; lia | exact Hs | exact Hb]).
      cbn [negb andb].
      match goal with |- context [applyPendingSwitches ?s0] =>
        destruct (applyPendingSwitches_some s0 m) as (Ht & Hq & Ha)
      end.
      { destruct (processMidiStep_frame (pulseCounted s) (absoluteStep s)) as [a ->].
        exact Hm. }
      rewrite Ht, Hq, Ha. cbn [tracks absoluteStep set_absoluteStep].
      rewrite processMidiStep_tracks. split; [reflexivity|]. split; [reflexivity|].
      rewrite <- Z.add_mod_idemp_l by lia. rewrite Hb.
      replace (L - 1 + 1) with L by lia. apply Z.mod_same. lia.
    - intros Hor. rewrite Hr.
      destruct (Z.eq_dec ((clockTickCounter s + 1) mod 6) 0) as [H6|H6].
      + rewrite clockPulse_unfold by (rewrite Hemit; apply Z.eqb_eq; exact H6).
        destruct Hor as [Hor|Hor]; [contradiction|].
        replace (atLoopBoundary (loopEndStep s) (absoluteStep s)) with false.
        2:{ symmetry. apply Bool.not_true_is_false. intros Hb.
            apply atLoopBoundary_iff in Hb; [|fold L; lia|exact Hs]. contradiction. }
        rewrite Bool.andb_false_r. cbn [andb].
        destruct (processMidiStep_frame (pulseCounted s) (absoluteStep s)) as [a ->].
        split; [reflexivity|exact Hm].
      + unfold clockPulse.
        cbn [clockTickCounter set_clockTickCounter set_isExternalClock].
        change (PPQN / 4) with 6. rewrite js_rem_nonneg by lia.
        apply Z.eqb_neq in H6. rewrite H6. split; [reflexivity|exact Hm]. }
  split.
  { clear. intros s m now transportLoop L progress Hn Hm Hne.
    exact (previewTick_switch s m now transportLoop L progress Hn Hm Hne). }
  intros s Hs. split.
  - unfold handleSwitchPatternHistory.
    destruct Hs as [Hs|Hs]; rewrite Hs; [reflexivity|].
    rewrite andb_false_r. reflexivity.
  - intros t Hid Hi. apply switchNow_target; auto.
Qed.

Lemma deferred_switch_witness :
  let requested := handleSwitchPatternHistory scenarioSession "drum-track-0" 1 in
  map currentPatternIndex (tracks (runScheduler 7 requested)) = [0]
  /\ map currentPatternIndex (tracks (runScheduler 8 requested)) = [1]
  /\ pendingPatternHistorySwitch (runScheduler 8 requested) = Some ∅
  /\ map currentPatternIndex
       (tracks (fst (handleMidiMessage externalQueuedSession 0xF8))) = [1; 0].
Proof.
  intros requested.
  destruct (deferred_switch scenarioSession "drum-track-0" 1 eq_refl eq_refl)
    as (_ & _ & Hinternal & Hexternal & _).
  destruct (Hinternal eq_refl eq_refl ltac:(simpl; lia))
    as (Hbefore & _ & (m & Hm & Happlied & Hcleared & _ & Hidx)).
  split.
  { destruct (Hbefore 7%nat ltac:(vm_compute; lia)) as (Ht & _).
    fold requested in Ht. rewrite Ht. reflexivity. }
  change (S (stepsToBoundary scenarioSession)) with 8%nat in Happlied, Hcleared.
  fold requested in Happlied, Hcleared.
  split.
  { rewrite Happlied. simpl. f_equal.
    apply (Hidx drumTrack); [reflexivity | simpl; lia]. }
  split; [exact Hcleared|].
  destruct (Hexternal externalQueuedSession {[ "drum-track-0" := 1 ]}
              eq_refl eq_refl eq_refl eq_refl eq_refl
              ltac:(apply insert_non_empty) ltac:(simpl; lia) ltac:(simpl; lia))
    as [Happly _].
  destruct (Happly eq_refl eq_refl) as (Ht & _). rewrite Ht. reflexivity.
Defined.

(** C4, as stated, fails on the audio backend.  The session plays with a
    switch of the drum track queued and no track chaining, the transport
    loops over 64 sixteenths.  The callback of the last sixteenth before the
    wraparound leaves the tracks and the pending map as they are; the
    callback of the first sixteenth after it applies the switch; and with
    looping switched off that same callback applies nothing. *)
Lemma deferred_switch_counterexample :
  isPlaying previewQueuedSession = true
  /\ isPreviewMode previewQueuedSession = true
  /\ anyTrackChaining (tracks previewQueuedSession) = false
  /\ Math_floor (Number_multiply (63 # 64) 64) = 63
  /\ tracks (previewTick previewQueuedSession (Some 63) true 64 (63 # 64))
     = tracks previewQueuedSession
  /\ pendingPatternHistorySwitch
       (previewTick previewQueuedSession (Some 63) true 64 (63 # 64))
     = pendingPatternHistorySwitch previewQueuedSession
  /\ map currentPatternIndex (tracks previewQueuedSession) = [0; 0]
  /\ map currentPatternIndex
       (tracks (previewTick previewQueuedSession (Some 64) true 64 0)) = [1; 0]
  /\ tracks (previewTick previewQueuedSession (Some 64) false 64 0)
     = tracks previewQueuedSession.
Proof. repeat split; vm_compute; reflexivity. Qed.
